(** * Kite: a shallow embedding of the segment and path kernel

    The development follows the JavaScript sources of the repository:
    the Quadratic Bezier segment, the generic Segment helpers, the
    EllipticalArc offset discretisation, the Line and Subpath of the
    bundled distribution, the stroke joins, and the path construction
    and query methods of Shape.

    Numbers.  A JavaScript Number is modelled by an exact rational
    ([Q]); the places where the code produces or tests a non-finite
    value (a division whose divisor may be zero, the explicit NaN of
    [Quadratic.extremaT]) go through the type [number] below, which adds
    the two infinities and NaN.  Rounding is not modelled there, and
    there is one zero.  Numeric equality [===] is [Qeq_bool], so two
    fractions of the same value are equal, as the two floats would be.
    Where the outcome of a test depends on how the operations round,
    the code is embedded a second time over the binary64 numbers of
    IEEE 754 (module [Double]).

    Objects.  Points are immutable values here: no modelled operation
    writes the coordinates of a Vector2 in place.  Where the code
    compares two object references ([!==] in the generated setters), an
    object is modelled with its reference.  Event listeners
    ([trigger0]) are not modelled. *)

From Stdlib Require Import Floats NsatzTactic.
From Stdlib Require Import QArith Qminmax Qabs Lqa ZArith Lia List Bool Permutation.
Import ListNotations.
Open Scope Q_scope.

Set Implicit Arguments.

(** ** Numbers *)

Inductive number : Type :=
| Fin (q : Q)
| PInf
| NInf
| NaN.

Module Num.

Definition ltb (a b : Q) : bool := negb (Qle_bool b a).

(** [a / b] as JavaScript evaluates it on finite operands. *)
Definition div (a b : Q) : number :=
  if Qeq_bool b 0 then
    match a ?= 0 with
    | Gt => PInf
    | Lt => NInf
    | Eq => NaN
    end
  else Fin (a / b).

(** [n < q] and [n <= q] for a finite right-hand side. *)
Definition lt (n : number) (q : Q) : bool :=
  match n with
  | Fin a => ltb a q
  | NInf => true
  | PInf | NaN => false
  end.

Definition le (n : number) (q : Q) : bool :=
  match n with
  | Fin a => Qle_bool a q
  | NInf => true
  | PInf | NaN => false
  end.

(** [Util.clamp] *)
Definition clamp (value min max : Q) : Q :=
  if ltb value min then min
  else if ltb max value then max
  else value.

(** [n * q] and [n + q] for a finite right operand: an infinity times
    zero is NaN, and takes the sign of the product otherwise. *)
Definition timesQ (n : number) (q : Q) : number :=
  match n with
  | Fin a => Fin (a * q)
  | PInf => match q ?= 0 with Gt => PInf | Lt => NInf | Eq => NaN end
  | NInf => match q ?= 0 with Gt => NInf | Lt => PInf | Eq => NaN end
  | NaN => NaN
  end.

Definition plusQ (n : number) (q : Q) : number :=
  match n with
  | Fin a => Fin (a + q)
  | PInf => PInf
  | NInf => NInf
  | NaN => NaN
  end.

(** [n || 0], as the Vector2 constructor stores a coordinate: NaN is
    falsy and becomes 0, an infinity is kept. *)
Definition orZero (n : number) : number :=
  match n with
  | NaN => Fin 0
  | _ => n
  end.

End Num.

(** The functions of the JavaScript [Math] object that the modelled code
    calls.  They are an interface of the host, not code of the
    repository: every statement below holds for any implementation. *)
Class MathLib : Type := {
  Math_PI : Q;
  Math_sqrt : Q -> Q;
  Math_sin : Q -> Q;
  Math_cos : Q -> Q;
  Math_acos : Q -> Q;
  Math_atan2 : Q -> Q -> Q
}.

(** ** DOT/Vector2 *)

Record Vector2 : Type := v2 { x : Q; y : Q }.

Module Vector2.

Definition ZERO : Vector2 := v2 0 0.
Definition X_UNIT : Vector2 := v2 1 0.

Definition dot (a b : Vector2) : Q := x a * x b + y a * y b.
Definition magnitudeSquared (a : Vector2) : Q := dot a a.
Definition plus (a b : Vector2) : Vector2 := v2 (x a + x b) (y a + y b).
Definition minus (a b : Vector2) : Vector2 := v2 (x a - x b) (y a - y b).
Definition timesScalar (a : Vector2) (s : Q) : Vector2 := v2 (x a * s) (y a * s).
Definition times (a : Vector2) (s : Q) : Vector2 := timesScalar a s.
Definition negated (a : Vector2) : Vector2 := v2 (- x a) (- y a).
Definition perpendicular (a : Vector2) : Vector2 := v2 (y a) (- x a).
Definition distanceSquared (a p : Vector2) : Q := magnitudeSquared (minus a p).

(** [this.x === other.x && this.y === other.y] *)
Definition equals (a b : Vector2) : bool :=
  Qeq_bool (x a) (x b) && Qeq_bool (y a) (y b).

(** [|dx| + |dy| <= epsilon] *)
Definition equalsEpsilon (a b : Vector2) (epsilon : Q) : bool :=
  Qle_bool (Qabs (x a - x b) + Qabs (y a - y b)) epsilon.

(** linear interpolation from [a] (ratio 0) to [b] (ratio 1) *)
Definition blend (a b : Vector2) (ratio : Q) : Vector2 :=
  plus a (times (minus b a) ratio).

Definition magnitude `{MathLib} (a : Vector2) : Q :=
  Math_sqrt (magnitudeSquared a).

(** [normalized] throws on a vector of magnitude zero: [None]. *)
Definition normalized `{MathLib} (a : Vector2) : option Vector2 :=
  let mag := magnitude a in
  if Qeq_bool mag 0 then None
  else Some (v2 (x a / mag) (y a / mag)).

Definition angle `{MathLib} (a : Vector2) : Q := Math_atan2 (y a) (x a).

Definition angleBetween `{MathLib} (a v : Vector2) : option Q :=
  match normalized a, normalized v with
  | Some na, Some nv => Some (Math_acos (Num.clamp (dot na nv) (-1) 1))
  | _, _ => None
  end.

Definition createPolar `{MathLib} (magnitude angle : Q) : Vector2 :=
  timesScalar (v2 (Math_cos angle) (Math_sin angle)) magnitude.

(** [dividedScalar], for a scalar that is not zero *)
Definition dividedScalar (a : Vector2) (scalar : Q) : Vector2 :=
  v2 (x a / scalar) (y a / scalar).

(** Two vectors denote the same point. *)
Definition same (a b : Vector2) : Prop := x a == x b /\ y a == y b.

End Vector2.

(** ** DOT/Bounds2 *)

Record Bounds2 : Type :=
  bounds2 { minX : Q; minY : Q; maxX : Q; maxY : Q }.

Module Bounds2.

Definition containsCoordinates (b : Bounds2) (px py : Q) : bool :=
  Qle_bool (minX b) px && Qle_bool px (maxX b) &&
  Qle_bool (minY b) py && Qle_bool py (maxY b).

Definition containsPoint (b : Bounds2) (p : Vector2) : bool :=
  containsCoordinates b (x p) (y p).

Definition withCoordinates (b : Bounds2) (px py : Q) : Bounds2 :=
  bounds2 (Qmin (minX b) px) (Qmin (minY b) py)
          (Qmax (maxX b) px) (Qmax (maxY b) py).

Definition withPoint (b : Bounds2) (p : Vector2) : Bounds2 :=
  withCoordinates b (x p) (y p).

Definition containsBounds (b bounds : Bounds2) : bool :=
  Qle_bool (minX b) (minX bounds) && Qle_bool (maxX bounds) (maxX b) &&
  Qle_bool (minY b) (minY bounds) && Qle_bool (maxY bounds) (maxY b).

Definition union (b bounds : Bounds2) : Bounds2 :=
  bounds2 (Qmin (minX b) (minX bounds)) (Qmin (minY b) (minY bounds))
          (Qmax (maxX b) (maxX bounds)) (Qmax (maxY b) (maxY bounds)).

Definition intersection (b bounds : Bounds2) : Bounds2 :=
  bounds2 (Qmax (minX b) (minX bounds)) (Qmax (minY b) (minY bounds))
          (Qmin (maxX b) (maxX bounds)) (Qmin (maxY b) (maxY bounds)).

Definition getWidth (b : Bounds2) : Q := maxX b - minX b.
Definition getHeight (b : Bounds2) : Q := maxY b - minY b.

Definition isEmpty (b : Bounds2) : bool :=
  Num.ltb (getWidth b) 0 || Num.ltb (getHeight b) 0.

(** whether the intersection is non-empty *)
Definition intersectsBounds (b bounds : Bounds2) : bool :=
  negb (isEmpty (intersection b bounds)).

Definition dilated (b : Bounds2) (d : Q) : Bounds2 :=
  bounds2 (minX b - d) (minY b - d) (maxX b + d) (maxY b + d).

Definition eroded (b : Bounds2) (d : Q) : Bounds2 := dilated b (- d).

End Bounds2.

(** ** DOT/Ray2 and DOT/Util *)

Record Ray2 : Type := ray2 { pos : Vector2; dir : Vector2 }.

Module Ray2.

Definition pointAtDistance (r : Ray2) (distance : Q) : Vector2 :=
  Vector2.plus (pos r) (Vector2.timesScalar (dir r) distance).

End Ray2.

Module Util.

(** Intersection of the line through [p1], [p2] with the line through
    [p3], [p4]; both coordinates divide by the same determinant.  The
    result is built by [new Vector2( x, y )], which stores [x || 0] and
    [y || 0]: a coordinate that comes out as 0 / 0 is stored as 0. *)
Definition lineLineIntersection (p1 p2 p3 p4 : Vector2) : number * number :=
  let den := (x p1 - x p2) * (y p3 - y p4) - (y p1 - y p2) * (x p3 - x p4) in
  (Num.orZero
     (Num.div ((x p1 * y p2 - y p1 * x p2) * (x p3 - x p4)
               - (x p1 - x p2) * (x p3 * y p4 - y p3 * x p4)) den),
   Num.orZero
     (Num.div ((x p1 * y p2 - y p1 * x p2) * (y p3 - y p4)
               - (y p1 - y p2) * (x p3 * y p4 - y p3 * x p4)) den)).


(** Linearly interpolate two points and evaluate the line equation for
    a third point: [(y2 - y1) / (x2 - x1) * (x3 - x1) + y1]. *)
Definition linear (x1 y1 x2 y2 x3 : Q) : number :=
  Num.plusQ (Num.timesQ (Num.div (y2 - y1) (x2 - x1)) (x3 - x1)) y1.

(** return an array of real roots of ax^2 + bx + c = 0 *)
Definition solveQuadraticRootsReal `{MathLib} (a b c : Q) : list number :=
  let discriminant := b * b - 4 * a * c in
  if Num.ltb discriminant 0 then []
  else
    let sqrt := Math_sqrt discriminant in
    [ Num.div (- b - sqrt) (2 * a); Num.div (- b + sqrt) (2 * a) ].

End Util.

(** ** DOT/Matrix3

    The nine entries, named by row and column, and the type tag that
    [timesMatrix] and [inverted] dispatch on. *)

Inductive Matrix3Type : Type :=
| OTHER
| IDENTITY
| TRANSLATION_2D
| SCALING
| AFFINE.

Record Matrix3 : Type := mkMatrix3 {
  m00 : Q; m01 : Q; m02 : Q;
  m10 : Q; m11 : Q; m12 : Q;
  m20 : Q; m21 : Q; m22 : Q;
  type : Matrix3Type
}.

Module Matrix3.

Definition typeEqb (a b : Matrix3Type) : bool :=
  match a, b with
  | OTHER, OTHER | IDENTITY, IDENTITY | TRANSLATION_2D, TRANSLATION_2D
  | SCALING, SCALING | AFFINE, AFFINE => true
  | _, _ => false
  end.

(** [rowMajor]: without a type, the matrix is affine when its last row
    is 0, 0, 1, and of the other kind if not. *)
Definition rowMajor (v00 v01 v02 v10 v11 v12 v20 v21 v22 : Q)
    (type : option Matrix3Type) : Matrix3 :=
  mkMatrix3 v00 v01 v02 v10 v11 v12 v20 v21 v22
    (match type with
     | Some t => t
     | None =>
         if Qeq_bool v20 0 && Qeq_bool v21 0 && Qeq_bool v22 1
         then AFFINE else OTHER
     end).

Definition identity : Matrix3 :=
  rowMajor 1 0 0 0 1 0 0 0 1 (Some IDENTITY).

Definition translation (tx ty : Q) : Matrix3 :=
  rowMajor 1 0 tx 0 1 ty 0 0 1 (Some TRANSLATION_2D).

Definition scaling (sx sy : Q) : Matrix3 :=
  rowMajor sx 0 0 0 sy 0 0 0 1 (Some SCALING).

Definition rotationZ `{MathLib} (angle : Q) : Matrix3 :=
  let c := Math_cos angle in
  let s := Math_sin angle in
  rowMajor c (- s) 0 s c 0 0 0 1 (Some AFFINE).

Definition rotation2 `{MathLib} (angle : Q) : Matrix3 := rotationZ angle.

Definition getDeterminant (m : Matrix3) : Q :=
  m00 m * m11 m * m22 m + m01 m * m12 m * m20 m + m02 m * m10 m * m21 m
  - m02 m * m11 m * m20 m - m01 m * m10 m * m22 m - m00 m * m12 m * m21 m.

Definition timesMatrix (this m : Matrix3) : Matrix3 :=
  if typeEqb (type this) IDENTITY || typeEqb (type m) IDENTITY then
    if typeEqb (type this) IDENTITY then m else this
  else if typeEqb (type this) (type m) && typeEqb (type this) TRANSLATION_2D then
    rowMajor 1 0 (m02 this + m02 m) 0 1 (m12 this + m12 m) 0 0 1 (Some TRANSLATION_2D)
  else if typeEqb (type this) (type m) && typeEqb (type this) SCALING then
    rowMajor (m00 this * m00 m) 0 0 0 (m11 this * m11 m) 0 0 0 1 (Some SCALING)
  else if negb (typeEqb (type this) OTHER) && negb (typeEqb (type m) OTHER) then
    (* affine case *)
    rowMajor (m00 this * m00 m + m01 this * m10 m)
             (m00 this * m01 m + m01 this * m11 m)
             (m00 this * m02 m + m01 this * m12 m + m02 this)
             (m10 this * m00 m + m11 this * m10 m)
             (m10 this * m01 m + m11 this * m11 m)
             (m10 this * m02 m + m11 this * m12 m + m12 this)
             0 0 1 (Some AFFINE)
  else
    (* general case *)
    rowMajor (m00 this * m00 m + m01 this * m10 m + m02 this * m20 m)
             (m00 this * m01 m + m01 this * m11 m + m02 this * m21 m)
             (m00 this * m02 m + m01 this * m12 m + m02 this * m22 m)
             (m10 this * m00 m + m11 this * m10 m + m12 this * m20 m)
             (m10 this * m01 m + m11 this * m11 m + m12 this * m21 m)
             (m10 this * m02 m + m11 this * m12 m + m12 this * m22 m)
             (m20 this * m00 m + m21 this * m10 m + m22 this * m20 m)
             (m20 this * m01 m + m21 this * m11 m + m22 this * m21 m)
             (m20 this * m02 m + m21 this * m12 m + m22 this * m22 m)
             None.

Definition timesVector2 (m : Matrix3) (v : Vector2) : Vector2 :=
  v2 (m00 m * x v + m01 m * y v + m02 m)
     (m10 m * x v + m11 m * y v + m12 m).

Definition timesTransposeVector2 (m : Matrix3) (v : Vector2) : Vector2 :=
  v2 (m00 m * x v + m10 m * y v)
     (m01 m * x v + m11 m * y v).

(** The inverse by type.  [None]: the call throws (determinant zero),
    or, for a scaling with a zero on the diagonal, an entry of the
    result is not finite. *)
Definition inverted (m : Matrix3) : option Matrix3 :=
  match type m with
  | IDENTITY => Some m
  | TRANSLATION_2D =>
      Some (rowMajor 1 0 (- m02 m) 0 1 (- m12 m) 0 0 1 (Some TRANSLATION_2D))
  | SCALING =>
      match Num.div 1 (m00 m), Num.div 1 (m11 m), Num.div 1 (m22 m) with
      | Fin i00, Fin i11, Fin i22 =>
          Some (rowMajor i00 0 0 0 i11 0 0 0 i22 (Some SCALING))
      | _, _, _ => None
      end
  | AFFINE =>
      let det := getDeterminant m in
      if negb (Qeq_bool det 0) then
        Some (rowMajor
                ((- m12 m * m21 m + m11 m * m22 m) / det)
                ((m02 m * m21 m - m01 m * m22 m) / det)
                ((- m02 m * m11 m + m01 m * m12 m) / det)
                ((m12 m * m20 m - m10 m * m22 m) / det)
                ((- m02 m * m20 m + m00 m * m22 m) / det)
                ((m02 m * m10 m - m00 m * m12 m) / det)
                0 0 1 (Some AFFINE))
      else None
  | OTHER =>
      let det := getDeterminant m in
      if negb (Qeq_bool det 0) then
        Some (rowMajor
                ((- m12 m * m21 m + m11 m * m22 m) / det)
                ((m02 m * m21 m - m01 m * m22 m) / det)
                ((- m02 m * m11 m + m01 m * m12 m) / det)
                ((m12 m * m20 m - m10 m * m22 m) / det)
                ((- m02 m * m20 m + m00 m * m22 m) / det)
                ((m02 m * m10 m - m00 m * m12 m) / det)
                ((- m11 m * m20 m + m10 m * m21 m) / det)
                ((m01 m * m20 m - m00 m * m21 m) / det)
                ((- m01 m * m10 m + m00 m * m11 m) / det)
                (Some OTHER))
      else None
  end.

End Matrix3.

(** ** KITE/segments/Cubic

    The four defining points, as the constructor keeps them when it is
    told to skip its computations; the tangents, the cusp data and the
    bounds it computes otherwise are left out. *)

Record Cubic : Type := mkCubic {
  cubic_start : Vector2;
  control1 : Vector2;
  control2 : Vector2;
  cubic_end : Vector2
}.

Module Cubic.

Definition positionAt (c : Cubic) (t : Q) : Vector2 :=
  let mt := 1 - t in
  Vector2.plus
    (Vector2.plus
       (Vector2.plus (Vector2.times (cubic_start c) (mt * mt * mt))
                     (Vector2.times (control1 c) (3 * mt * mt * t)))
       (Vector2.times (control2 c) (3 * mt * t * t)))
    (Vector2.times (cubic_end c) (t * t * t)).

Definition tangentAt (c : Cubic) (t : Q) : Vector2 :=
  let mt := 1 - t in
  Vector2.plus
    (Vector2.plus
       (Vector2.plus (Vector2.times (cubic_start c) (-3 * mt * mt))
                     (Vector2.times (control1 c) (3 * mt * mt - 6 * mt * t)))
       (Vector2.times (control2 c) (6 * mt * t - 3 * t * t)))
    (Vector2.times (cubic_end c) (3 * t * t)).

(** de Casteljau method, with [skipComputations] set *)
Definition subdivided (c : Cubic) (t : Q) : Cubic * Cubic :=
  let left := Vector2.blend (cubic_start c) (control1 c) t in
  let right := Vector2.blend (control2 c) (cubic_end c) t in
  let middle := Vector2.blend (control1 c) (control2 c) t in
  let leftMid := Vector2.blend left middle t in
  let rightMid := Vector2.blend middle right t in
  let mid := Vector2.blend leftMid rightMid t in
  (mkCubic (cubic_start c) left leftMid mid,
   mkCubic mid rightMid right (cubic_end c)).

End Cubic.

(** ** KITE/segments/Line

    The constructor marks a line whose two ends are equal as invalid.
    The cached unit tangents and bounds of a valid line are left out:
    no operation modelled below reads them. *)

Record Line : Type := mkLine { start : Vector2; end_ : Vector2; invalid : bool }.

Record Hit : Type :=
  mkHit { distance : Q; point : Vector2; normal : Vector2; wind : Z }.

Module Line.

Definition new (s e : Vector2) : Line := mkLine s e (Vector2.equals s e).

(** The test that an intersection coordinate [i] lies outside the
    half-open range from [s] (excluded) to [e] (included). *)
Definition outside (s e i : Q) : bool :=
  negb (Qeq_bool s e) &&
  (if Num.ltb e s
   then Qle_bool s i || Num.ltb i e
   else Qle_bool i s || Num.ltb e i).

Definition intersection (l : Line) (ray : Ray2) : list Hit :=
  let s := start l in
  let e := end_ l in
  match Util.lineLineIntersection s e (pos ray) (Vector2.plus (pos ray) (dir ray)) with
  | (Fin ix, Fin iy) =>
      if outside (x s) (x e) ix then []
      else if outside (y s) (y e) iy then []
      else
        let t := Vector2.dot (Vector2.minus (v2 ix iy) (pos ray)) (dir ray) in
        if Num.ltb t 0 then []
        else
          let diff := Vector2.minus e s in
          let perp := Vector2.perpendicular diff in
          [ mkHit t
                  (Ray2.pointAtDistance ray t)
                  (if Num.ltb 0 (Vector2.dot perp (dir ray))
                   then Vector2.negated perp else perp)
                  (if Num.ltb (Vector2.dot (Vector2.perpendicular (dir ray)) diff) 0
                   then 1%Z else (-1)%Z) ]
  | _ => []   (* lines must be parallel *)
  end.

Definition windingIntersection (l : Line) (ray : Ray2) : Z :=
  match intersection l ray with
  | h :: _ => wind h
  | [] => 0%Z
  end.

End Line.

(** ** KITE/util/Subpath

    A subpath tracks the points of the drawing calls, the segments kept
    for them, and the closed flag.  The kind of segment is a parameter
    of the type. *)

Record Subpath (S : Type) : Type :=
  mkSubpath { points : list Vector2; segments : list S; closed : bool }.

Arguments mkSubpath {S} _ _ _.

Module Subpath.

Section Ops.
Context {S : Type}.

Definition new : Subpath S := mkSubpath [] [] false.

Definition addPoint (p : Vector2) (sp : Subpath S) : Subpath S :=
  mkSubpath (points sp ++ [p]) (segments sp) (closed sp).

(** [addSegment] for a segment whose [invalid] flag is given. *)
Definition addSegment (seg_invalid : S -> bool) (seg : S) (sp : Subpath S) : Subpath S :=
  if negb (seg_invalid seg)
  then mkSubpath (points sp) (segments sp ++ [seg]) (closed sp)
  else sp.

Definition close (sp : Subpath S) : Subpath S :=
  mkSubpath (points sp) (segments sp) true.

Definition getFirstPoint (sp : Subpath S) : option Vector2 := hd_error (points sp).

Definition getLastPoint (sp : Subpath S) : option Vector2 :=
  match points sp with
  | [] => None
  | p :: ps => Some (last ps p)
  end.

Definition isDrawable (sp : Subpath S) : bool :=
  match segments sp with [] => false | _ :: _ => true end.

(** The tolerance written [0.000000001] in the source. *)
Definition closingEpsilon : Q := 1 # 1000000000.

(** [None]: the subpath has no point, and the call fails on
    [undefined]. *)
Definition hasClosingSegment (sp : Subpath S) : option bool :=
  match getFirstPoint sp, getLastPoint sp with
  | Some first, Some lst => Some (negb (Vector2.equalsEpsilon first lst closingEpsilon))
  | _, _ => None
  end.

Definition getClosingSegment (sp : Subpath S) : option Line :=
  match getFirstPoint sp, getLastPoint sp with
  | Some first, Some lst => Some (Line.new lst first)
  | _, _ => None
  end.

End Ops.

End Subpath.

(** ** KITE/segments/Quadratic

    The three defining points and the five lazily computed values; a
    cache field is [None] where the source holds [null]. *)

Record Quadratic : Type := mkQuadratic {
  _start : Vector2;
  _control : Vector2;
  _end : Vector2;
  _startTangent : option Vector2;
  _endTangent : option Vector2;
  _tCriticalX : option number;
  _tCriticalY : option number;
  _bounds : option Bounds2
}.

(** What [getNondegenerateSegments] may return. *)
Inductive Segment : Type :=
| SegLine (l : Line)
| SegQuadratic (q : Quadratic).

(** The names given to [Segment.addInvalidatingGetterSetter] for
    Quadratic. *)
Inductive PropertyName : Type := start_name | control_name | end_name.

(** Object identity.  A field that holds an object holds a reference
    to it, and [===] and [!==] on two objects compare the references,
    not the coordinates.  A Vector2 object is its reference together
    with the coordinates it holds; a Quadratic object is the state of
    the segment together with the references of the three Vector2
    objects that its fields [_start], [_control] and [_end] hold. *)
Definition Reference : Type := positive.

Record Vector2Object : Type :=
  mkVector2Object { reference : Reference; coordinates : Vector2 }.

Record QuadraticObject : Type := mkQuadraticObject {
  segment : Quadratic;
  startReference : Reference;
  controlReference : Reference;
  endReference : Reference
}.

Module Quadratic.

(** Clears the cached information. *)
Definition invalidate (q : Quadratic) : Quadratic :=
  mkQuadratic (_start q) (_control q) (_end q) None None None None None.

Definition new (start control end_ : Vector2) : Quadratic :=
  invalidate (mkQuadratic start control end_ None None None None None).

(** one-dimensional solution to extrema *)
Definition extremaT (start control end_ : Q) : number :=
  let divisorX := 2 * (end_ - 2 * control + start) in
  if negb (Qeq_bool divisorX 0)
  then Fin (-2 * (control - start) / divisorX)
  else NaN.

Definition positionAt (q : Quadratic) (t : Q) : Vector2 :=
  let mt := 1 - t in
  Vector2.plus
    (Vector2.plus (Vector2.times (_start q) (mt * mt))
                  (Vector2.times (_control q) (2 * mt * t)))
    (Vector2.times (_end q) (t * t)).

Definition with_startTangent (v : Vector2) (q : Quadratic) : Quadratic :=
  mkQuadratic (_start q) (_control q) (_end q) (Some v) (_endTangent q)
              (_tCriticalX q) (_tCriticalY q) (_bounds q).

Definition with_endTangent (v : Vector2) (q : Quadratic) : Quadratic :=
  mkQuadratic (_start q) (_control q) (_end q) (_startTangent q) (Some v)
              (_tCriticalX q) (_tCriticalY q) (_bounds q).

Definition with_tCriticalX (t : number) (q : Quadratic) : Quadratic :=
  mkQuadratic (_start q) (_control q) (_end q) (_startTangent q) (_endTangent q)
              (Some t) (_tCriticalY q) (_bounds q).

Definition with_tCriticalY (t : number) (q : Quadratic) : Quadratic :=
  mkQuadratic (_start q) (_control q) (_end q) (_startTangent q) (_endTangent q)
              (_tCriticalX q) (Some t) (_bounds q).

Definition with_bounds (b : Bounds2) (q : Quadratic) : Quadratic :=
  mkQuadratic (_start q) (_control q) (_end q) (_startTangent q) (_endTangent q)
              (_tCriticalX q) (_tCriticalY q) (Some b).

(** The getters return their value with the segment after the call,
    whose cache may have been filled.  The tangent getters fail
    ([None]) where [normalized] throws. *)

Definition getStartTangent `{MathLib} (q : Quadratic) : option (Vector2 * Quadratic) :=
  match _startTangent q with
  | Some v => Some (v, q)
  | None =>
      let controlIsStart := Vector2.equals (_start q) (_control q) in
      match (if controlIsStart
             then Vector2.normalized (Vector2.minus (_end q) (_start q))
             else Vector2.normalized (Vector2.minus (_control q) (_start q))) with
      | Some v => Some (v, with_startTangent v q)
      | None => None
      end
  end.

Definition getEndTangent `{MathLib} (q : Quadratic) : option (Vector2 * Quadratic) :=
  match _endTangent q with
  | Some v => Some (v, q)
  | None =>
      let controlIsEnd := Vector2.equals (_end q) (_control q) in
      match (if controlIsEnd
             then Vector2.normalized (Vector2.minus (_end q) (_start q))
             else Vector2.normalized (Vector2.minus (_end q) (_control q))) with
      | Some v => Some (v, with_endTangent v q)
      | None => None
      end
  end.

Definition getTCriticalX (q : Quadratic) : number * Quadratic :=
  match _tCriticalX q with
  | Some t => (t, q)
  | None =>
      let t := extremaT (x (_start q)) (x (_control q)) (x (_end q)) in
      (t, with_tCriticalX t q)
  end.

Definition getTCriticalY (q : Quadratic) : number * Quadratic :=
  match _tCriticalY q with
  | Some t => (t, q)
  | None =>
      let t := extremaT (y (_start q)) (y (_control q)) (y (_end q)) in
      (t, with_tCriticalY t q)
  end.

(** [!isNaN( t ) && t > 0 && t < 1], giving the parameter when it
    holds. *)
Definition interior (t : number) : option Q :=
  match t with
  | Fin t => if Num.ltb 0 t && Num.ltb t 1 then Some t else None
  | _ => None
  end.

Definition getBounds (q : Quadratic) : Bounds2 * Quadratic :=
  match _bounds q with
  | Some b => (b, q)
  | None =>
      let b0 := bounds2 (Qmin (x (_start q)) (x (_end q)))
                        (Qmin (y (_start q)) (y (_end q)))
                        (Qmax (x (_start q)) (x (_end q)))
                        (Qmax (y (_start q)) (y (_end q))) in
      let '(tCriticalX, q1) := getTCriticalX q in
      let '(tCriticalY, q2) := getTCriticalY q1 in
      let b1 := match interior tCriticalX with
                | Some t => Bounds2.withPoint b0 (positionAt q2 t)
                | None => b0
                end in
      let b2 := match interior tCriticalY with
                | Some t => Bounds2.withPoint b1 (positionAt q2 t)
                | None => b1
                end in
      (b2, with_bounds b2 q2)
  end.

(** de Casteljau method *)
Definition subdivided (q : Quadratic) (t : Q) : Quadratic * Quadratic :=
  let leftMid := Vector2.blend (_start q) (_control q) t in
  let rightMid := Vector2.blend (_control q) (_end q) t in
  let mid := Vector2.blend leftMid rightMid t in
  (new (_start q) leftMid mid, new mid rightMid (_end q)).

(** *** Generated getters and setters *)

Definition getProperty (name : PropertyName) (q : Quadratic) : Vector2 :=
  match name with
  | start_name => _start q
  | control_name => _control q
  | end_name => _end q
  end.

Definition assignProperty (name : PropertyName) (value : Vector2) (q : Quadratic) : Quadratic :=
  match name with
  | start_name =>
      mkQuadratic value (_control q) (_end q) (_startTangent q) (_endTangent q)
                  (_tCriticalX q) (_tCriticalY q) (_bounds q)
  | control_name =>
      mkQuadratic (_start q) value (_end q) (_startTangent q) (_endTangent q)
                  (_tCriticalX q) (_tCriticalY q) (_bounds q)
  | end_name =>
      mkQuadratic (_start q) (_control q) value (_startTangent q) (_endTangent q)
                  (_tCriticalX q) (_tCriticalY q) (_bounds q)
  end.

(** The reference that the field of a property holds. *)
Definition heldReference (name : PropertyName) (this : QuadraticObject) : Reference :=
  match name with
  | start_name => startReference this
  | control_name => controlReference this
  | end_name => endReference this
  end.

(** [this[ internalName ] = value]: the field holds the reference
    passed, and with it the coordinates of that object. *)
Definition assignObject (name : PropertyName) (value : Vector2Object)
    (this : QuadraticObject) : QuadraticObject :=
  let q := assignProperty name (coordinates value) (segment this) in
  match name with
  | start_name =>
      mkQuadraticObject q (reference value) (controlReference this) (endReference this)
  | control_name =>
      mkQuadraticObject q (startReference this) (reference value) (endReference this)
  | end_name =>
      mkQuadraticObject q (startReference this) (controlReference this) (reference value)
  end.

(** The setter made by [Segment.addInvalidatingGetterSetter]:
    [if ( this[ internalName ] !== value )], a comparison of the
    reference held with the reference passed, then the assignment and
    [this.invalidate()]. *)
Definition setProperty (name : PropertyName) (value : Vector2Object)
    (this : QuadraticObject) : QuadraticObject :=
  if negb (Pos.eqb (heldReference name this) (reference value))
  then
    let assigned := assignObject name value this in
    mkQuadraticObject (invalidate (segment assigned))
                      (startReference assigned) (controlReference assigned)
                      (endReference assigned)
  else this.

(** *** Further methods *)

(** derivative: 2(1-t)( control - start ) + 2t( end - control ) *)
Definition tangentAt (q : Quadratic) (t : Q) : Vector2 :=
  Vector2.plus
    (Vector2.times (Vector2.minus (_control q) (_start q)) (2 * (1 - t)))
    (Vector2.times (Vector2.minus (_end q) (_control q)) (2 * t)).

Definition reversed (q : Quadratic) : Quadratic :=
  new (_end q) (_control q) (_start q).

(** elevation of this quadratic Bezier curve to a cubic Bezier curve *)
Definition degreeElevated (q : Quadratic) : Cubic :=
  mkCubic
    (_start q)
    (Vector2.dividedScalar
       (Vector2.plus (_start q) (Vector2.timesScalar (_control q) 2)) 3)
    (Vector2.dividedScalar
       (Vector2.plus (_end q) (Vector2.timesScalar (_control q) 2)) 3)
    (_end q).

Definition transformed (q : Quadratic) (matrix : Matrix3) : Quadratic :=
  new (Matrix3.timesVector2 matrix (_start q))
      (Matrix3.timesVector2 matrix (_control q))
      (Matrix3.timesVector2 matrix (_end q)).

(** given the current curve parameterized by t, will return a curve
    parameterized by x where t = a * x + b *)
Definition reparameterized (q : Quadratic) (a b : Q) : Quadratic :=
  let p := Vector2.plus (_start q)
             (Vector2.plus (_end q) (Vector2.timesScalar (_control q) (-2))) in
  let q' := Vector2.timesScalar (Vector2.minus (_control q) (_start q)) 2 in
  let r := _start q in
  let alpha := Vector2.timesScalar p (a * a) in
  let beta := Vector2.plus (Vector2.timesScalar (Vector2.timesScalar p (a * b)) 2)
                           (Vector2.timesScalar q' a) in
  let gamma := Vector2.plus (Vector2.plus (Vector2.timesScalar p (b * b))
                                          (Vector2.timesScalar q' b)) r in
  new gamma
      (Vector2.plus (Vector2.timesScalar beta (1 # 2)) gamma)
      (Vector2.plus (Vector2.plus alpha beta) gamma).

(** The tolerance written [0.0000000001] in [getInteriorExtremaTs]. *)
Definition extremaEpsilon : Q := 1 # 10000000000.

(** [!isNaN( t ) && t > epsilon && t < 1 - epsilon] *)
Definition wellInside (t : number) : bool :=
  match t with
  | Fin t => Num.ltb extremaEpsilon t && Num.ltb t (1 - extremaEpsilon)
  | _ => false
  end.

(** The critical parameters away from both ends.  [sort] is the
    [sort()] of JavaScript arrays called without a comparison. *)
Definition getInteriorExtremaTs (sort : list number -> list number) (q : Quadratic)
  : list number * Quadratic :=
  let '(criticalX, q1) := getTCriticalX q in
  let '(criticalY, q2) := getTCriticalY q1 in
  let '(result, q3) :=
    if wellInside criticalX
    then let '(tx, q3) := getTCriticalX q2 in ([ tx ], q3)
    else ([], q2) in
  let '(result, q4) :=
    if wellInside criticalY
    then let '(ty, q4) := getTCriticalY q3 in (result ++ [ ty ], q4)
    else (result, q3) in
  (sort result, q4).

Section Offset.
Context `{MathLib}.

(** One offset control point: [p] moved by [r] along the unit
    perpendicular of [direction]. *)
Definition offsetAlong (p direction : Vector2) (r : Q) : option Vector2 :=
  match Vector2.normalized (Vector2.perpendicular direction) with
  | Some n => Some (Vector2.plus p (Vector2.times n r))
  | None => None
  end.

(** [None] where [normalized] throws. *)
Definition approximateOffset (q : Quadratic) (r : Q) : option Quadratic :=
  match offsetAlong (_start q)
          (if Vector2.equals (_start q) (_control q)
           then Vector2.minus (_end q) (_start q)
           else Vector2.minus (_control q) (_start q)) r with
  | Some s =>
      match offsetAlong (_control q) (Vector2.minus (_end q) (_start q)) r with
      | Some c =>
          match offsetAlong (_end q)
                  (if Vector2.equals (_end q) (_control q)
                   then Vector2.minus (_end q) (_start q)
                   else Vector2.minus (_end q) (_control q)) r with
          | Some e => Some (new s c e)
          | None => None
          end
      | None => None
      end
  | None => None
  end.

(** One turn of the subdividing loop: every curve is replaced by its
    two halves. *)
Definition halveAll (curves : list Quadratic) : list Quadratic :=
  flat_map (fun curve => [ fst (subdivided curve (1 # 2));
                           snd (subdivided curve (1 # 2)) ]) curves.

(** [_.map] with a function that may throw. *)
Fixpoint mapThrowing {A B : Type} (f : A -> option B) (l : list A) : option (list B) :=
  match l with
  | [] => Some []
  | a :: rest =>
      match f a with
      | Some b =>
          match mapThrowing f rest with
          | Some bs => Some (b :: bs)
          | None => None
          end
      | None => None
      end
  end.

(** generates 2^depth curves *)
Definition offsetDepth : nat := 5.

Definition offsetTo (q : Quadratic) (r : Q) (reverse : bool) : option (list Quadratic) :=
  let curves := Nat.iter offsetDepth halveAll [ q ] in
  match mapThrowing (fun curve => approximateOffset curve r) curves with
  | Some offsetCurves =>
      if reverse
      then Some (map reversed (rev offsetCurves))
      else Some offsetCurves
  | None => None
  end.

Definition strokeLeft (q : Quadratic) (lineWidth : Q) : option (list Quadratic) :=
  offsetTo q (- lineWidth / 2) false.

Definition strokeRight (q : Quadratic) (lineWidth : Q) : option (list Quadratic) :=
  offsetTo q (lineWidth / 2) true.

End Offset.

(** *** Degenerate cases

    [Util.arePointsCollinear] belongs to the DOT library and
    [getNondegenerateSegments] of Line to a Line class that the sources
    at hand do not include: both are parameters. *)

Section Nondegenerate.
Variable arePointsCollinear : Vector2 -> Vector2 -> Vector2 -> bool.
Variable Line_getNondegenerateSegments : Line -> list Segment.

(** [extremaT] on operands that may be NaN: arithmetic on NaN gives NaN,
    and [NaN !== 0] holds, so the quotient, NaN again, is returned. *)
Definition extremaT_number (start control end_ : number) : number :=
  match start, control, end_ with
  | Fin s, Fin c, Fin e => extremaT s c e
  | _, _, _ => NaN
  end.

Definition getNondegenerateSegments (q : Quadratic) : list Segment :=
  let start := _start q in
  let control := _control q in
  let end_ := _end q in
  let startIsEnd := Vector2.equals start end_ in
  let startIsControl := Vector2.equals start control in
  let endIsControl := Vector2.equals start control in
  if startIsEnd && startIsControl then
    (* all same points *)
    []
  else if startIsEnd then
    let halfPoint := positionAt q (1 # 2) in
    [ SegLine (Line.new start halfPoint); SegLine (Line.new halfPoint end_) ]
  else if arePointsCollinear start control end_ then
    if startIsControl || endIsControl then
      [ SegLine (Line.new start end_) ]
    else
      (* [delta.normalized] is read without being called: the dot product
         with the function object multiplies by undefined coordinates *)
      let p1d : number := NaN in
      let t := extremaT_number (Fin 0) p1d (Fin 1) in
      match interior t with
      | Some t =>
          let pt := positionAt q t in
          Line_getNondegenerateSegments (Line.new start pt)
            ++ Line_getNondegenerateSegments (Line.new pt end_)
      | None => [ SegLine (Line.new start end_) ]
      end
  else
    [ SegQuadratic q ].

End Nondegenerate.

End Quadratic.

(** ** KITE/segments/Segment

    The methods of the Segment prototype call [start], [end],
    [positionAt] and [subdivided] of whatever segment they run on. *)

Class SegmentLike (S : Type) : Type := {
  seg_start : S -> Vector2;
  seg_end : S -> Vector2;
  seg_positionAt : S -> Q -> Vector2;
  seg_subdivided : S -> Q -> S * S
}.

#[export] Instance Quadratic_SegmentLike : SegmentLike Quadratic := {
  seg_start := Quadratic.getProperty start_name;
  seg_end := Quadratic.getProperty end_name;
  seg_positionAt := Quadratic.positionAt;
  seg_subdivided := Quadratic.subdivided
}.

Record Options : Type := mkOptions {
  minLevels : Z;
  maxLevels : Z;
  distanceEpsilon : option Q;
  curveEpsilon : option Q;
  pointMap : option (Vector2 -> Vector2)
}.

Module Segment.

Section PiecewiseLinear.
(** [Util.distToSegmentSquared] of the DOT library. *)
Variable distToSegmentSquared : Vector2 -> Vector2 -> Vector2 -> Q.
Context {S : Type} `{SegmentLike S}.

Definition identityFunction (v : Vector2) : Vector2 := v.

Definition pointMapOf (options : Options) : Vector2 -> Vector2 :=
  match pointMap options with
  | Some f => f
  | None => identityFunction
  end.

(** The value of [finished] once both assignments have run. *)
Definition finished (options : Options) (minLevels maxLevels : Z)
    (start middle end_ : Vector2) : bool :=
  let finished := (maxLevels =? 0)%Z in
  if negb finished && (minLevels <=? 0)%Z then
    (match curveEpsilon options with
     | None => true
     | Some epsilon =>
         Num.lt (Num.div (distToSegmentSquared middle start end_)
                         (Vector2.distanceSquared start end_)) epsilon
     end)
    &&
    (match distanceEpsilon options with
     | None => true
     | Some epsilon => Num.ltb (distToSegmentSquared middle start end_) epsilon
     end)
  else finished.

(** The recursive calls, with the accumulator [segments] threaded
    through them.  [fuel] bounds the depth of the recursion; running
    out of it is [None]. *)
Fixpoint toPiecewiseLinearSegments_rec (fuel : nat) (options : Options)
    (minLevels maxLevels : Z) (segments : list Line)
    (start end_ : Vector2) (this : S) : option (list Line) :=
  match fuel with
  | O => None
  | Datatypes.S fuel' =>
      let middle := pointMapOf options (seg_positionAt this (1 # 2)) in
      if finished options minLevels maxLevels start middle end_ then
        Some (segments ++ [ Line.new start end_ ])
      else
        let subdividedSegments := seg_subdivided this (1 # 2) in
        match toPiecewiseLinearSegments_rec fuel' options
                (minLevels - 1) (maxLevels - 1) segments start middle
                (fst subdividedSegments) with
        | Some segments' =>
            toPiecewiseLinearSegments_rec fuel' options
              (minLevels - 1) (maxLevels - 1) segments' middle end_
              (snd subdividedSegments)
        | None => None
        end
  end.

(** The first call: levels from the options, an empty accumulator, the
    mapped end points of the segment. *)
Definition toPiecewiseLinearSegments (fuel : nat) (options : Options) (this : S)
  : option (list Line) :=
  toPiecewiseLinearSegments_rec fuel options (minLevels options) (maxLevels options) []
    (pointMapOf options (seg_start this)) (pointMapOf options (seg_end this)) this.

(** The stopping rule in the words of the specification. *)
Definition curveCriterion (options : Options) (start middle end_ : Vector2) : bool :=
  match curveEpsilon options with
  | None => true
  | Some epsilon =>
      Num.lt (Num.div (distToSegmentSquared middle start end_)
                      (Vector2.distanceSquared start end_)) epsilon
  end.

Definition distanceCriterion (options : Options) (start middle end_ : Vector2) : bool :=
  match distanceEpsilon options with
  | None => true
  | Some epsilon => Num.ltb (distToSegmentSquared middle start end_) epsilon
  end.

Definition stops (options : Options) (minLevels maxLevels : Z)
    (start middle end_ : Vector2) : Prop :=
  maxLevels = 0%Z \/
  ((minLevels <= 0)%Z /\
   curveCriterion options start middle end_ = true /\
   distanceCriterion options start middle end_ = true).

End PiecewiseLinear.

Section Subdivisions.
(** [Util.linear] as this file calls it, [linear( a1, a2, b1, b2, a3 )]:
    the DOT library it is loaded from is not among the sources. *)
Variable linear : Q -> Q -> Q -> Q -> Q -> number.
Context {S : Type} `{SegmentLike S}.

(** The inner loop, which scales up the remaining t values; [None]
    when one of them is no longer finite. *)
Fixpoint scaleRemaining (t : Q) (rest : list Q) : option (list Q) :=
  match rest with
  | [] => Some []
  | tj :: rest' =>
      match linear t 1 0 1 tj, scaleRemaining t rest' with
      | Fin tj', Some rest'' => Some (tj' :: rest'')
      | _, _ => None
      end
  end.

(** The outer loop from index [i] on, with [n] the number of entries
    of [tList] still to visit. *)
Fixpoint subdivisions_loop (n : nat) (right : S) (tList : list Q) : option (list S) :=
  match tList with
  | [] => Some [ right ]
  | t :: rest =>
      match n with
      | O => None
      | Datatypes.S n' =>
          let arr := seg_subdivided right t in
          match scaleRemaining t rest with
          | Some rest' =>
              match subdivisions_loop n' (snd arr) rest' with
              | Some result => Some (fst arr :: result)
              | None => None
              end
          | None => None
          end
      end
  end.

(** tList should be a list of sorted t values from 0 <= t <= 1 *)
Definition subdivisions (this : S) (tList : list Q) : option (list S) :=
  subdivisions_loop (length tList) this tList.

End Subdivisions.

End Segment.

(** ** KITE/pieces *)

Inductive Piece : Type :=
| MoveTo (point : Vector2)
| LineTo (point : Vector2)
| ArcPiece (center : Vector2) (radius startAngle endAngle : Q) (anticlockwise : bool)
| Close.

(** ** KITE/segments/EllipticalArc

    [Transform3] is the DOT transform of the unit circle onto the
    ellipse; the arc uses its action on positions and on normals. *)

Record Transform3 : Type := mkTransform3 {
  transformPosition2 : Vector2 -> Vector2;
  transformNormal2 : Vector2 -> Vector2
}.

Record EllipticalArc : Type := mkEllipticalArc {
  center : Vector2;
  radiusX : Q;
  radiusY : Q;
  rotation : Q;
  startAngle : Q;
  endAngle : Q;
  anticlockwise : bool;
  unitTransform : Transform3
}.

Module EllipticalArc.

Section WithMath.
Context `{MathLib}.

Definition angleAt (a : EllipticalArc) (t : Q) : Q :=
  if anticlockwise a then
    if Num.ltb (endAngle a) (startAngle a) then
      startAngle a + (endAngle a - startAngle a) * t
    else if Num.ltb (startAngle a) (endAngle a) then
      startAngle a + (- Math_PI * 2 + endAngle a - startAngle a) * t
    else startAngle a
  else
    if Num.ltb (startAngle a) (endAngle a) then
      startAngle a + (endAngle a - startAngle a) * t
    else if Num.ltb (endAngle a) (startAngle a) then
      startAngle a + (Math_PI * 2 + endAngle a - startAngle a) * t
    else startAngle a.

Definition positionAtAngle (a : EllipticalArc) (angle : Q) : Vector2 :=
  transformPosition2 (unitTransform a) (Vector2.createPolar 1 angle).

Definition tangentAtAngle (a : EllipticalArc) (angle : Q) : Vector2 :=
  let normal := transformNormal2 (unitTransform a) (Vector2.createPolar 1 angle) in
  if anticlockwise a
  then Vector2.perpendicular normal
  else Vector2.negated (Vector2.perpendicular normal).

(** how many segments to create, as the source names it *)
Definition quantity : nat := 32.

(** The parameter of the sample of index [i]. *)
Definition ratioAt (reverse : bool) (i : nat) : Q :=
  let ratio := inject_Z (Z.of_nat i) / inject_Z (Z.of_nat (quantity - 1)) in
  if reverse then 1 - ratio else ratio.

(** The point computed in one turn of the loop; [None] where
    [normalized] throws. *)
Definition offsetPoint (a : EllipticalArc) (r : Q) (reverse : bool) (i : nat)
  : option Vector2 :=
  let angle := angleAt a (ratioAt reverse i) in
  match Vector2.normalized (Vector2.perpendicular (tangentAtAngle a angle)) with
  | Some n => Some (Vector2.plus (positionAtAngle a angle) (Vector2.times n r))
  | None => None
  end.

(** The loop [for ( i = 1; i < quantity; i++ )] over the indices still
    to visit. *)
Fixpoint offsetLoop (a : EllipticalArc) (r : Q) (reverse : bool)
    (indices : list nat) (result : list Piece) : option (list Piece) :=
  match indices with
  | [] => Some result
  | i :: rest =>
      match offsetPoint a r reverse i with
      | Some point => offsetLoop a r reverse rest (result ++ [ LineTo point ])
      | None => None
      end
  end.

(** discretizes the elliptical arc and returns an offset curve as a list
    of lineTos *)
Definition offsetTo (a : EllipticalArc) (r : Q) (reverse : bool) : option (list Piece) :=
  offsetLoop a r reverse (seq 1 (quantity - 1)) [].

Definition strokeLeft (a : EllipticalArc) (lineWidth : Q) : option (list Piece) :=
  offsetTo a (- lineWidth / 2) false.

Definition strokeRight (a : EllipticalArc) (lineWidth : Q) : option (list Piece) :=
  offsetTo a (lineWidth / 2) true.

End WithMath.

End EllipticalArc.

(** ** KITE/util/LineStyles and the stroke joins of Shape.getStrokedShape *)

Inductive LineJoin : Type :=
| miter
| round
| bevel
| otherJoin.    (* any other value: no case of the switch applies *)

Record LineStyles : Type := mkLineStyles {
  lineWidth : Q;
  lineJoin : LineJoin;
  miterLimit : Q
}.

Module Stroke.

Section WithMath.
Context `{MathLib}.

(** The threshold written [0.00001] in the source. *)
Definition straightEpsilon : Q := 1 # 100000.

Definition fromPointOf (lineStyles : LineStyles) (center fromTangent : Vector2) : Vector2 :=
  Vector2.plus center
    (Vector2.times (Vector2.negated (Vector2.perpendicular fromTangent))
                   (lineWidth lineStyles / 2)).

Definition toPointOf (lineStyles : LineStyles) (center toTangent : Vector2) : Vector2 :=
  Vector2.plus center
    (Vector2.times (Vector2.negated (Vector2.perpendicular toTangent))
                   (lineWidth lineStyles / 2)).

(** The test guarding the miter. *)
Definition miterAllowed (lineStyles : LineStyles) (theta : Q) : bool :=
  Num.le (Num.div 1 (Math_sin (theta / 2))) (miterLimit lineStyles)
  && Num.ltb theta (Math_PI - straightEpsilon).

(** [join] returns the pieces it adds to the stroked shape, in order.
    [None]: the call throws ([normalized] on a zero vector), or the
    miter tip has a coordinate that is not finite. *)
Definition join (lineStyles : LineStyles) (center fromTangent toTangent : Vector2)
  : option (list Piece) :=
  let fromPoint := fromPointOf lineStyles center fromTangent in
  let toPoint := toPointOf lineStyles center toTangent in
  (* only insert a join on the non-acute-angle side *)
  if Num.ltb 0 (Vector2.dot (Vector2.perpendicular fromTangent) toTangent) then
    match lineJoin lineStyles with
    | round =>
        let fromAngle := Vector2.angle fromTangent + Math_PI / 2 in
        let toAngle := Vector2.angle toTangent + Math_PI / 2 in
        Some [ ArcPiece center (lineWidth lineStyles / 2) fromAngle toAngle true ]
    | miter =>
        match Vector2.angleBetween fromTangent (Vector2.negated toTangent) with
        | Some theta =>
            if miterAllowed lineStyles theta then
              match Util.lineLineIntersection
                      fromPoint (Vector2.plus fromPoint fromTangent)
                      toPoint (Vector2.plus toPoint toTangent) with
              | (Fin mx, Fin my) => Some [ LineTo (v2 mx my); LineTo toPoint ]
              | _ => None
              end
            else
              (* angle too steep, use bevel instead *)
              Some [ LineTo toPoint ]
        | None => None
        end
    | bevel => Some [ LineTo toPoint ]
    | otherJoin => Some []
    end
  else
    if negb (Vector2.equals fromPoint toPoint)
    then Some [ LineTo toPoint ]
    else Some [].

End WithMath.

End Stroke.

(** ** KITE/Shape

    The construction calls modelled here add Line segments only, so the
    subpaths of a shape hold lines.  A subpath object is shared between
    the list of the shape and the local variable that names it; every
    write goes to the subpath that is last in the list at that time,
    which is how the writes are modelled.  A call that fails on
    [undefined] returns [None]. *)

Module Shape.

Record Shape : Type := mkShape {
  subpaths : list (Subpath Line);
  _bounds : option Bounds2;
  lastQuadraticControlPoint : option Vector2;
  lastCubicControlPoint : option Vector2;
  _invalidatingPoints : bool
}.

Definition invalidate (s : Shape) : Shape :=
  if negb (_invalidatingPoints s)
  then mkShape (subpaths s) None (lastQuadraticControlPoint s)
               (lastCubicControlPoint s) (_invalidatingPoints s)
  else s.

Definition resetControlPoints (s : Shape) : Shape :=
  mkShape (subpaths s) (_bounds s) None None (_invalidatingPoints s).

(** [new Shape()] *)
Definition new : Shape :=
  invalidate (resetControlPoints (mkShape [] None None None false)).

Definition addSubpath (subpath : Subpath Line) (s : Shape) : Shape :=
  invalidate (mkShape (subpaths s ++ [ subpath ]) (_bounds s)
                      (lastQuadraticControlPoint s) (lastCubicControlPoint s)
                      (_invalidatingPoints s)).

Definition hasSubpaths (s : Shape) : bool :=
  match subpaths s with [] => false | _ :: _ => true end.

Definition getLastSubpath (s : Shape) : option (Subpath Line) :=
  match subpaths s with
  | [] => None
  | sp :: sps => Some (last sps sp)
  end.

(** A write to the object that [getLastSubpath()] returns. *)
Fixpoint modifyLast (f : Subpath Line -> Subpath Line) (l : list (Subpath Line))
  : list (Subpath Line) :=
  match l with
  | [] => []
  | [ sp ] => [ f sp ]
  | sp :: rest => sp :: modifyLast f rest
  end.

Definition onLastSubpath (f : Subpath Line -> Subpath Line) (s : Shape) : Shape :=
  mkShape (modifyLast f (subpaths s)) (_bounds s)
          (lastQuadraticControlPoint s) (lastCubicControlPoint s)
          (_invalidatingPoints s).

Definition getLastPoint (s : Shape) : option Vector2 :=
  match getLastSubpath s with
  | Some sp => Subpath.getLastPoint sp
  | None => None
  end.

Definition getRelativePoint (s : Shape) : Vector2 :=
  match getLastPoint s with
  | Some p => p
  | None => Vector2.ZERO
  end.

Definition addSegmentAndBounds (segment : Line) (s : Shape) : Shape :=
  invalidate (onLastSubpath (Subpath.addSegment invalid segment) s).

Definition ensure (point : Vector2) (s : Shape) : Shape :=
  if negb (hasSubpaths s)
  then onLastSubpath (Subpath.addPoint point) (addSubpath Subpath.new s)
  else s.

Definition moveToPoint (point : Vector2) (s : Shape) : Shape :=
  resetControlPoints (addSubpath (Subpath.addPoint point Subpath.new) s).

Definition moveTo (px py : Q) (s : Shape) : Shape := moveToPoint (v2 px py) s.

Definition lineToPoint (point : Vector2) (s : Shape) : option Shape :=
  if hasSubpaths s then
    match getLastPoint s with
    | Some start =>
        let end_ := point in
        let line := Line.new start end_ in
        Some (resetControlPoints
                (addSegmentAndBounds line
                   (onLastSubpath (Subpath.addPoint end_) s)))
    | None => None
    end
  else
    Some (resetControlPoints (ensure point s)).

Definition lineTo (px py : Q) (s : Shape) : option Shape := lineToPoint (v2 px py) s.

Definition rect (px py width height : Q) (s : Shape) : Shape :=
  let p0 := v2 px py in
  let p1 := v2 (px + width) py in
  let p2 := v2 (px + width) (py + height) in
  let p3 := v2 px (py + height) in
  let s := addSubpath Subpath.new s in
  let s := onLastSubpath (Subpath.addPoint p0) s in
  let s := onLastSubpath (Subpath.addPoint p1) s in
  let s := onLastSubpath (Subpath.addPoint p2) s in
  let s := onLastSubpath (Subpath.addPoint p3) s in
  let s := addSegmentAndBounds (Line.new p0 p1) s in
  let s := addSegmentAndBounds (Line.new p1 p2) s in
  let s := addSegmentAndBounds (Line.new p2 p3) s in
  let s := onLastSubpath Subpath.close s in
  let s := addSubpath Subpath.new s in
  let s := onLastSubpath (Subpath.addPoint (v2 px py)) s in
  resetControlPoints s.

(** The contribution of one subpath to the winding number. *)
Definition subpathWinding (ray : Ray2) (subpath : Subpath Line) : option Z :=
  if Subpath.isDrawable subpath then
    let wind := fold_left (fun w seg => (w + Line.windingIntersection seg ray)%Z)
                          (segments subpath) 0%Z in
    (* handle the implicit closing line segment *)
    match Subpath.hasClosingSegment subpath with
    | Some true =>
        match Subpath.getClosingSegment subpath with
        | Some closing => Some (wind + Line.windingIntersection closing ray)%Z
        | None => None
        end
    | Some false => Some wind
    | None => None
    end
  else Some 0%Z.

Fixpoint windingLoop (ray : Ray2) (l : list (Subpath Line)) (wind : Z) : option Z :=
  match l with
  | [] => Some wind
  | subpath :: rest =>
      match subpathWinding ray subpath with
      | Some w => windingLoop ray rest (wind + w)%Z
      | None => None
      end
  end.

Definition windingIntersection (ray : Ray2) (s : Shape) : option Z :=
  windingLoop ray (subpaths s) 0%Z.

Definition containsPoint (point : Vector2) (s : Shape) : option bool :=
  let ray := ray2 point Vector2.X_UNIT in
  match windingIntersection ray s with
  | Some wind => Some (negb (wind =? 0)%Z)
  | None => None
  end.

(** *** Further construction calls *)

Definition subpath (s : Shape) : Shape :=
  if hasSubpaths s then addSubpath Subpath.new s else s.

Definition moveToPointRelative (point : Vector2) (s : Shape) : Shape :=
  moveToPoint (Vector2.plus (getRelativePoint s) point) s.

Definition moveToRelative (px py : Q) (s : Shape) : Shape :=
  moveToPointRelative (v2 px py) s.

Definition lineToPointRelative (point : Vector2) (s : Shape) : option Shape :=
  lineToPoint (Vector2.plus (getRelativePoint s) point) s.

Definition lineToRelative (px py : Q) (s : Shape) : option Shape :=
  lineToPointRelative (v2 px py) s.

Definition horizontalLineTo (px : Q) (s : Shape) : option Shape :=
  lineTo px (y (getRelativePoint s)) s.

Definition horizontalLineToRelative (px : Q) (s : Shape) : option Shape :=
  lineToRelative px 0 s.

Definition verticalLineTo (py : Q) (s : Shape) : option Shape :=
  lineTo (x (getRelativePoint s)) py s.

Definition verticalLineToRelative (py : Q) (s : Shape) : option Shape :=
  lineToRelative 0 py s.

(** [close]: the last subpath is marked closed and a new one starts at
    its first point.  [None]: the last subpath has no point, and the
    new subpath would hold [undefined]. *)
Definition close (s : Shape) : option Shape :=
  if hasSubpaths s then
    match getLastSubpath s with
    | Some previousPath =>
        match Subpath.getFirstPoint previousPath with
        | Some first =>
            Some (resetControlPoints
                    (onLastSubpath (Subpath.addPoint first)
                       (addSubpath Subpath.new
                          (onLastSubpath Subpath.close s))))
        | None => None
        end
    | None => None
    end
  else Some (resetControlPoints s).

(** The loop of [polygon] over the vertices after the first. *)
Fixpoint lineToPoints (vertices : list Vector2) (s : Shape) : option Shape :=
  match vertices with
  | [] => Some s
  | v :: rest =>
      match lineToPoint v s with
      | Some s' => lineToPoints rest s'
      | None => None
      end
  end.

Definition polygon (vertices : list Vector2) (s : Shape) : option Shape :=
  match vertices with
  | [] => close s
  | v0 :: rest =>
      match lineToPoints rest (moveToPoint v0 s) with
      | Some s' => close s'
      | None => None
      end
  end.

(** [Shape.lineSegment( a, b, c, d )] *)
Definition lineSegment (a b c d : Q) : option Shape :=
  lineTo c d (moveTo a b new).

End Shape.

(** ** The bounds of a Quadratic in double arithmetic

    Whether a box contains a point depends on how each operation
    rounds.  The code that computes a position on a Quadratic and its
    bounds is embedded here a second time, over the binary64 numbers of
    IEEE 754, which are the Numbers of JavaScript.  The caches are left
    out: the values are the ones the getters compute on a segment whose
    caches are empty. *)

Module Double.

Local Open Scope float_scope.

(** [a || 0]: NaN and both zeros are falsy. *)
Definition orZero (a : float) : float :=
  if is_nan a || (a =? 0) then 0 else a.

(** [Math.min] and [Math.max] of two numbers: NaN if either is NaN,
    and -0 counts as smaller than +0. *)
Definition Math_min (a b : float) : float :=
  if is_nan a || is_nan b then nan
  else if a <? b then a
  else if b <? a then b
  else if get_sign a then a else b.

Definition Math_max (a b : float) : float :=
  if is_nan a || is_nan b then nan
  else if b <? a then a
  else if a <? b then b
  else if get_sign a then b else a.

Record Vector2 : Type := v2 { x : float; y : float }.

Module Vector2.

(** [new Vector2( x, y )] stores [x || 0] and [y || 0]. *)
Definition new (px py : float) : Vector2 := v2 (orZero px) (orZero py).

Definition plus (a b : Vector2) : Vector2 := new (x a + x b) (y a + y b).
Definition timesScalar (a : Vector2) (s : float) : Vector2 := new (x a * s) (y a * s).
Definition times (a : Vector2) (s : float) : Vector2 := timesScalar a s.

End Vector2.

Record Bounds2 : Type :=
  bounds2 { minX : float; minY : float; maxX : float; maxY : float }.

Module Bounds2.

Definition containsCoordinates (b : Bounds2) (px py : float) : bool :=
  (minX b <=? px) && (px <=? maxX b) && (minY b <=? py) && (py <=? maxY b).

Definition containsPoint (b : Bounds2) (p : Vector2) : bool :=
  containsCoordinates b (x p) (y p).

Definition withCoordinates (b : Bounds2) (px py : float) : Bounds2 :=
  bounds2 (Math_min (minX b) px) (Math_min (minY b) py)
          (Math_max (maxX b) px) (Math_max (maxY b) py).

Definition withPoint (b : Bounds2) (p : Vector2) : Bounds2 :=
  withCoordinates b (x p) (y p).

End Bounds2.

Record Quadratic : Type :=
  mkQuadratic { _start : Vector2; _control : Vector2; _end : Vector2 }.

Module Quadratic.

(** one-dimensional solution to extrema *)
Definition extremaT (start control end_ : float) : float :=
  let divisorX := 2 * (end_ - 2 * control + start) in
  if negb (divisorX =? 0)
  then -2 * (control - start) / divisorX
  else nan.

Definition positionAt (q : Quadratic) (t : float) : Vector2 :=
  let mt := 1 - t in
  Vector2.plus
    (Vector2.plus (Vector2.times (_start q) (mt * mt))
                  (Vector2.times (_control q) (2 * mt * t)))
    (Vector2.times (_end q) (t * t)).

Definition getTCriticalX (q : Quadratic) : float :=
  extremaT (x (_start q)) (x (_control q)) (x (_end q)).

Definition getTCriticalY (q : Quadratic) : float :=
  extremaT (y (_start q)) (y (_control q)) (y (_end q)).

(** [!isNaN( t ) && t > 0 && t < 1] *)
Definition interior (t : float) : bool :=
  negb (is_nan t) && (0 <? t) && (t <? 1).

Definition getBounds (q : Quadratic) : Bounds2 :=
  let b0 := bounds2 (Math_min (x (_start q)) (x (_end q)))
                    (Math_min (y (_start q)) (y (_end q)))
                    (Math_max (x (_start q)) (x (_end q)))
                    (Math_max (y (_start q)) (y (_end q))) in
  let tCriticalX := getTCriticalX q in
  let tCriticalY := getTCriticalY q in
  let b1 := if interior tCriticalX
            then Bounds2.withPoint b0 (positionAt q tCriticalX)
            else b0 in
  let b2 := if interior tCriticalY
            then Bounds2.withPoint b1 (positionAt q tCriticalY)
            else b1 in
  b2.

End Quadratic.



(** The segment of three points on the vertical line [x = 0.3], with
    0.3 the binary64 number nearest to three tenths. *)
Definition verticalExample : Quadratic :=
  mkQuadratic (v2 0x1.3333333333333p-2 0)
              (v2 0x1.3333333333333p-2 1)
              (v2 0x1.3333333333333p-2 2).

(** The segment from (1.2, 0.2) over the control point (0.8, 1.7) to
    (2.7, 0.2), each coordinate the binary64 number nearest to the
    decimal. *)
Definition archExample : Quadratic :=
  mkQuadratic (v2 0x1.3333333333333p+0 0x1.999999999999ap-3)
              (v2 0x1.999999999999ap-1 0x1.b333333333333p+0)
              (v2 0x1.599999999999ap+1 0x1.999999999999ap-3).

End Double.

(** The unit square, [new Shape().rect( 0, 0, 1, 1 )]. *)
Definition unitSquare : Shape.Shape := Shape.rect 0 0 1 1 Shape.new.

(** ** Notions used in the statements *)

(** One coordinate of a quadratic Bezier curve, as [positionAt]
    computes it. *)
Definition bezier (a b c u : Q) : Q :=
  a * ((1 - u) * (1 - u)) + b * (2 * (1 - u) * u) + c * (u * u).

(** A cache of a Quadratic is valid when the value it holds is the one
    the getter computes once the caches are cleared.  The constructor
    and the generated setters leave every cache empty, and the getters
    fill a cache with the computed value, so every segment the code
    builds has valid caches. *)
Definition cachesValid (q : Quadratic) : Prop :=
  (forall t, _tCriticalX q = Some t ->
             t = fst (Quadratic.getTCriticalX (Quadratic.invalidate q))) /\
  (forall t, _tCriticalY q = Some t ->
             t = fst (Quadratic.getTCriticalY (Quadratic.invalidate q))) /\
  (forall b, _bounds q = Some b ->
             b = fst (Quadratic.getBounds (Quadratic.invalidate q))).

(** The states of a Quadratic that the code reaches: the constructor
    builds one, and [invalidate], a generated setter that assigns, and
    the five caching getters lead from one to the next.  A tangent
    getter that throws leaves the segment as it was. *)
Inductive reachable `{MathLib} : Quadratic -> Prop :=
| reachable_new (start control end_ : Vector2) :
    reachable (Quadratic.new start control end_)
| reachable_invalidate (q : Quadratic) :
    reachable q -> reachable (Quadratic.invalidate q)
| reachable_set (name : PropertyName) (value : Vector2) (q : Quadratic) :
    reachable q ->
    reachable (Quadratic.invalidate (Quadratic.assignProperty name value q))
| reachable_getStartTangent (q q' : Quadratic) (v : Vector2) :
    reachable q -> Quadratic.getStartTangent q = Some (v, q') -> reachable q'
| reachable_getEndTangent (q q' : Quadratic) (v : Vector2) :
    reachable q -> Quadratic.getEndTangent q = Some (v, q') -> reachable q'
| reachable_getTCriticalX (q : Quadratic) :
    reachable q -> reachable (snd (Quadratic.getTCriticalX q))
| reachable_getTCriticalY (q : Quadratic) :
    reachable q -> reachable (snd (Quadratic.getTCriticalY q))
| reachable_getBounds (q : Quadratic) :
    reachable q -> reachable (snd (Quadratic.getBounds q)).

(** A coordinate that is an integer of magnitude at most [bound], and
    a point with two such coordinates.  Double arithmetic adds,
    subtracts and multiplies integers without rounding as long as the
    results stay below 2 ^ 53, and divides them without rounding when
    the quotient is an integer; with a zero divisor it gives an infinity,
    or NaN for 0 / 0, as the exact model does.  On integer coordinates
    within the bounds the statements below give, the code is therefore
    computed without rounding. *)
Definition integral (bound : Z) (a : Q) : Prop :=
  exists n : Z, (Z.abs n <= bound)%Z /\ a == inject_Z n.

Definition integralPoint (bound : Z) (p : Vector2) : Prop :=
  integral bound (x p) /\ integral bound (y p).

Definition inX (b : Bounds2) (v : Q) : Prop := minX b <= v /\ v <= maxX b.
Definition inY (b : Bounds2) (v : Q) : Prop := minY b <= v /\ v <= maxY b.

(** One of the two conditional extensions of [Quadratic.getBounds]. *)
Definition extend (b : Bounds2) (tc : number) (pos : Q -> Vector2) : Bounds2 :=
  match Quadratic.interior tc with
  | Some t => Bounds2.withPoint b (pos t)
  | None => b
  end.

(** Three points on one line: the parallelogram they span has no area. *)
Definition collinear (a b c : Vector2) : Prop :=
  (x b - x a) * (y c - y a) - (y b - y a) * (x c - x a) == 0.

(** Implementations of the two parameters of
    [Quadratic.getNondegenerateSegments], used to run it on examples:
    the collinearity test by the area, and a Line that stands for
    itself unless it is invalid. *)
Definition zeroAreaTest (a b c : Vector2) : bool :=
  Qeq_bool ((x b - x a) * (y c - y a) - (y b - y a) * (x c - x a)) 0.

Definition keepValidLine (l : Line) : list Segment :=
  if invalid l then [] else [ SegLine l ].

(** Two points farther apart than the tolerance of
    [Subpath.hasClosingSegment]: the sum of the absolute differences of
    their coordinates exceeds it. *)
Definition endsDiffer (first lst : Vector2) : Prop :=
  Subpath.closingEpsilon < Qabs (x first - x lst) + Qabs (y first - y lst).

(** [crossScalar] of Vector2: the z component of the cross product. *)
Definition crossScalar (a v : Vector2) : Q := x a * y v - y a * x v.

(** A point lies on the line through [p] with direction [d]. *)
Definition onLine (p d tip : Vector2) : Prop :=
  crossScalar (Vector2.minus tip p) d == 0.

(** A point lies on the segment from [a] to [b]: on the line through
    them, and within their range in each coordinate. *)
Definition onSegment (a b p : Vector2) : Prop :=
  collinear a b p /\
  Qmin (x a) (x b) <= x p <= Qmax (x a) (x b) /\
  Qmin (y a) (y b) <= y p <= Qmax (y a) (y b).

(** A coarse rational implementation of the [Math] interface, used to
    run the code on examples: short series for the sine and the cosine,
    one Newton step from 1 for the square root, and straight lines for
    the inverse functions. *)
#[export] Instance exampleMath : MathLib := {
  Math_PI := 355 # 113;
  Math_sqrt := fun q => (q + 1) / 2;
  Math_sin := fun u => u - u * u * u / 6;
  Math_cos := fun u => 1 - u * u / 2;
  Math_acos := fun c => (355 # 226) - c;
  Math_atan2 := fun b a => b / (Qabs a + Qabs b + 1)
}.

(** An implementation of [Util.distToSegmentSquared], used to run
    [toPiecewiseLinearSegments] on examples: the squared distance from
    [point] to the segment from [a] to [b]. *)
Definition exampleDistToSegmentSquared (point a b : Vector2) : Q :=
  let segmentLength := Vector2.distanceSquared a b in
  if Qeq_bool segmentLength 0 then Vector2.distanceSquared point a
  else
    let t := ((x point - x a) * (x b - x a) + (y point - y a) * (y b - y a))
             / segmentLength in
    if Num.ltb t 0 then Vector2.distanceSquared point a
    else if Num.ltb 1 t then Vector2.distanceSquared point b
    else Vector2.distanceSquared point
           (v2 (x a + t * (x b - x a)) (y a + t * (y b - y a))).

(** The unit transform of an ellipse with axes along the coordinate
    axes (rotation 0), used to run the arc code on examples: positions
    are scaled and moved to the centre, normals are scaled by the
    inverse radii. *)
Definition exampleUnitTransform (center : Vector2) (radiusX radiusY : Q) : Transform3 :=
  mkTransform3
    (fun v => v2 (x center + radiusX * x v) (y center + radiusY * y v))
    (fun v => v2 (x v / radiusX) (y v / radiusY)).

(** A quarter of the ellipse of radii 2 and 1 around the origin. *)
Definition exampleArc : EllipticalArc :=
  mkEllipticalArc (v2 0 0) 2 1 0 0 (355 # 226) false
                  (exampleUnitTransform (v2 0 0) 2 1).

(** An implementation of the interpolation that [Segment.subdivisions]
    calls as [linear( a1, a2, b1, b2, a3 )], used to run it on examples:
    the line through [(a1, b1)] and [(a2, b2)], evaluated at [a3]. *)
Definition exampleLinear (a1 a2 b1 b2 a3 : Q) : number :=
  Util.linear a1 b1 a2 b2 a3.

(** The curves of a list trace [q] over consecutive intervals of
    length [h] that start at [a]: the first over [[a, a + h]], the next
    over [[a + h, a + 2 h]], and so on. *)
Fixpoint tracesFrom (q : Quadratic) (a h : Q) (curves : list Quadratic) : Prop :=
  match curves with
  | [] => True
  | curve :: rest =>
      (forall u, Vector2.same (Quadratic.positionAt curve u)
                              (Quadratic.positionAt q (a + h * u))) /\
      tracesFrom q (a + h) h rest
  end.

(** The pieces of a list trace [q] between consecutive boundaries: the
    first from [a] to the first entry of [ts], each next one between two
    entries, the last from the last entry to 1. *)
Fixpoint tracesBetween (q : Quadratic) (a : Q) (ts : list Q) (pieces : list Quadratic)
  : Prop :=
  match ts, pieces with
  | [], [ piece ] =>
      forall u, Vector2.same (Quadratic.positionAt piece u)
                             (Quadratic.positionAt q (a + (1 - a) * u))
  | t :: ts', piece :: pieces' =>
      (forall u, Vector2.same (Quadratic.positionAt piece u)
                              (Quadratic.positionAt q (a + (t - a) * u))) /\
      tracesBetween q t ts' pieces'
  | _, _ => False
  end.

(** A polyline from [a] to [b]: every line starts where the one before
    it ends. *)
Fixpoint connects (a b : Vector2) (lines : list Line) : Prop :=
  match lines with
  | [] => a = b
  | l :: rest => start l = a /\ connects (end_ l) b rest
  end.

(** The entries of a matrix agree with its type tag: the identity, a
    translation and a scaling have nothing but the entries their
    constructors set, an affine matrix has the last row 0, 0, 1. *)
Definition wellTyped (m : Matrix3) : Prop :=
  match type m with
  | OTHER => True
  | IDENTITY =>
      m00 m == 1 /\ m01 m == 0 /\ m02 m == 0 /\
      m10 m == 0 /\ m11 m == 1 /\ m12 m == 0 /\
      m20 m == 0 /\ m21 m == 0 /\ m22 m == 1
  | TRANSLATION_2D =>
      m00 m == 1 /\ m01 m == 0 /\
      m10 m == 0 /\ m11 m == 1 /\
      m20 m == 0 /\ m21 m == 0 /\ m22 m == 1
  | SCALING =>
      m01 m == 0 /\ m02 m == 0 /\
      m10 m == 0 /\ m12 m == 0 /\
      m20 m == 0 /\ m21 m == 0 /\ m22 m == 1
  | AFFINE => m20 m == 0 /\ m21 m == 0 /\ m22 m == 1
  end.

(** The last row of a matrix is 0, 0, 1. *)
Definition affineRow (m : Matrix3) : Prop :=
  m20 m == 0 /\ m21 m == 0 /\ m22 m == 1.

(** * Properties *)

(** ** Arithmetic and the bounds of a quadratic *)

Lemma Num_ltb_lt (a b : Q) : Num.ltb a b = true <-> a < b.
Proof.
  unfold Num.ltb. rewrite negb_true_iff. split; intro H.
  - apply Qnot_le_lt. intro L. apply Qle_bool_iff in L. congruence.
  - destruct (Qle_bool b a) eqn:E; [|reflexivity].
    apply Qle_bool_iff in E. exfalso. apply (Qlt_not_le _ _ H E).
Qed.

Lemma Num_ltb_ge (a b : Q) : Num.ltb a b = false <-> b <= a.
Proof. unfold Num.ltb. rewrite negb_false_iff. apply Qle_bool_iff. Qed.

Lemma Qsq_nonneg (u : Q) : 0 <= u * u.
Proof. nra. Qed.


Lemma bezier_chord (a b c u : Q) :
  bezier a b c u == (1 - u) * a + u * c - u * (1 - u) * (c - 2 * b + a).
Proof. unfold bezier. ring. Qed.

Lemma chord_between (lo hi a c u : Q) :
  lo <= a -> lo <= c -> a <= hi -> c <= hi -> 0 <= u -> u <= 1 ->
  lo <= (1 - u) * a + u * c /\ (1 - u) * a + u * c <= hi.
Proof.
  intros.
  assert (0 <= (1 - u) * (a - lo)) by (apply Qmult_le_0_compat; lra).
  assert (0 <= u * (c - lo)) by (apply Qmult_le_0_compat; lra).
  assert (0 <= (1 - u) * (hi - a)) by (apply Qmult_le_0_compat; lra).
  assert (0 <= u * (hi - c)) by (apply Qmult_le_0_compat; lra).
  split; lra.
Qed.

Lemma bezier_vertex (a b c ts u : Q) :
  ts * (c - 2 * b + a) == a - b ->
  bezier a b c u - bezier a b c ts == (u - ts) * (u - ts) * (c - 2 * b + a).
Proof.
  intros E.
  assert (I : bezier a b c u - bezier a b c ts ==
              (u - ts) * (u - ts) * (c - 2 * b + a)
              + 2 * (u - ts) * (ts * (c - 2 * b + a) - (a - b)))
    by (unfold bezier; ring).
  rewrite I, E. ring.
Qed.

Lemma bezier_from_start (a b c ts u : Q) :
  ts * (c - 2 * b + a) == a - b ->
  bezier a b c u - a == u * ((c - 2 * b + a) * (u - 2 * ts)).
Proof.
  intros E.
  assert (I : bezier a b c u - a ==
              u * ((c - 2 * b + a) * (u - 2 * ts))
              + 2 * u * (ts * (c - 2 * b + a) - (a - b)))
    by (unfold bezier; ring).
  rewrite I, E. ring.
Qed.

Lemma bezier_from_end (a b c ts u : Q) :
  ts * (c - 2 * b + a) == a - b ->
  bezier a b c u - c == (1 - u) * ((c - 2 * b + a) * (2 * ts - 1 - u)).
Proof.
  intros E.
  assert (I : bezier a b c u - c ==
              (1 - u) * ((c - 2 * b + a) * (2 * ts - 1 - u))
              - 2 * (1 - u) * (ts * (c - 2 * b + a) - (a - b)))
    by (unfold bezier; ring).
  rewrite I, E. ring.
Qed.

Lemma extremaT_finite (a b c : Q) :
  ~ c - 2 * b + a == 0 ->
  exists ts, Quadratic.extremaT a b c = Fin ts /\ ts * (c - 2 * b + a) == a - b.
Proof.
  intros D. unfold Quadratic.extremaT.
  destruct (Qeq_bool (2 * (c - 2 * b + a)) 0) eqn:E.
  - apply Qeq_bool_iff in E. exfalso. apply D. lra.
  - simpl. eexists. split; [reflexivity|]. field. exact D.
Qed.

Lemma extremaT_NaN (a b c : Q) :
  c - 2 * b + a == 0 -> Quadratic.extremaT a b c = NaN.
Proof.
  intros D. unfold Quadratic.extremaT.
  destruct (Qeq_bool (2 * (c - 2 * b + a)) 0) eqn:E; [reflexivity|].
  apply Qeq_bool_neq in E. exfalso. apply E. lra.
Qed.

Lemma interior_Some (n : number) (ts : Q) :
  Quadratic.interior n = Some ts -> n = Fin ts /\ 0 < ts /\ ts < 1.
Proof.
  destruct n as [q | | |]; simpl; try discriminate.
  destruct (Num.ltb 0 q) eqn:E1; destruct (Num.ltb q 1) eqn:E2; simpl; try discriminate.
  intros H; inversion H; subst.
  apply Num_ltb_lt in E1, E2. auto.
Qed.

Lemma interior_None_Fin (ts : Q) :
  Quadratic.interior (Fin ts) = None -> ts <= 0 \/ 1 <= ts.
Proof.
  simpl.
  destruct (Num.ltb 0 ts) eqn:E1; destruct (Num.ltb ts 1) eqn:E2; simpl; try discriminate;
    intros _.
  - right. now apply Num_ltb_ge.
  - left. now apply Num_ltb_ge.
  - left. now apply Num_ltb_ge.
Qed.

Lemma bezier_range (lo hi a b c u : Q) :
  lo <= a -> lo <= c -> a <= hi -> c <= hi -> 0 <= u -> u <= 1 ->
  match Quadratic.interior (Quadratic.extremaT a b c) with
  | Some ts =>
      Qmin lo (bezier a b c ts) <= bezier a b c u /\
      bezier a b c u <= Qmax hi (bezier a b c ts)
  | None => lo <= bezier a b c u /\ bezier a b c u <= hi
  end.
Proof.
  intros Hla Hlc Hah Hch Hu0 Hu1.
  pose proof (@chord_between lo hi a c u Hla Hlc Hah Hch Hu0 Hu1) as [Cl Ch].
  pose proof (bezier_chord a b c u) as Bc.
  assert (Huu : 0 <= u * (1 - u)) by (apply Qmult_le_0_compat; lra).
  destruct (Qeq_dec (c - 2 * b + a) 0) as [D0 | Dn].
  - (* the curve is its chord *)
    rewrite (@extremaT_NaN a b c D0). simpl.
    assert (Z0 : u * (1 - u) * (c - 2 * b + a) == 0) by (rewrite D0; ring).
    split; lra.
  - destruct (@extremaT_finite a b c Dn) as (ts & Ets & E). rewrite Ets.
    pose proof (@bezier_vertex a b c ts u E) as V.
    pose proof (@bezier_from_start a b c ts u E) as FS.
    pose proof (@bezier_from_end a b c ts u E) as FE.
    pose proof (Qsq_nonneg (u - ts)) as Sq.
    pose proof (Q.le_min_l lo (bezier a b c ts)) as m1.
    pose proof (Q.le_min_r lo (bezier a b c ts)) as m2.
    pose proof (Q.le_max_l hi (bezier a b c ts)) as M1.
    pose proof (Q.le_max_r hi (bezier a b c ts)) as M2.
    destruct (Qlt_le_dec 0 (c - 2 * b + a)) as [Dpos | Dneg].
    + (* convex: the chord is above, the vertex below *)
      assert (P1 : 0 <= u * (1 - u) * (c - 2 * b + a))
        by (apply Qmult_le_0_compat; lra).
      destruct (Quadratic.interior (Fin ts)) as [ts' |] eqn:I.
      * apply interior_Some in I. destruct I as (I1 & _ & _).
        inversion I1; subst ts'.
        assert (0 <= (u - ts) * (u - ts) * (c - 2 * b + a))
          by (apply Qmult_le_0_compat; lra).
        split; lra.
      * apply interior_None_Fin in I. split; [|lra].
        destruct I as [I | I].
        -- assert (0 <= u * ((c - 2 * b + a) * (u - 2 * ts))).
           { apply Qmult_le_0_compat; [lra|]. apply Qmult_le_0_compat; lra. }
           lra.
        -- assert (0 <= (1 - u) * ((c - 2 * b + a) * (2 * ts - 1 - u))).
           { apply Qmult_le_0_compat; [lra|]. apply Qmult_le_0_compat; lra. }
           lra.
    + (* concave: the chord is below, the vertex above *)
      assert (Dlt : c - 2 * b + a < 0).
      { destruct (Qlt_le_dec (c - 2 * b + a) 0) as [L | L]; [exact L|].
        exfalso. apply Dn. lra. }
      assert (P1 : 0 <= u * (1 - u) * (- (c - 2 * b + a)))
        by (apply Qmult_le_0_compat; lra).
      destruct (Quadratic.interior (Fin ts)) as [ts' |] eqn:I.
      * apply interior_Some in I. destruct I as (I1 & _ & _).
        inversion I1; subst ts'.
        assert (0 <= (u - ts) * (u - ts) * (- (c - 2 * b + a)))
          by (apply Qmult_le_0_compat; lra).
        split; lra.
      * apply interior_None_Fin in I. split; [lra|].
        destruct I as [I | I].
        -- assert (0 <= u * ((- (c - 2 * b + a)) * (u - 2 * ts))).
           { apply Qmult_le_0_compat; [lra|]. apply Qmult_le_0_compat; lra. }
           lra.
        -- assert (0 <= (1 - u) * ((- (c - 2 * b + a)) * (2 * ts - 1 - u))).
           { apply Qmult_le_0_compat; [lra|]. apply Qmult_le_0_compat; lra. }
           lra.
Qed.


Lemma positionAt_x (q : Quadratic) (t : Q) :
  x (Quadratic.positionAt q t) ==
  bezier (x (_start q)) (x (_control q)) (x (_end q)) t.
Proof. unfold bezier. simpl. ring. Qed.

Lemma positionAt_y (q : Quadratic) (t : Q) :
  y (Quadratic.positionAt q t) ==
  bezier (y (_start q)) (y (_control q)) (y (_end q)) t.
Proof. unfold bezier. simpl. ring. Qed.

Lemma getBounds_cached (q : Quadratic) :
  cachesValid q ->
  fst (Quadratic.getBounds q) = fst (Quadratic.getBounds (Quadratic.invalidate q)).
Proof.
  intros (HX & HY & HB).
  unfold Quadratic.getBounds at 1.
  destruct (_bounds q) as [b |] eqn:Eb.
  - simpl. apply HB. reflexivity.
  - unfold Quadratic.getTCriticalX at 1. unfold Quadratic.getTCriticalY at 1.
    destruct (_tCriticalX q) as [tx |] eqn:Ex;
      [ rewrite (HX tx eq_refl) | ]; simpl;
      (destruct (_tCriticalY q) as [ty |] eqn:Ey;
       [ rewrite (HY ty eq_refl) | ]); simpl; rewrite ?Ex, ?Ey; reflexivity.
Qed.

Lemma Bounds2_containsPoint_iff (b : Bounds2) (p : Vector2) :
  Bounds2.containsPoint b p = true <->
  (minX b <= x p /\ x p <= maxX b) /\ (minY b <= y p /\ y p <= maxY b).
Proof.
  unfold Bounds2.containsPoint, Bounds2.containsCoordinates.
  rewrite !andb_true_iff, !Qle_bool_iff. tauto.
Qed.




Lemma extend_keeps_x (b : Bounds2) (tc : number) (pos : Q -> Vector2) (v : Q) :
  inX b v -> inX (extend b tc pos) v.
Proof.
  unfold extend, inX. intros [L U].
  destruct (Quadratic.interior tc) as [t |]; simpl; [|auto].
  pose proof (Q.le_min_l (minX b) (x (pos t))).
  pose proof (Q.le_max_l (maxX b) (x (pos t))).
  split; lra.
Qed.

Lemma extend_keeps_y (b : Bounds2) (tc : number) (pos : Q -> Vector2) (v : Q) :
  inY b v -> inY (extend b tc pos) v.
Proof.
  unfold extend, inY. intros [L U].
  destruct (Quadratic.interior tc) as [t |]; simpl; [|auto].
  pose proof (Q.le_min_l (minY b) (y (pos t))).
  pose proof (Q.le_max_l (maxY b) (y (pos t))).
  split; lra.
Qed.

Lemma extend_covers_x (b : Bounds2) (a c1 c : Q) (pos : Q -> Vector2) (u : Q) :
  inX b a -> inX b c ->
  (forall s, x (pos s) == bezier a c1 c s) ->
  0 <= u -> u <= 1 ->
  inX (extend b (Quadratic.extremaT a c1 c) pos) (bezier a c1 c u).
Proof.
  intros [La Ua] [Lc Uc] Hpos H0 H1.
  pose proof (@bezier_range (minX b) (maxX b) a c1 c u La Lc Ua Uc H0 H1) as R.
  unfold extend, inX.
  destruct (Quadratic.interior (Quadratic.extremaT a c1 c)) as [ts |]; simpl.
  - rewrite (Hpos ts). exact R.
  - exact R.
Qed.

Lemma extend_covers_y (b : Bounds2) (a c1 c : Q) (pos : Q -> Vector2) (u : Q) :
  inY b a -> inY b c ->
  (forall s, y (pos s) == bezier a c1 c s) ->
  0 <= u -> u <= 1 ->
  inY (extend b (Quadratic.extremaT a c1 c) pos) (bezier a c1 c u).
Proof.
  intros [La Ua] [Lc Uc] Hpos H0 H1.
  pose proof (@bezier_range (minY b) (maxY b) a c1 c u La Lc Ua Uc H0 H1) as R.
  unfold extend, inY.
  destruct (Quadratic.interior (Quadratic.extremaT a c1 c)) as [ts |]; simpl.
  - rewrite (Hpos ts). exact R.
  - exact R.
Qed.

Lemma getBounds_fresh (q : Quadratic) :
  fst (Quadratic.getBounds (Quadratic.invalidate q)) =
  extend
    (extend
       (bounds2 (Qmin (x (_start q)) (x (_end q))) (Qmin (y (_start q)) (y (_end q)))
                (Qmax (x (_start q)) (x (_end q))) (Qmax (y (_start q)) (y (_end q))))
       (Quadratic.extremaT (x (_start q)) (x (_control q)) (x (_end q)))
       (Quadratic.positionAt q))
    (Quadratic.extremaT (y (_start q)) (y (_control q)) (y (_end q)))
    (Quadratic.positionAt q).
Proof.
  destruct q as [s c e st et tx ty bb].
  unfold Quadratic.getBounds, Quadratic.invalidate, extend; simpl.
  destruct (Quadratic.interior (Quadratic.extremaT (x s) (x c) (x e)));
    destruct (Quadratic.interior (Quadratic.extremaT (y s) (y c) (y e)));
    reflexivity.
Qed.

Lemma fresh_bounds_contain (q : Quadratic) (t : Q) :
  0 <= t -> t <= 1 ->
  Bounds2.containsPoint (fst (Quadratic.getBounds (Quadratic.invalidate q)))
                        (Quadratic.positionAt q t) = true.
Proof.
  intros H0 H1. apply Bounds2_containsPoint_iff.
  rewrite getBounds_fresh.
  set (b0 := bounds2 _ _ _ _).
  assert (X0a : inX b0 (x (_start q))) by (split; [apply Q.le_min_l | apply Q.le_max_l]).
  assert (X0c : inX b0 (x (_end q))) by (split; [apply Q.le_min_r | apply Q.le_max_r]).
  assert (Y0a : inY b0 (y (_start q))) by (split; [apply Q.le_min_l | apply Q.le_max_l]).
  assert (Y0c : inY b0 (y (_end q))) by (split; [apply Q.le_min_r | apply Q.le_max_r]).
  split.
  - change (inX (extend (extend b0 (Quadratic.extremaT (x (_start q)) (x (_control q)) (x (_end q)))
                                (Quadratic.positionAt q))
                        (Quadratic.extremaT (y (_start q)) (y (_control q)) (y (_end q)))
                        (Quadratic.positionAt q))
                (x (Quadratic.positionAt q t))).
    apply extend_keeps_x.
    unfold inX. rewrite positionAt_x.
    apply extend_covers_x; auto. intros s. apply positionAt_x.
  - change (inY (extend (extend b0 (Quadratic.extremaT (x (_start q)) (x (_control q)) (x (_end q)))
                                (Quadratic.positionAt q))
                        (Quadratic.extremaT (y (_start q)) (y (_control q)) (y (_end q)))
                        (Quadratic.positionAt q))
                (y (Quadratic.positionAt q t))).
    unfold inY. rewrite positionAt_y.
    apply extend_covers_y; auto.
    + apply extend_keeps_y; assumption.
    + apply extend_keeps_y; assumption.
    + intros s. apply positionAt_y.
Qed.

Lemma bounds_contain_curve (q : Quadratic) (t : Q) :
  cachesValid q -> 0 <= t -> t <= 1 ->
  Bounds2.containsPoint (fst (Quadratic.getBounds q)) (Quadratic.positionAt q t) = true.
Proof.
  intros V H0 H1. rewrite (getBounds_cached V). apply fresh_bounds_contain; assumption.
Qed.

(** A second call of [getBounds] answers from the cache. *)
Lemma getBounds_again (q : Quadratic) :
  Quadratic.getBounds (snd (Quadratic.getBounds q))
  = (fst (Quadratic.getBounds q), snd (Quadratic.getBounds q)).
Proof.
  unfold Quadratic.getBounds at 2 3 4.
  destruct (_bounds q) as [b |] eqn:E.
  - simpl. unfold Quadratic.getBounds. rewrite E. reflexivity.
  - destruct (Quadratic.getTCriticalX q) as [tx q1].
    destruct (Quadratic.getTCriticalY q1) as [ty q2].
    reflexivity.
Qed.

(** *** The states the code reaches *)

Lemma cachesValid_invalidate (q : Quadratic) : cachesValid (Quadratic.invalidate q).
Proof. repeat split; simpl; intros; discriminate. Qed.

Lemma cachesValid_new (s c e : Vector2) : cachesValid (Quadratic.new s c e).
Proof. apply cachesValid_invalidate. Qed.

Lemma cachesValid_getTCriticalX (q : Quadratic) :
  cachesValid q -> cachesValid (snd (Quadratic.getTCriticalX q)).
Proof.
  intros V. unfold Quadratic.getTCriticalX.
  destruct (_tCriticalX q) eqn:E; [exact V|].
  destruct V as (VX & VY & VB). repeat split; simpl.
  - intros t Ht. inversion Ht. reflexivity.
  - exact VY.
  - exact VB.
Qed.

Lemma cachesValid_getTCriticalY (q : Quadratic) :
  cachesValid q -> cachesValid (snd (Quadratic.getTCriticalY q)).
Proof.
  intros V. unfold Quadratic.getTCriticalY.
  destruct (_tCriticalY q) eqn:E; [exact V|].
  destruct V as (VX & VY & VB). repeat split; simpl.
  - exact VX.
  - intros t Ht. inversion Ht. reflexivity.
  - exact VB.
Qed.

Lemma cachesValid_getBounds (q : Quadratic) :
  cachesValid q -> cachesValid (snd (Quadratic.getBounds q)).
Proof.
  destruct q as [s c e st et tx ty bb]. intros (VX & VY & VB).
  unfold Quadratic.invalidate in VX, VY, VB. simpl in VX, VY, VB.
  destruct bb as [b |].
  - repeat split; simpl; assumption.
  - destruct tx as [tx |]; [ rewrite (VX tx eq_refl) in * | ];
      (destruct ty as [ty |]; [ rewrite (VY ty eq_refl) in * | ]);
      unfold Quadratic.getBounds, Quadratic.invalidate; simpl;
      repeat split; simpl; intros v Hv; inversion Hv; reflexivity.
Qed.

Lemma cachesValid_getStartTangent `{MathLib} (q q' : Quadratic) (v : Vector2) :
  cachesValid q -> Quadratic.getStartTangent q = Some (v, q') -> cachesValid q'.
Proof.
  intros V. unfold Quadratic.getStartTangent.
  destruct (_startTangent q) as [c |].
  - intros R. inversion R; subst. exact V.
  - destruct (if Vector2.equals (_start q) (_control q) then _ else _) as [n |];
      [|discriminate].
    intros R. inversion R; subst. exact V.
Qed.

Lemma cachesValid_getEndTangent `{MathLib} (q q' : Quadratic) (v : Vector2) :
  cachesValid q -> Quadratic.getEndTangent q = Some (v, q') -> cachesValid q'.
Proof.
  intros V. unfold Quadratic.getEndTangent.
  destruct (_endTangent q) as [c |].
  - intros R. inversion R; subst. exact V.
  - destruct (if Vector2.equals (_end q) (_control q) then _ else _) as [n |];
      [|discriminate].
    intros R. inversion R; subst. exact V.
Qed.

(** Every state the code reaches has valid caches. *)
Lemma reachable_cachesValid `{MathLib} (q : Quadratic) : reachable q -> cachesValid q.
Proof.
  induction 1 as [s c e | q R IH | name value q R IH | q q' v R IH G | q q' v R IH G
                  | q R IH | q R IH | q R IH].
  - apply cachesValid_new.
  - apply cachesValid_invalidate.
  - apply cachesValid_invalidate.
  - exact (cachesValid_getStartTangent IH G).
  - exact (cachesValid_getEndTangent IH G).
  - apply cachesValid_getTCriticalX. exact IH.
  - apply cachesValid_getTCriticalY. exact IH.
  - apply cachesValid_getBounds. exact IH.
Qed.

(** *** The bounds in double arithmetic *)

Lemma SFcompare_refl_not_nan (a : spec_float) :
  SFcompare a a = Some Eq -> a <> S754_nan.
Proof. intros E N. subst a. discriminate E. Qed.

















(** In exact arithmetic, for every state of a segment that the code
    reaches, the bounds cached or computed, the box contains
    [positionAt t] for every [t] of [[0,1]]. *)
Lemma exact_bounds_contain_positionAt `{MathLib} (q : Quadratic) (t : Q) :
  reachable q -> 0 <= t -> t <= 1 ->
  Bounds2.containsPoint (fst (Quadratic.getBounds q)) (Quadratic.positionAt q t) = true.
Proof.
  intros R H0 H1.
  apply bounds_contain_curve; [exact (reachable_cachesValid R) | exact H0 | exact H1].
Qed.




(** The same on a segment whose three points lie on the vertical line
    [x = 0.3]: [positionAt( 0.75 )] has [x = 0.29999999999999993]. *)
Example vertical_position_left_of_bounds :
  Double.Bounds2.containsPoint (Double.Quadratic.getBounds Double.verticalExample)
    (Double.Quadratic.positionAt Double.verticalExample 0.75%float) = false.
Proof. vm_compute. reflexivity. Qed.

Example archExample_values :
  Double.Quadratic.getTCriticalY Double.archExample = 0x1.0000000000001p-1%float /\
  Double.maxY (Double.Quadratic.getBounds Double.archExample) = 0x1.e666666666666p-1%float /\
  Double.y (Double.Quadratic.positionAt Double.archExample 0.5%float)
  = 0x1.e666666666667p-1%float.
Proof. vm_compute. repeat split; reflexivity. Qed.

(** The bounds of the example: the extremum in [y] at [t = 1/2] raises
    the box above both ends. *)
Example getBounds_arch :
  let b := fst (Quadratic.getBounds (Quadratic.new (v2 0 0) (v2 1 2) (v2 2 0))) in
  (Qred (minX b), Qred (minY b), Qred (maxX b), Qred (maxY b)) = (0, 0, 2, 1).
Proof. vm_compute. reflexivity. Qed.

(** *** Subdivision *)

Lemma Vector2_same_refl (a : Vector2) : Vector2.same a a.
Proof. split; reflexivity. Qed.

Lemma Vector2_same_sym (a b : Vector2) : Vector2.same a b -> Vector2.same b a.
Proof. intros [H1 H2]; split; symmetry; assumption. Qed.

Lemma Vector2_same_trans (a b c : Vector2) :
  Vector2.same a b -> Vector2.same b c -> Vector2.same a c.
Proof. intros [H1 H2] [H3 H4]; split; etransitivity; eassumption. Qed.

Lemma Vector2_equals_same (a b : Vector2) :
  Vector2.equals a b = true <-> Vector2.same a b.
Proof.
  unfold Vector2.equals, Vector2.same.
  rewrite andb_true_iff, !Qeq_bool_iff. tauto.
Qed.

Lemma subdivided_left (q : Quadratic) (t u : Q) :
  Vector2.same (Quadratic.positionAt (fst (Quadratic.subdivided q t)) u)
               (Quadratic.positionAt q (t * u)).
Proof. split; simpl; ring. Qed.

Lemma subdivided_right (q : Quadratic) (t u : Q) :
  Vector2.same (Quadratic.positionAt (snd (Quadratic.subdivided q t)) u)
               (Quadratic.positionAt q (t + (1 - t) * u)).
Proof. split; simpl; ring. Qed.

(** C3. For [t] strictly between 0 and 1, [subdivided t] is a pair of
    Quadratics: the first runs from the start of the parent to its
    point at [t] and traces the parent over [[0,t]], the second runs
    from that point to the end of the parent and traces it over
    [[t,1]]; the end of the first, the start of the second and
    [positionAt t] of the parent are one point. *)
Theorem Quadratic_subdivided_covers (q : Quadratic) (t : Q) :
  0 < t -> t < 1 ->
  let left := fst (Quadratic.subdivided q t) in
  let right := snd (Quadratic.subdivided q t) in
  Vector2.same (Quadratic.positionAt left 1) (Quadratic.positionAt q t) /\
  Vector2.same (Quadratic.positionAt right 0) (Quadratic.positionAt q t) /\
  Vector2.same (Quadratic.positionAt left 1) (Quadratic.positionAt right 0) /\
  _start left = _start q /\ _end left = _start right /\ _end right = _end q /\
  (forall u, Vector2.same (Quadratic.positionAt left u)
                          (Quadratic.positionAt q (t * u))) /\
  (forall u, Vector2.same (Quadratic.positionAt right u)
                          (Quadratic.positionAt q (t + (1 - t) * u))).
Proof.
  intros _ _ left right. subst left right.
  repeat split; try reflexivity; simpl; ring.
Qed.

Lemma Quadratic_subdivided_covers_witness :
  let q := Quadratic.new (v2 0 0) (v2 1 2) (v2 2 0) in
  let left := fst (Quadratic.subdivided q (1 # 4)) in
  let right := snd (Quadratic.subdivided q (1 # 4)) in
  0 < 1 # 4 /\ 1 # 4 < 1 /\
  Vector2.same (Quadratic.positionAt left 1) (Quadratic.positionAt q (1 # 4)) /\
  Vector2.same (Quadratic.positionAt right 0) (Quadratic.positionAt q (1 # 4)).
Proof.
  assert (H0 : 0 < 1 # 4) by (unfold Qlt; simpl; lia).
  assert (H1 : 1 # 4 < 1) by (unfold Qlt; simpl; lia).
  pose proof (@Quadratic_subdivided_covers
                (Quadratic.new (v2 0 0) (v2 1 2) (v2 2 0)) (1 # 4) H0 H1) as P.
  exact (conj H0 (conj H1 (conj (proj1 P) (proj1 (proj2 P))))).
Defined.

(** *** Degenerate quadratics *)

Lemma farthest_at_half (q : Quadratic) (u : Q) :
  Vector2.same (_start q) (_end q) -> 0 <= u -> u <= 1 ->
  Vector2.distanceSquared (Quadratic.positionAt q u) (_start q)
  <= Vector2.distanceSquared (Quadratic.positionAt q (1 # 2)) (_start q).
Proof.
  intros [Ex Ey] H0 H1.
  destruct q as [s c e st et tx ty bb]. simpl in Ex, Ey.
  unfold Vector2.distanceSquared, Vector2.magnitudeSquared, Vector2.dot. simpl.
  set (dx := x c - x s). set (dy := y c - y s).
  set (k := 2 * u * (1 - u)).
  assert (Ax : x s * ((1 - u) * (1 - u)) + x c * (2 * (1 - u) * u) + x e * (u * u) - x s
               == k * dx) by (unfold k, dx; rewrite <- Ex; ring).
  assert (Ay : y s * ((1 - u) * (1 - u)) + y c * (2 * (1 - u) * u) + y e * (u * u) - y s
               == k * dy) by (unfold k, dy; rewrite <- Ey; ring).
  assert (Bx : x s * ((1 - (1 # 2)) * (1 - (1 # 2))) + x c * (2 * (1 - (1 # 2)) * (1 # 2))
               + x e * ((1 # 2) * (1 # 2)) - x s == (1 # 2) * dx)
    by (unfold dx; rewrite <- Ex; ring).
  assert (By : y s * ((1 - (1 # 2)) * (1 - (1 # 2))) + y c * (2 * (1 - (1 # 2)) * (1 # 2))
               + y e * ((1 # 2) * (1 # 2)) - y s == (1 # 2) * dy)
    by (unfold dy; rewrite <- Ey; ring).
  rewrite Ax, Ay, Bx, By.
  assert (K0 : 0 <= k).
  { unfold k. assert (0 <= u * (1 - u)) by (apply Qmult_le_0_compat; lra). lra. }
  assert (K1 : k <= 1 # 2).
  { pose proof (Qsq_nonneg (u - (1 # 2))) as S.
    assert (E : (1 # 2) - k == 2 * ((u - (1 # 2)) * (u - (1 # 2)))) by (unfold k; ring).
    lra. }
  assert (M : 0 <= dx * dx + dy * dy).
  { pose proof (Qsq_nonneg dx). pose proof (Qsq_nonneg dy). lra. }
  assert (G : 0 <= (((1 # 2) - k) * ((1 # 2) + k)) * (dx * dx + dy * dy)).
  { apply Qmult_le_0_compat; [|exact M]. apply Qmult_le_0_compat; lra. }
  assert (E2 : (1 # 2) * dx * ((1 # 2) * dx) + (1 # 2) * dy * ((1 # 2) * dy)
               - (k * dx * (k * dx) + k * dy * (k * dy))
               == (((1 # 2) - k) * ((1 # 2) + k)) * (dx * dx + dy * dy)) by ring.
  lra.
Qed.

Section NondegenerateFacts.
Variable arePointsCollinear : Vector2 -> Vector2 -> Vector2 -> bool.
Variable Line_getNondegenerateSegments : Line -> list Segment.
Hypothesis arePointsCollinear_spec :
  forall a b c, arePointsCollinear a b c = true <-> collinear a b c.

(** C4. [getNondegenerateSegments] returns no segment when the three
    points coincide; the single line from start to end when the control
    point is the start and the end differs; the two lines to and from
    [positionAt 0.5], the point of the curve farthest from the start,
    when the end is the start and the control point differs; and the
    quadratic itself when the three points are not collinear. *)
Theorem Quadratic_getNondegenerateSegments_cases (q : Quadratic) :
  let start := _start q in
  let control := _control q in
  let end_ := _end q in
  (Vector2.equals start control = true -> Vector2.equals start end_ = true ->
   Quadratic.getNondegenerateSegments arePointsCollinear
     Line_getNondegenerateSegments q = []) /\
  (Vector2.equals start control = true -> Vector2.equals start end_ = false ->
   Quadratic.getNondegenerateSegments arePointsCollinear
     Line_getNondegenerateSegments q = [ SegLine (Line.new start end_) ] /\
   invalid (Line.new start end_) = false) /\
  (Vector2.equals start end_ = true -> Vector2.equals start control = false ->
   let halfPoint := Quadratic.positionAt q (1 # 2) in
   Quadratic.getNondegenerateSegments arePointsCollinear
     Line_getNondegenerateSegments q = [ SegLine (Line.new start halfPoint);
                    SegLine (Line.new halfPoint end_) ] /\
   (forall u, 0 <= u -> u <= 1 ->
      Vector2.distanceSquared (Quadratic.positionAt q u) start
      <= Vector2.distanceSquared halfPoint start)) /\
  (~ collinear start control end_ -> Quadratic.getNondegenerateSegments arePointsCollinear
     Line_getNondegenerateSegments q = [ SegQuadratic q ]).
Proof.
  intros start control end_.
  unfold Quadratic.getNondegenerateSegments. fold start control end_.
  repeat split.
  - intros Hc He. rewrite Hc, He. reflexivity.
  - rewrite H, H0. simpl.
    assert (C : arePointsCollinear start control end_ = true).
    { apply arePointsCollinear_spec. apply Vector2_equals_same in H.
      destruct H as [Hx Hy]. unfold collinear. rewrite <- Hx, <- Hy. ring. }
    rewrite C. reflexivity.
  - exact H0.
  - rewrite H, H0. reflexivity.
  - intros u U0 U1. apply farthest_at_half; auto.
    apply Vector2_equals_same. exact H.
  - intros NC.
    assert (C : arePointsCollinear start control end_ = false).
    { destruct (arePointsCollinear start control end_) eqn:E; [|reflexivity].
      exfalso. apply NC. apply arePointsCollinear_spec. exact E. }
    assert (SE : Vector2.equals start end_ = false).
    { destruct (Vector2.equals start end_) eqn:E; [|reflexivity].
      exfalso. apply NC. apply Vector2_equals_same in E. destruct E as [Hx Hy].
      unfold collinear. rewrite <- Hx, <- Hy. ring. }
    rewrite SE, C. simpl. reflexivity.
Qed.

End NondegenerateFacts.

Lemma zeroAreaTest_spec (a b c : Vector2) :
  zeroAreaTest a b c = true <-> collinear a b c.
Proof. unfold zeroAreaTest, collinear. apply Qeq_bool_iff. Qed.

Lemma Quadratic_getNondegenerateSegments_cases_witness :
  (forall a b c, zeroAreaTest a b c = true <-> collinear a b c) /\
  Quadratic.getNondegenerateSegments zeroAreaTest keepValidLine
    (Quadratic.new (v2 0 0) (v2 0 0) (v2 3 4))
  = [ SegLine (Line.new (v2 0 0) (v2 3 4)) ].
Proof.
  split.
  - exact zeroAreaTest_spec.
  - exact (proj1 (proj1 (proj2
             (@Quadratic_getNondegenerateSegments_cases zeroAreaTest keepValidLine
                zeroAreaTest_spec (Quadratic.new (v2 0 0) (v2 0 0) (v2 3 4))))
             eq_refl eq_refl)).
Defined.

Example degenerate_all_equal :
  Quadratic.getNondegenerateSegments zeroAreaTest keepValidLine
    (Quadratic.new (v2 1 2) (v2 1 2) (v2 1 2)) = [].
Proof. reflexivity. Qed.

Example degenerate_out_and_back :
  Quadratic.getNondegenerateSegments zeroAreaTest keepValidLine
    (Quadratic.new (v2 0 0) (v2 2 4) (v2 0 0))
  = [ SegLine (Line.new (v2 0 0) (Quadratic.positionAt (Quadratic.new (v2 0 0) (v2 2 4) (v2 0 0)) (1 # 2)));
      SegLine (Line.new (Quadratic.positionAt (Quadratic.new (v2 0 0) (v2 2 4) (v2 0 0)) (1 # 2)) (v2 0 0)) ].
Proof. reflexivity. Qed.

Example nondegenerate_kept :
  Quadratic.getNondegenerateSegments zeroAreaTest keepValidLine
    (Quadratic.new (v2 0 0) (v2 1 2) (v2 2 0))
  = [ SegQuadratic (Quadratic.new (v2 0 0) (v2 1 2) (v2 2 0)) ].
Proof. reflexivity. Qed.

(** *** The closing segment of a subpath *)

Lemma getLastPoint_nonempty {S : Type} (sp : Subpath S) :
  points sp <> [] ->
  exists first lst,
    Subpath.getFirstPoint sp = Some first /\ Subpath.getLastPoint sp = Some lst.
Proof.
  unfold Subpath.getFirstPoint, Subpath.getLastPoint.
  destruct (points sp) as [| p ps]; [congruence|].
  intros _. exists p, (last ps p). split; reflexivity.
Qed.

(** C5, as the code has it. For a subpath with at least one point,
    [hasClosingSegment] returns true exactly when the first and the
    last point differ by more than the tolerance of 1e-9, and false
    otherwise; the closed flag plays no part in the answer. *)
Theorem hasClosingSegment_iff_ends_differ {S : Type} (sp : Subpath S) :
  points sp <> [] ->
  exists first lst,
    Subpath.getFirstPoint sp = Some first /\
    Subpath.getLastPoint sp = Some lst /\
    (Subpath.hasClosingSegment sp = Some true <-> endsDiffer first lst) /\
    (Subpath.hasClosingSegment sp = Some false <-> ~ endsDiffer first lst) /\
    (forall flag,
       Subpath.hasClosingSegment (mkSubpath (points sp) (segments sp) flag)
       = Subpath.hasClosingSegment sp).
Proof.
  intros NE. destruct (getLastPoint_nonempty sp NE) as (first & lst & F & L).
  exists first, lst. split; [exact F|]. split; [exact L|].
  assert (Flag : forall flag,
             Subpath.hasClosingSegment (mkSubpath (points sp) (segments sp) flag)
             = Subpath.hasClosingSegment sp) by (intros flag; reflexivity).
  assert (V : Subpath.hasClosingSegment sp
              = Some (negb (Vector2.equalsEpsilon first lst Subpath.closingEpsilon))).
  { unfold Subpath.hasClosingSegment. rewrite F, L. reflexivity. }
  split; [|split; [|exact Flag]]; rewrite V;
    unfold endsDiffer, Vector2.equalsEpsilon;
    set (d := Qabs (x first - x lst) + Qabs (y first - y lst));
    destruct (Qle_bool d Subpath.closingEpsilon) eqn:E; cbn [negb].
  - apply Qle_bool_iff in E.
    split; [discriminate|]. intros D. exfalso. apply (Qlt_not_le _ _ D E).
  - split; [|reflexivity]. intros _.
    apply Qnot_le_lt. intros C. apply Qle_bool_iff in C. congruence.
  - apply Qle_bool_iff in E.
    split; [|reflexivity]. intros _ D. apply (Qlt_not_le _ _ D E).
  - split; [discriminate|]. intros ND. exfalso. apply ND.
    apply Qnot_le_lt. intros C. apply Qle_bool_iff in C. congruence.
Qed.

Lemma hasClosingSegment_iff_ends_differ_witness :
  let sp : Subpath Line := mkSubpath [ v2 0 0; v2 1 0 ] [] false in
  points sp <> [] /\
  exists first lst,
    Subpath.getFirstPoint sp = Some first /\
    Subpath.getLastPoint sp = Some lst /\
    (Subpath.hasClosingSegment sp = Some true <-> endsDiffer first lst) /\
    (Subpath.hasClosingSegment sp = Some false <-> ~ endsDiffer first lst) /\
    (forall flag,
       Subpath.hasClosingSegment (mkSubpath (points sp) (segments sp) flag)
       = Subpath.hasClosingSegment sp).
Proof.
  assert (NE : points (mkSubpath (S := Line) [ v2 0 0; v2 1 0 ] [] false) <> [])
    by (simpl; discriminate).
  exact (conj NE (@hasClosingSegment_iff_ends_differ Line _ NE)).
Defined.

(** The claim C5 as the specification words it fails on an open
    subpath from (0,0) to (1,0): the answer is true, the flag is not
    set. *)
Lemma hasClosingSegment_open_subpath :
  let sp : Subpath Line := mkSubpath [ v2 0 0; v2 1 0 ] [] false in
  ~ (Subpath.hasClosingSegment sp = Some true <->
     (closed sp = true /\ endsDiffer (v2 0 0) (v2 1 0))).
Proof.
  intros sp [H _].
  assert (T : Subpath.hasClosingSegment sp = Some true) by reflexivity.
  destruct (H T) as [C _]. discriminate C.
Qed.

(** *** The miter join *)

Lemma Num_div_finite (a b : Q) : ~ b == 0 -> Num.div a b = Fin (a / b).
Proof.
  intros B. unfold Num.div.
  destruct (Qeq_bool b 0) eqn:E; [|reflexivity].
  apply Qeq_bool_iff in E. contradiction.
Qed.

Lemma Num_div_zero (a b : Q) : b == 0 -> 0 < a -> Num.div a b = PInf.
Proof.
  intros B A. unfold Num.div.
  destruct (Qeq_bool b 0) eqn:E.
  - apply Qgt_alt in A. rewrite A. reflexivity.
  - apply Qeq_bool_neq in E. contradiction.
Qed.

Section JoinFacts.
Context `{MathLib}.

(** The miter is allowed exactly when the ratio [1 / sin( theta / 2 )]
    is a number at most the miter limit and [theta] stays below pi by
    the tolerance. *)
Lemma miterAllowed_iff (lineStyles : LineStyles) (theta : Q) :
  Stroke.miterAllowed lineStyles theta = true <->
  (~ Math_sin (theta / 2) == 0 /\
   1 / Math_sin (theta / 2) <= miterLimit lineStyles /\
   theta < Math_PI - Stroke.straightEpsilon).
Proof.
  unfold Stroke.miterAllowed. rewrite andb_true_iff, Num_ltb_lt.
  destruct (Qeq_dec (Math_sin (theta / 2)) 0) as [Z | NZ].
  - rewrite (Num_div_zero Z) by reflexivity. simpl.
    split; [intros [D _]; discriminate | intros [NZ _]; contradiction].
  - rewrite (Num_div_finite _ NZ). simpl. rewrite Qle_bool_iff. tauto.
Qed.

(** C6. At a join on the convex side with line join miter and [theta]
    the angle between the incoming tangent and the reversed outgoing
    one, [join] emits the miter tip, the point where the two offset
    rays meet, and then a line to the next offset point exactly when
    [1 / sin( theta / 2 ) <= miterLimit] and [theta] is below pi by the
    tolerance; in every other case it emits the single line to the next
    offset point, as the bevel does. *)
Theorem miter_join_rule (lineStyles : LineStyles)
    (center fromTangent toTangent : Vector2) (theta : Q) :
  lineJoin lineStyles = miter ->
  0 < Vector2.dot (Vector2.perpendicular fromTangent) toTangent ->
  Vector2.angleBetween fromTangent (Vector2.negated toTangent) = Some theta ->
  let fromPoint := Stroke.fromPointOf lineStyles center fromTangent in
  let toPoint := Stroke.toPointOf lineStyles center toTangent in
  let allowed :=
    ~ Math_sin (theta / 2) == 0 /\
    1 / Math_sin (theta / 2) <= miterLimit lineStyles /\
    theta < Math_PI - Stroke.straightEpsilon in
  exists tip,
    onLine fromPoint fromTangent tip /\
    onLine toPoint toTangent tip /\
    (allowed ->
     Stroke.join lineStyles center fromTangent toTangent
     = Some [ LineTo tip; LineTo toPoint ]) /\
    (~ allowed ->
     Stroke.join lineStyles center fromTangent toTangent
     = Some [ LineTo toPoint ]) /\
    (Stroke.join lineStyles center fromTangent toTangent
     = Some [ LineTo tip; LineTo toPoint ] -> allowed) /\
    Stroke.join (mkLineStyles (lineWidth lineStyles) bevel (miterLimit lineStyles))
                center fromTangent toTangent
    = Some [ LineTo toPoint ].
Proof.
  intros J Convex Theta fromPoint toPoint allowed.
  set (p2 := Vector2.plus fromPoint fromTangent).
  set (p4 := Vector2.plus toPoint toTangent).
  set (den := (x fromPoint - x p2) * (y toPoint - y p4)
              - (y fromPoint - y p2) * (x toPoint - x p4)).
  assert (Den : den == - Vector2.dot (Vector2.perpendicular fromTangent) toTangent).
  { unfold den, p2, p4, Vector2.dot. simpl. ring. }
  assert (NZ : ~ den == 0) by (rewrite Den; lra).
  set (nx := (x fromPoint * y p2 - y fromPoint * x p2) * (x toPoint - x p4)
             - (x fromPoint - x p2) * (x toPoint * y p4 - y toPoint * x p4)).
  set (ny := (x fromPoint * y p2 - y fromPoint * x p2) * (y toPoint - y p4)
             - (y fromPoint - y p2) * (x toPoint * y p4 - y toPoint * x p4)).
  assert (I : Util.lineLineIntersection fromPoint p2 toPoint p4
              = (Fin (nx / den), Fin (ny / den))).
  { unfold Util.lineLineIntersection. fold den nx ny.
    rewrite !(Num_div_finite _ NZ). reflexivity. }
  exists (v2 (nx / den) (ny / den)).
  assert (Side : Num.ltb 0 (Vector2.dot (Vector2.perpendicular fromTangent) toTangent) = true)
    by (apply Num_ltb_lt; exact Convex).
  assert (Jm : forall b,
             Stroke.miterAllowed lineStyles theta = b ->
             Stroke.join lineStyles center fromTangent toTangent
             = if b then Some [ LineTo (v2 (nx / den) (ny / den)); LineTo toPoint ]
               else Some [ LineTo toPoint ]).
  { intros b Hb. unfold Stroke.join. rewrite Side, J, Theta, Hb.
    destruct b; [|reflexivity].
    fold fromPoint toPoint. fold p2 p4. rewrite I. reflexivity. }
  split; [|split; [|split; [|split; [|split]]]].
  - change ((nx / den - x fromPoint) * y fromTangent
            - (ny / den - y fromPoint) * x fromTangent == 0).
    assert (E : (nx / den - x fromPoint) * y fromTangent
                - (ny / den - y fromPoint) * x fromTangent
                == ((nx - x fromPoint * den) * y fromTangent
                    - (ny - y fromPoint * den) * x fromTangent) / den)
      by (field; exact NZ).
    rewrite E.
    assert (Z : (nx - x fromPoint * den) * y fromTangent
                - (ny - y fromPoint * den) * x fromTangent == 0)
      by (unfold nx, ny, den, p2, p4; simpl; ring).
    rewrite Z. field. exact NZ.
  - change ((nx / den - x toPoint) * y toTangent
            - (ny / den - y toPoint) * x toTangent == 0).
    assert (E : (nx / den - x toPoint) * y toTangent
                - (ny / den - y toPoint) * x toTangent
                == ((nx - x toPoint * den) * y toTangent
                    - (ny - y toPoint * den) * x toTangent) / den)
      by (field; exact NZ).
    rewrite E.
    assert (Z : (nx - x toPoint * den) * y toTangent
                - (ny - y toPoint * den) * x toTangent == 0)
      by (unfold nx, ny, den, p2, p4; simpl; ring).
    rewrite Z. field. exact NZ.
  - intros A. apply (Jm true). apply miterAllowed_iff. exact A.
  - intros NA. apply (Jm false).
    apply not_true_is_false. intros E.
    apply NA. apply miterAllowed_iff. exact E.
  - intros R. apply miterAllowed_iff.
    apply not_false_is_true. intros E.
    rewrite (Jm false E) in R. discriminate R.
  - unfold Stroke.join. simpl lineJoin. rewrite Side. reflexivity.
Qed.

End JoinFacts.

Lemma miter_join_rule_witness :
  let lineStyles := mkLineStyles 2 miter 10 in
  let center := v2 0 0 in
  let fromTangent := v2 1 0 in
  let toTangent := v2 0 (-1) in
  let theta := 5680 # 3616 in
  lineJoin lineStyles = miter /\
  0 < Vector2.dot (Vector2.perpendicular fromTangent) toTangent /\
  Vector2.angleBetween fromTangent (Vector2.negated toTangent) = Some theta /\
  exists tip,
    onLine (Stroke.fromPointOf lineStyles center fromTangent) fromTangent tip /\
    onLine (Stroke.toPointOf lineStyles center toTangent) toTangent tip /\
    Stroke.join lineStyles center fromTangent toTangent
    = Some [ LineTo tip; LineTo (Stroke.toPointOf lineStyles center toTangent) ].
Proof.
  intros lineStyles center fromTangent toTangent theta.
  assert (J : lineJoin lineStyles = miter) by reflexivity.
  assert (C : 0 < Vector2.dot (Vector2.perpendicular fromTangent) toTangent)
    by reflexivity.
  assert (T : Vector2.angleBetween fromTangent (Vector2.negated toTangent) = Some theta)
    by reflexivity.
  split; [exact J|]. split; [exact C|]. split; [exact T|].
  destruct (@miter_join_rule exampleMath lineStyles center fromTangent toTangent theta J C T)
    as (tip & On1 & On2 & Yes & _).
  exists tip. split; [exact On1|]. split; [exact On2|].
  apply Yes. split; [|split].
  - intros Z. vm_compute in Z. discriminate Z.
  - vm_compute. discriminate.
  - reflexivity.
Defined.

Example miter_tip_of_right_angle :
  Stroke.join (mkLineStyles 2 miter 10) (v2 0 0) (v2 1 0) (v2 0 (-1))
  = Some [ LineTo (v2 (1048576 # 1048576) (1048576 # 1048576)); LineTo (v2 (2 # 2) (0 # 2)) ].
Proof. vm_compute. reflexivity. Qed.

Example miter_limit_exceeded :
  Stroke.join (mkLineStyles 2 miter 1) (v2 0 0) (v2 1 0) (v2 0 (-1))
  = Some [ LineTo (v2 (2 # 2) (0 # 2)) ].
Proof. vm_compute. reflexivity. Qed.

(** *** Adaptive subdivision *)

Section PiecewiseLinearFacts.
Variable distToSegmentSquared : Vector2 -> Vector2 -> Vector2 -> Q.
Context {S : Type} `{SegmentLike S}.

Lemma finished_iff_stops (options : Options) (minLevels maxLevels : Z)
    (start middle end_ : Vector2) :
  Segment.finished distToSegmentSquared options minLevels maxLevels start middle end_ = true
  <-> Segment.stops distToSegmentSquared options minLevels maxLevels start middle end_.
Proof.
  unfold Segment.finished, Segment.stops, Segment.curveCriterion,
    Segment.distanceCriterion.
  destruct (Z.eqb_spec maxLevels 0) as [M | M]; simpl.
  - split; [intros _; left; exact M | reflexivity].
  - destruct (Z.leb_spec minLevels 0) as [L | L].
    + rewrite andb_true_iff. split.
      * intros [C D]. right. auto.
      * intros [M0 | (_ & C & D)]; [contradiction | auto].
    + split; [discriminate|].
      intros [M0 | (L0 & _)]; [contradiction | lia].
Qed.

Lemma toPiecewiseLinearSegments_total (fuel : nat) :
  forall (options : Options) (minLevels maxLevels : Z) (segments : list Line)
         (start end_ : Vector2) (this : S),
    (0 <= maxLevels)%Z -> (Z.to_nat maxLevels < fuel)%nat ->
    exists added,
      Segment.toPiecewiseLinearSegments_rec distToSegmentSquared fuel options
        minLevels maxLevels segments start end_ this = Some (segments ++ added)
      /\ added <> [].
Proof.
  induction fuel as [| fuel IH]; intros options minLevels maxLevels segments
    start end_ this M F; [lia|].
  cbn [Segment.toPiecewiseLinearSegments_rec].
  destruct (Segment.finished distToSegmentSquared options minLevels maxLevels start
              (Segment.pointMapOf options (seg_positionAt this (1 # 2))) end_) eqn:E.
  - exists [ Line.new start end_ ]. split; [reflexivity | discriminate].
  - assert (M1 : maxLevels <> 0%Z).
    { intros Z0. subst maxLevels. unfold Segment.finished in E. simpl in E.
      discriminate E. }
    assert (M2 : (0 <= maxLevels - 1)%Z) by lia.
    assert (F2 : (Z.to_nat (maxLevels - 1) < fuel)%nat) by lia.
    destruct (IH options (minLevels - 1)%Z (maxLevels - 1)%Z segments start
                (Segment.pointMapOf options (seg_positionAt this (1 # 2)))
                (fst (seg_subdivided this (1 # 2))) M2 F2) as (a1 & R1 & N1).
    rewrite R1.
    destruct (IH options (minLevels - 1)%Z (maxLevels - 1)%Z (segments ++ a1)
                (Segment.pointMapOf options (seg_positionAt this (1 # 2))) end_
                (snd (seg_subdivided this (1 # 2))) M2 F2) as (a2 & R2 & N2).
    rewrite R2. exists (a1 ++ a2). split.
    + rewrite app_assoc. reflexivity.
    + destruct a1; [congruence | discriminate].
Qed.

(** C7. With [middle] the mapped midpoint of the piece, the piece is
    finished, and one line from [start] to [end] is pushed, exactly
    when [maxLevels] is 0, or [minLevels] is at most 0 and both the
    curve criterion and the distance criterion pass, a criterion whose
    epsilon is null passing at once; otherwise the piece is split at
    one half and both halves are processed in order with both levels
    one lower.  Given a [maxLevels] that is not negative the recursion
    ends, having added at least one line. *)
Theorem toPiecewiseLinearSegments_stopping_rule (fuel : nat) (options : Options)
    (minLevels maxLevels : Z) (segments : list Line) (start end_ : Vector2) (this : S) :
  let middle := Segment.pointMapOf options (seg_positionAt this (1 # 2)) in
  let run := Segment.toPiecewiseLinearSegments_rec distToSegmentSquared in
  let stop := Segment.stops distToSegmentSquared options minLevels maxLevels
                start middle end_ in
  (Segment.finished distToSegmentSquared options minLevels maxLevels start middle end_
   = true <-> stop) /\
  (stop ->
   run (Datatypes.S fuel) options minLevels maxLevels segments start end_ this
   = Some (segments ++ [ Line.new start end_ ])) /\
  (~ stop ->
   run (Datatypes.S fuel) options minLevels maxLevels segments start end_ this
   = match run fuel options (minLevels - 1)%Z (maxLevels - 1)%Z segments start middle
             (fst (seg_subdivided this (1 # 2))) with
     | Some segments' =>
         run fuel options (minLevels - 1)%Z (maxLevels - 1)%Z segments' middle end_
             (snd (seg_subdivided this (1 # 2)))
     | None => None
     end) /\
  ((0 <= maxLevels)%Z -> (Z.to_nat maxLevels <= fuel)%nat ->
   exists added,
     run (Datatypes.S fuel) options minLevels maxLevels segments start end_ this
     = Some (segments ++ added) /\ added <> []).
Proof.
  intros middle run stop.
  split; [apply finished_iff_stops|]. split; [|split].
  - intros St. apply finished_iff_stops in St.
    subst run. cbn [Segment.toPiecewiseLinearSegments_rec].
    fold middle. rewrite St. reflexivity.
  - intros NSt.
    assert (E : Segment.finished distToSegmentSquared options minLevels maxLevels
                  start middle end_ = false).
    { apply not_true_is_false. intros E. apply NSt. apply finished_iff_stops. exact E. }
    subst run. cbn [Segment.toPiecewiseLinearSegments_rec].
    fold middle. rewrite E. reflexivity.
  - intros M F. apply toPiecewiseLinearSegments_total; [exact M | lia].
Qed.

End PiecewiseLinearFacts.

Lemma toPiecewiseLinearSegments_stopping_rule_witness :
  let q := Quadratic.new (v2 0 0) (v2 1 2) (v2 2 0) in
  let options := mkOptions 0 3 (Some (1 # 100)) None None in
  (0 <= 3)%Z /\ (Z.to_nat 3 <= 3)%nat /\
  exists added,
    Segment.toPiecewiseLinearSegments_rec exampleDistToSegmentSquared 4 options 0 3 []
      (v2 0 0) (v2 2 0) q = Some ([] ++ added) /\ added <> [].
Proof.
  intros q options.
  assert (M : (0 <= 3)%Z) by lia.
  assert (F : (Z.to_nat 3 <= 3)%nat) by (simpl; lia).
  split; [exact M|]. split; [exact F|].
  exact (proj2 (proj2 (proj2
           (@toPiecewiseLinearSegments_stopping_rule exampleDistToSegmentSquared
              Quadratic Quadratic_SegmentLike 3 options 0%Z 3%Z [] (v2 0 0) (v2 2 0) q)))
           M F).
Defined.

Example piecewise_four_lines :
  option_map (@length Line)
    (Segment.toPiecewiseLinearSegments exampleDistToSegmentSquared 10
       (mkOptions 0 3 (Some (1 # 100)) None None)
       (Quadratic.new (v2 0 0) (v2 1 2) (v2 2 0))) = Some 4%nat.
Proof. vm_compute. reflexivity. Qed.

Example piecewise_max_levels_zero :
  Segment.toPiecewiseLinearSegments exampleDistToSegmentSquared 10
    (mkOptions 0 0 (Some (1 # 100)) None None)
    (Quadratic.new (v2 0 0) (v2 1 2) (v2 2 0))
  = Some [ Line.new (v2 0 0) (v2 2 0) ].
Proof. vm_compute. reflexivity. Qed.

Example piecewise_min_levels_force :
  option_map (@length Line)
    (Segment.toPiecewiseLinearSegments exampleDistToSegmentSquared 10
       (mkOptions 2 3 (Some 2) None None)
       (Quadratic.new (v2 0 0) (v2 1 2) (v2 2 0))) = Some 4%nat.
Proof. vm_compute. reflexivity. Qed.

(** *** The offset of an elliptical arc *)

Section OffsetFacts.
Context `{MathLib}.

Lemma offsetLoop_spec (a : EllipticalArc) (r : Q) (reverse : bool) (indices : list nat) :
  forall result pieces,
    EllipticalArc.offsetLoop a r reverse indices result = Some pieces ->
    exists points,
      pieces = result ++ map LineTo points /\
      map Some points = map (EllipticalArc.offsetPoint a r reverse) indices.
Proof.
  induction indices as [| i rest IH]; intros result pieces R; simpl in R.
  - inversion R; subst. exists []. rewrite app_nil_r. split; reflexivity.
  - destruct (EllipticalArc.offsetPoint a r reverse i) as [p |] eqn:E; [|discriminate].
    destruct (IH _ _ R) as (points & P1 & P2).
    exists (p :: points). split.
    + rewrite P1, <- app_assoc. reflexivity.
    + simpl. rewrite E, P2. reflexivity.
Qed.

Lemma offsetLoop_total (a : EllipticalArc) (r : Q) (reverse : bool) (indices : list nat) :
  (forall i, In i indices -> EllipticalArc.offsetPoint a r reverse i <> None) ->
  forall result, EllipticalArc.offsetLoop a r reverse indices result <> None.
Proof.
  induction indices as [| i rest IH]; intros OK result; simpl; [discriminate|].
  destruct (EllipticalArc.offsetPoint a r reverse i) as [p |] eqn:E.
  - apply IH. intros j Hj. apply OK. right. exact Hj.
  - exfalso. apply (OK i); [left; reflexivity | exact E].
Qed.

(** C8, as the code has it. Whenever [offsetTo] returns, it returns 31
    [LineTo] pieces, one per index from 1 to 31: the piece of index [i]
    goes to the position of the arc at the angle of ratio [i / 31]
    (counted from the other end when reversed) plus [r] times the unit
    vector perpendicular to the tangent there.  It returns whenever no
    sampled tangent has magnitude zero.  [strokeLeft] and [strokeRight]
    are [offsetTo] at minus and plus half the line width. *)
Theorem EllipticalArc_offsetTo_pieces (a : EllipticalArc) (r : Q) (reverse : bool) :
  (forall pieces,
     EllipticalArc.offsetTo a r reverse = Some pieces ->
     length pieces = 31%nat /\
     forall k, (k < 31)%nat ->
       exists n,
         Vector2.normalized
           (Vector2.perpendicular
              (EllipticalArc.tangentAtAngle a
                 (EllipticalArc.angleAt a (EllipticalArc.ratioAt reverse (Datatypes.S k)))))
         = Some n /\
         nth_error pieces k
         = Some (LineTo
                   (Vector2.plus
                      (EllipticalArc.positionAtAngle a
                         (EllipticalArc.angleAt a
                            (EllipticalArc.ratioAt reverse (Datatypes.S k))))
                      (Vector2.times n r)))) /\
  ((forall i, (1 <= i <= 31)%nat -> EllipticalArc.offsetPoint a r reverse i <> None) ->
   EllipticalArc.offsetTo a r reverse <> None) /\
  (forall lineWidth,
     EllipticalArc.strokeLeft a lineWidth = EllipticalArc.offsetTo a (- lineWidth / 2) false /\
     EllipticalArc.strokeRight a lineWidth = EllipticalArc.offsetTo a (lineWidth / 2) true).
Proof.
  split; [|split].
  - intros pieces R. unfold EllipticalArc.offsetTo in R.
    destruct (offsetLoop_spec _ _ _ _ _ R) as (points & P1 & P2).
    simpl app in P1. subst pieces.
    assert (L : length points = 31%nat).
    { apply (f_equal (@length _)) in P2. rewrite !length_map, length_seq in P2.
      exact P2. }
    split; [rewrite length_map; exact L|].
    intros k K.
    assert (N : nth_error (map Some points) k
                = nth_error (map (EllipticalArc.offsetPoint a r reverse)
                                 (seq 1 (EllipticalArc.quantity - 1))) k)
      by (rewrite P2; reflexivity).
    rewrite !nth_error_map in N.
    assert (Sq : nth_error (seq 1 (EllipticalArc.quantity - 1)) k = Some (Datatypes.S k)).
    { rewrite nth_error_seq. change (EllipticalArc.quantity - 1)%nat with 31%nat.
      destruct (Nat.ltb_spec k 31); [reflexivity | lia]. }
    rewrite Sq in N. simpl in N.
    destruct (nth_error points k) as [p |] eqn:Ep; simpl in N; [|discriminate].
    inversion N as [N']. symmetry in N'.
    unfold EllipticalArc.offsetPoint in N'.
    destruct (Vector2.normalized _) as [n |] eqn:En; [|discriminate].
    exists n. split; [reflexivity|].
    rewrite nth_error_map, Ep. simpl. inversion N'. reflexivity.
  - intros OK. unfold EllipticalArc.offsetTo. apply offsetLoop_total.
    intros i Hi. apply in_seq in Hi. apply OK.
    change (EllipticalArc.quantity - 1)%nat with 31%nat in Hi. lia.
  - intros lineWidth. split; reflexivity.
Qed.

End OffsetFacts.

Lemma EllipticalArc_offsetTo_pieces_witness :
  exists pieces,
    EllipticalArc.offsetTo exampleArc 1 false = Some pieces /\
    length pieces = 31%nat.
Proof.
  destruct (EllipticalArc.offsetTo exampleArc 1 false) as [pieces |] eqn:E.
  - exists pieces. split; [reflexivity|].
    exact (proj1 (proj1 (@EllipticalArc_offsetTo_pieces exampleMath exampleArc 1 false)
                    pieces E)).
  - exfalso. vm_compute in E. discriminate E.
Defined.

(** The quarter ellipse stroked at width 2: 31 pieces on either side,
    where 32 segments are announced. *)
Example EllipticalArc_stroke_31 :
  option_map (@length Piece) (EllipticalArc.strokeLeft exampleArc 2) = Some 31%nat /\
  option_map (@length Piece) (EllipticalArc.strokeRight exampleArc 2) = Some 31%nat /\
  EllipticalArc.quantity = 32%nat.
Proof. vm_compute. repeat split. Qed.

(** *** Point containment *)

Lemma containsPoint_windingIntersection (point : Vector2) (s : Shape.Shape) :
  Shape.containsPoint point s
  = option_map (fun wind => negb (wind =? 0)%Z)
               (Shape.windingIntersection (ray2 point Vector2.X_UNIT) s).
Proof.
  unfold Shape.containsPoint.
  destruct (Shape.windingIntersection _ s); reflexivity.
Qed.

(** C1. On the unit square built by [rect( 0, 0, 1, 1 )], [containsPoint]
    is true at (0.5, 0.5) and false at (2, 2); for every shape and
    point, [containsPoint] is true exactly when the winding number of
    the shape over the ray from the point in direction (1, 0) is not
    zero. *)
Theorem unitSquare_containsPoint :
  Shape.containsPoint (v2 (1 # 2) (1 # 2)) unitSquare = Some true /\
  Shape.containsPoint (v2 2 2) unitSquare = Some false /\
  Shape.windingIntersection (ray2 (v2 (1 # 2) (1 # 2)) Vector2.X_UNIT) unitSquare
  = Some 1%Z /\
  Shape.windingIntersection (ray2 (v2 2 2) Vector2.X_UNIT) unitSquare = Some 0%Z /\
  (forall point s result,
     Shape.containsPoint point s = Some result <->
     exists wind,
       Shape.windingIntersection (ray2 point Vector2.X_UNIT) s = Some wind /\
       (result = true <-> wind <> 0%Z)).
Proof.
  split; [vm_compute; reflexivity|].
  split; [vm_compute; reflexivity|].
  split; [vm_compute; reflexivity|].
  split; [vm_compute; reflexivity|].
  intros point s result. rewrite containsPoint_windingIntersection.
  destruct (Shape.windingIntersection (ray2 point Vector2.X_UNIT) s) as [w |]; simpl.
  - split.
    + intros E. inversion E; subst. exists w. split; [reflexivity|].
      rewrite negb_true_iff, Z.eqb_neq. tauto.
    + intros (w' & E & R). inversion E; subst w'. f_equal.
      destruct result.
      * apply negb_true_iff, Z.eqb_neq. apply R. reflexivity.
      * apply negb_false_iff, Z.eqb_eq.
        destruct (Z.eq_dec w 0) as [Z0 | NZ]; [exact Z0|].
        apply R in NZ. discriminate NZ.
  - split; [discriminate|]. intros (w & E & _). discriminate E.
Qed.

Example unitSquare_edges_from_centre :
  let ray := ray2 (v2 (1 # 2) (1 # 2)) Vector2.X_UNIT in
  Line.windingIntersection (Line.new (v2 0 0) (v2 1 0)) ray = 0%Z /\
  Line.windingIntersection (Line.new (v2 1 0) (v2 1 1)) ray = 1%Z /\
  Line.windingIntersection (Line.new (v2 1 1) (v2 0 1)) ray = 0%Z /\
  Line.windingIntersection (Line.new (v2 0 1) (v2 0 0)) ray = 0%Z /\
  Subpath.hasClosingSegment (hd Subpath.new (Shape.subpaths unitSquare)) = Some true.
Proof. vm_compute. repeat split. Qed.

(** *** Drawing into an empty shape *)

(** C9. [lineToPoint] on a shape without subpaths adds no segment: the
    shape gets one subpath that holds the point alone, so no subpath is
    drawable; the point is the last point of the shape, from which the
    next [lineToPoint] draws its line. *)
Theorem lineToPoint_on_empty_shape (s : Shape.Shape) (point : Vector2) :
  Shape.hasSubpaths s = false ->
  exists s',
    Shape.lineToPoint point s = Some s' /\
    Shape.subpaths s' = [ mkSubpath [ point ] [] false ] /\
    (forall subpath, In subpath (Shape.subpaths s') ->
                     Subpath.isDrawable subpath = false) /\
    Shape.getLastPoint s' = Some point /\
    Shape.getRelativePoint s' = point /\
    forall next,
      exists s'',
        Shape.lineToPoint next s' = Some s'' /\
        Shape.subpaths s''
        = [ mkSubpath [ point; next ]
                      (if Vector2.equals point next then []
                       else [ Line.new point next ])
                      false ].
Proof.
  intros E. unfold Shape.hasSubpaths in E.
  destruct s as [sps b qc cc inv]. simpl in E.
  destruct sps as [| sp sps]; [clear E | discriminate E].
  destruct inv;
    (eexists; split; [reflexivity|];
     split; [reflexivity|];
     split; [intros subpath [I | []]; subst; reflexivity|];
     split; [reflexivity|];
     split; [reflexivity|];
     intros next; eexists; split; [reflexivity|];
     unfold Shape.addSegmentAndBounds, Shape.onLastSubpath, Shape.invalidate,
       Shape.resetControlPoints, Subpath.addSegment, Subpath.addPoint, Line.new;
     cbn -[Vector2.equals];
     destruct (Vector2.equals point next); reflexivity).
Qed.

Lemma lineToPoint_on_empty_shape_witness :
  Shape.hasSubpaths Shape.new = false /\
  exists s',
    Shape.lineToPoint (v2 3 4) Shape.new = Some s' /\
    Shape.subpaths s' = [ mkSubpath [ v2 3 4 ] [] false ].
Proof.
  assert (E : Shape.hasSubpaths Shape.new = false) by reflexivity.
  split; [exact E|].
  destruct (@lineToPoint_on_empty_shape Shape.new (v2 3 4) E) as (s' & L & P & _).
  exists s'. split; assumption.
Defined.

(** The triangle of [moveTo( 0, 0 ).lineTo( 10, 0 ).lineTo( 10, 10 )]:
    one subpath of three points and two lines, closed implicitly for
    the winding number. *)
Example triangle_by_lineTo :
  match Shape.lineTo 10 0 (Shape.moveTo 0 0 Shape.new) with
  | Some s =>
      match Shape.lineTo 10 10 s with
      | Some s' =>
          Shape.subpaths s'
          = [ mkSubpath [ v2 0 0; v2 10 0; v2 10 10 ]
                        [ Line.new (v2 0 0) (v2 10 0); Line.new (v2 10 0) (v2 10 10) ]
                        false ]
          /\ Shape.containsPoint (v2 8 1) s' = Some true
          /\ Shape.containsPoint (v2 1 8) s' = Some false
      | None => False
      end
  | None => False
  end.
Proof. vm_compute. repeat split. Qed.

(** *** The invalidating setters *)

Section TangentFacts.
Context `{MathLib}.

(** A tangent getter that returns has stored its value, and answers
    the next call from the cache. *)
Lemma getStartTangent_fills_cache (q q1 : Quadratic) (v : Vector2) :
  Quadratic.getStartTangent q = Some (v, q1) ->
  _startTangent q1 = Some v /\ Quadratic.getStartTangent q1 = Some (v, q1).
Proof.
  unfold Quadratic.getStartTangent at 1.
  destruct (_startTangent q) as [c |] eqn:E.
  - intros R. inversion R; subst. split; [exact E|].
    unfold Quadratic.getStartTangent. rewrite E. reflexivity.
  - destruct (if Vector2.equals (_start q) (_control q) then _ else _) as [n |];
      [|discriminate].
    intros R. inversion R; subst. split; reflexivity.
Qed.

Lemma getEndTangent_fills_cache (q q1 : Quadratic) (v : Vector2) :
  Quadratic.getEndTangent q = Some (v, q1) ->
  _endTangent q1 = Some v /\ Quadratic.getEndTangent q1 = Some (v, q1).
Proof.
  unfold Quadratic.getEndTangent at 1.
  destruct (_endTangent q) as [c |] eqn:E.
  - intros R. inversion R; subst. split; [exact E|].
    unfold Quadratic.getEndTangent. rewrite E. reflexivity.
  - destruct (if Vector2.equals (_end q) (_control q) then _ else _) as [n |];
      [|discriminate].
    intros R. inversion R; subst. split; reflexivity.
Qed.

End TangentFacts.

(** C10. For each of the generated setters of Quadratic (start,
    control, end), which compare the reference held with the reference
    passed: when the object passed is the one the property already
    holds, the segment is returned as it is, caches included; when it
    is another object, whatever its coordinates, equal to the ones held
    or not, the property holds the new object, the two other points are
    kept, and the start tangent, the end tangent, both critical
    parameters and the bounds are cleared, which leaves the segment as
    the constructor builds it from its three points, so that every
    getter computes its value anew. *)
Theorem setProperty_invalidates (name : PropertyName) (value : Vector2Object)
    (this : QuadraticObject) :
  (reference value = Quadratic.heldReference name this ->
   Quadratic.setProperty name value this = this) /\
  (reference value <> Quadratic.heldReference name this ->
   let this' := Quadratic.setProperty name value this in
   let q' := segment this' in
   Quadratic.heldReference name this' = reference value /\
   Quadratic.getProperty name q' = coordinates value /\
   (forall other, other <> name ->
      Quadratic.heldReference other this' = Quadratic.heldReference other this /\
      Quadratic.getProperty other q' = Quadratic.getProperty other (segment this)) /\
   _startTangent q' = None /\ _endTangent q' = None /\
   _tCriticalX q' = None /\ _tCriticalY q' = None /\ _bounds q' = None /\
   q' = Quadratic.new (_start q') (_control q') (_end q') /\
   fst (Quadratic.getBounds q')
   = fst (Quadratic.getBounds (Quadratic.new (_start q') (_control q') (_end q')))).
Proof.
  unfold Quadratic.setProperty. split; intros I.
  - rewrite I, Pos.eqb_refl. reflexivity.
  - assert (E : Pos.eqb (Quadratic.heldReference name this) (reference value) = false).
    { apply Pos.eqb_neq. intros C. apply I. symmetry. exact C. }
    rewrite E. cbn [negb]. cbv zeta.
    destruct name; cbn; repeat split;
      try reflexivity; destruct other; try reflexivity; congruence.
Qed.

Lemma setProperty_invalidates_witness :
  let this :=
    mkQuadraticObject
      (snd (Quadratic.getBounds (Quadratic.new (v2 0 0) (v2 1 2) (v2 2 0))))
      1%positive 2%positive 3%positive in
  _bounds (segment this) <> None /\
  Quadratic.setProperty control_name (mkVector2Object 2%positive (v2 1 2)) this = this /\
  _bounds (segment (Quadratic.setProperty control_name
                      (mkVector2Object 4%positive (v2 1 2)) this)) = None /\
  _control (segment (Quadratic.setProperty control_name
                       (mkVector2Object 4%positive (v2 1 3)) this)) = v2 1 3.
Proof.
  intros this.
  pose proof (proj1 (@setProperty_invalidates control_name
                       (mkVector2Object 2%positive (v2 1 2)) this) eq_refl) as Same.
  assert (D : 4%positive <> Quadratic.heldReference control_name this) by discriminate.
  pose proof (proj2 (@setProperty_invalidates control_name
                       (mkVector2Object 4%positive (v2 1 2)) this) D) as Equal.
  pose proof (proj2 (@setProperty_invalidates control_name
                       (mkVector2Object 4%positive (v2 1 3)) this) D) as Other.
  cbv zeta in Equal, Other.
  destruct Equal as (_ & _ & _ & _ & _ & _ & _ & B & _).
  destruct Other as (_ & V & _).
  split; [vm_compute; discriminate|]. split; [exact Same|].
  split; [exact B | exact V].
Defined.


(** * Further properties *)

(** ** The algebra of the quadratic *)

Lemma positionAt_param (q : Quadratic) (t t' : Q) :
  t == t' -> Vector2.same (Quadratic.positionAt q t) (Quadratic.positionAt q t').
Proof. intros E. split; simpl; rewrite E; reflexivity. Qed.

(** X1. [tangentAt] is the derivative of [positionAt]: the position
    advances from [t] to [t + h] by [h] times the tangent at [t] plus
    [h * h] times the second difference of the three points; at the two
    ends the tangent is twice the first and twice the last leg of the
    control polygon. *)
Theorem Quadratic_tangentAt_is_derivative (q : Quadratic) (t h : Q) :
  Vector2.same
    (Vector2.minus (Quadratic.positionAt q (t + h)) (Quadratic.positionAt q t))
    (Vector2.plus
       (Vector2.times (Quadratic.tangentAt q t) h)
       (Vector2.times
          (Vector2.plus (Vector2.minus (_start q) (Vector2.timesScalar (_control q) 2))
                        (_end q))
          (h * h))) /\
  Vector2.same (Quadratic.tangentAt q 0)
               (Vector2.times (Vector2.minus (_control q) (_start q)) 2) /\
  Vector2.same (Quadratic.tangentAt q 1)
               (Vector2.times (Vector2.minus (_end q) (_control q)) 2).
Proof. repeat split; simpl; ring. Qed.

(** X2. [reversed] runs the same curve backwards: its position at [t] is
    the position of the original at [1 - t], its ends are swapped, and
    reversing twice gives the original points back. *)
Theorem Quadratic_reversed_runs_backwards (q : Quadratic) (t : Q) :
  Vector2.same (Quadratic.positionAt (Quadratic.reversed q) t)
               (Quadratic.positionAt q (1 - t)) /\
  _start (Quadratic.reversed q) = _end q /\
  _end (Quadratic.reversed q) = _start q /\
  Vector2.same (Quadratic.tangentAt (Quadratic.reversed q) t)
               (Vector2.negated (Quadratic.tangentAt q (1 - t))) /\
  Quadratic.reversed (Quadratic.reversed q)
  = Quadratic.new (_start q) (_control q) (_end q).
Proof. repeat split; simpl; ring. Qed.

(** X3. [reparameterized( a, b )] is the curve [x |-> positionAt( a * x + b )],
    for every [a] and [b]; the two halves of [subdivided( t )] are the
    reparameterizations by [(t, 0)] and by [(1 - t, t)]. *)
Theorem Quadratic_reparameterized_substitutes (q : Quadratic) (a b u : Q) :
  Vector2.same (Quadratic.positionAt (Quadratic.reparameterized q a b) u)
               (Quadratic.positionAt q (a * u + b)) /\
  (forall t,
     Vector2.same (Quadratic.positionAt (fst (Quadratic.subdivided q t)) u)
                  (Quadratic.positionAt (Quadratic.reparameterized q t 0) u) /\
     Vector2.same (Quadratic.positionAt (snd (Quadratic.subdivided q t)) u)
                  (Quadratic.positionAt (Quadratic.reparameterized q (1 - t) t) u)).
Proof. repeat split; simpl; ring. Qed.

(** X4. [degreeElevated] gives a cubic with the same ends that is the
    same curve: the two agree in position at every parameter, and the
    tangent of the cubic is the tangent of the quadratic. *)
Theorem Quadratic_degreeElevated_same_curve (q : Quadratic) (t : Q) :
  Vector2.same (Cubic.positionAt (Quadratic.degreeElevated q) t)
               (Quadratic.positionAt q t) /\
  Vector2.same (Cubic.tangentAt (Quadratic.degreeElevated q) t)
               (Quadratic.tangentAt q t) /\
  cubic_start (Quadratic.degreeElevated q) = _start q /\
  cubic_end (Quadratic.degreeElevated q) = _end q.
Proof. repeat split; simpl; field. Qed.

(** X5. The de Casteljau split of a cubic at any [t]: the first half
    traces the cubic over [[0,t]], the second over [[t,1]], they meet at
    [positionAt( t )], and the tangent of the whole is the derivative of
    its position. *)
Theorem Cubic_subdivided_covers (c : Cubic) (t u : Q) :
  let left := fst (Cubic.subdivided c t) in
  let right := snd (Cubic.subdivided c t) in
  Vector2.same (Cubic.positionAt left u) (Cubic.positionAt c (t * u)) /\
  Vector2.same (Cubic.positionAt right u) (Cubic.positionAt c (t + (1 - t) * u)) /\
  Vector2.same (cubic_end left) (Cubic.positionAt c t) /\
  cubic_start right = cubic_end left /\
  cubic_start left = cubic_start c /\ cubic_end right = cubic_end c /\
  Vector2.same (Cubic.tangentAt left u)
               (Vector2.times (Cubic.tangentAt c (t * u)) t).
Proof. repeat split; simpl; ring. Qed.

(** ** Critical parameters *)

Lemma getTCriticalX_value (q : Quadratic) :
  cachesValid q ->
  fst (Quadratic.getTCriticalX q)
  = Quadratic.extremaT (x (_start q)) (x (_control q)) (x (_end q)).
Proof.
  intros (VX & _ & _). unfold Quadratic.getTCriticalX.
  destruct (_tCriticalX q) as [t |] eqn:E; simpl; [|reflexivity].
  rewrite (VX t eq_refl). reflexivity.
Qed.

Lemma getTCriticalY_value (q : Quadratic) :
  cachesValid q ->
  fst (Quadratic.getTCriticalY q)
  = Quadratic.extremaT (y (_start q)) (y (_control q)) (y (_end q)).
Proof.
  intros (_ & VY & _). unfold Quadratic.getTCriticalY.
  destruct (_tCriticalY q) as [t |] eqn:E; simpl; [|reflexivity].
  rewrite (VY t eq_refl). reflexivity.
Qed.

Lemma extremaT_cases (a b c : Q) :
  (c - 2 * b + a == 0 /\ Quadratic.extremaT a b c = NaN) \/
  (~ c - 2 * b + a == 0 /\
   exists t, Quadratic.extremaT a b c = Fin t /\
             (b - a) * (2 * (1 - t)) + (c - b) * (2 * t) == 0).
Proof.
  destruct (Qeq_dec (c - 2 * b + a) 0) as [Z | NZ].
  - left. split; [exact Z | apply extremaT_NaN; exact Z].
  - right. split; [exact NZ|].
    destruct (@extremaT_finite a b c NZ) as (t & E & P).
    exists t. split; [exact E|].
    assert (I : (b - a) * (2 * (1 - t)) + (c - b) * (2 * t)
                == 2 * (t * (c - 2 * b + a) - (a - b))) by ring.
    rewrite I, P. ring.
Qed.

Lemma Quadratic_critical_parameter_zeroes_tangent_aux (q : Quadratic) :
  cachesValid q ->
  (forall t, Quadratic.extremaT (x (_start q)) (x (_control q)) (x (_end q)) = Fin t ->
             x (Quadratic.tangentAt q t) == 0) /\
  (forall t, Quadratic.extremaT (y (_start q)) (y (_control q)) (y (_end q)) = Fin t ->
             y (Quadratic.tangentAt q t) == 0).
Proof.
  intros _. split; intros t E.
  - destruct (extremaT_cases (x (_start q)) (x (_control q)) (x (_end q)))
      as [[_ N] | [_ (t' & E' & P)]]; [congruence|].
    rewrite E in E'. inversion E'; subst t'. exact P.
  - destruct (extremaT_cases (y (_start q)) (y (_control q)) (y (_end q)))
      as [[_ N] | [_ (t' & E' & P)]]; [congruence|].
    rewrite E in E'. inversion E'; subst t'. exact P.
Qed.

(** X6. For every state of a Quadratic that the code reaches, the
    critical parameter of a coordinate, cached or computed: when it is
    a finite number, that coordinate of [tangentAt] is zero there and
    at no other parameter; when it is NaN, that coordinate of the
    tangent is the same at every parameter, the coordinate of the curve
    being linear in t. *)
Theorem Quadratic_critical_parameter_zeroes_tangent `{MathLib} (q : Quadratic) :
  reachable q ->
  let tX := fst (Quadratic.getTCriticalX q) in
  let tY := fst (Quadratic.getTCriticalY q) in
  (forall t, tX = Fin t ->
     x (Quadratic.tangentAt q t) == 0 /\
     forall u, x (Quadratic.tangentAt q u) == 0 -> u == t) /\
  (forall t, tY = Fin t ->
     y (Quadratic.tangentAt q t) == 0 /\
     forall u, y (Quadratic.tangentAt q u) == 0 -> u == t) /\
  (tX = NaN ->
   forall u v, x (Quadratic.tangentAt q u) == x (Quadratic.tangentAt q v)) /\
  (tY = NaN ->
   forall u v, y (Quadratic.tangentAt q u) == y (Quadratic.tangentAt q v)).
Proof.
  intros R tX tY. subst tX tY.
  pose proof (reachable_cachesValid R) as V.
  rewrite (getTCriticalX_value V), (getTCriticalY_value V).
  assert (G : forall a b c,
             (forall t, Quadratic.extremaT a b c = Fin t ->
                (b - a) * (2 * (1 - t)) + (c - b) * (2 * t) == 0 /\
                forall u, (b - a) * (2 * (1 - u)) + (c - b) * (2 * u) == 0 -> u == t) /\
             (Quadratic.extremaT a b c = NaN ->
              forall u v, (b - a) * (2 * (1 - u)) + (c - b) * (2 * u)
                          == (b - a) * (2 * (1 - v)) + (c - b) * (2 * v))).
  { intros a b c.
    destruct (extremaT_cases a b c) as [[Z E] | [NZ (t & E & P)]]; rewrite E.
    - split; [discriminate|]. intros _ u v.
      assert (I : (b - a) * (2 * (1 - u)) + (c - b) * (2 * u)
                  - ((b - a) * (2 * (1 - v)) + (c - b) * (2 * v))
                  == 2 * (u - v) * (c - 2 * b + a)) by ring.
      rewrite Z in I. lra.
    - split; [|discriminate].
      intros t' Et. inversion Et; subst t'. split; [exact P|].
      intros u U.
      assert (D : (u - t) * (c - 2 * b + a) == 0).
      { assert (I : 2 * ((u - t) * (c - 2 * b + a))
                    == ((b - a) * (2 * (1 - u)) + (c - b) * (2 * u))
                       - ((b - a) * (2 * (1 - t)) + (c - b) * (2 * t))) by ring.
        rewrite U, P in I. lra. }
      apply Qmult_integral in D. destruct D as [D | D]; [lra | contradiction]. }
  destruct (G (x (_start q)) (x (_control q)) (x (_end q))) as (GX1 & GX2).
  destruct (G (y (_start q)) (y (_control q)) (y (_end q))) as (GY1 & GY2).
  split; [exact GX1|]. split; [exact GY1|]. split; [exact GX2 | exact GY2].
Qed.

Lemma Quadratic_critical_parameter_zeroes_tangent_witness :
  let q := snd (Quadratic.getBounds (Quadratic.new (v2 0 0) (v2 1 2) (v2 2 0))) in
  fst (Quadratic.getTCriticalY q) = Fin (-2 * (2 - 0) / (2 * (0 - 2 * 2 + 0))) /\
  y (Quadratic.tangentAt q (-2 * (2 - 0) / (2 * (0 - 2 * 2 + 0)))) == 0.
Proof.
  intros q.
  assert (R : @reachable exampleMath q)
    by (apply reachable_getBounds; apply reachable_new).
  assert (E : fst (Quadratic.getTCriticalY q)
              = Fin (-2 * (2 - 0) / (2 * (0 - 2 * 2 + 0)))) by reflexivity.
  split; [exact E|].
  exact (proj1 (proj1 (proj2
           (@Quadratic_critical_parameter_zeroes_tangent exampleMath q R)) _ E)).
Defined.

Lemma wellInside_Fin (n : number) :
  Quadratic.wellInside n = true ->
  exists t, n = Fin t /\ Quadratic.extremaEpsilon < t /\ t < 1 - Quadratic.extremaEpsilon.
Proof.
  destruct n as [t | | |]; simpl; try discriminate.
  rewrite andb_true_iff, !Num_ltb_lt. intros [A B]. exists t. auto.
Qed.

Lemma getInteriorExtremaTs_unsorted (sort : list number -> list number) (q : Quadratic) :
  cachesValid q ->
  let tX := Quadratic.extremaT (x (_start q)) (x (_control q)) (x (_end q)) in
  let tY := Quadratic.extremaT (y (_start q)) (y (_control q)) (y (_end q)) in
  fst (Quadratic.getInteriorExtremaTs sort q)
  = sort ((if Quadratic.wellInside tX then [ tX ] else [])
          ++ (if Quadratic.wellInside tY then [ tY ] else [])).
Proof.
  destruct q as [s c e st et tx ty bb]. intros (VX & VY & _) tX tY.
  unfold Quadratic.invalidate in VX, VY. simpl in VX, VY, tX, tY.
  unfold Quadratic.getInteriorExtremaTs, Quadratic.getTCriticalX, Quadratic.getTCriticalY.
  destruct tx as [tx |]; [ rewrite (VX tx eq_refl) | ];
    (destruct ty as [ty |]; [ rewrite (VY ty eq_refl) | ]);
    simpl; fold tX tY;
    destruct (Quadratic.wellInside tX); destruct (Quadratic.wellInside tY);
    reflexivity.
Qed.

Section InteriorExtrema.
Context `{MathLib}.
Variable sort : list number -> list number.
Hypothesis sort_permutes : forall l, Permutation (sort l) l.

(** X7. On every state of a Quadratic that the code reaches, and
    whatever order the array sort leaves them in,
    [getInteriorExtremaTs] returns at most two parameters, each a
    number strictly between the tolerance 1e-10 and one minus it at
    which the x or the y coordinate of the tangent vanishes. *)
Theorem getInteriorExtremaTs_are_interior_extrema (q : Quadratic) :
  reachable q ->
  let ts := fst (Quadratic.getInteriorExtremaTs sort q) in
  (length ts <= 2)%nat /\
  forall n, In n ts ->
    exists t, n = Fin t /\
      Quadratic.extremaEpsilon < t /\ t < 1 - Quadratic.extremaEpsilon /\
      (x (Quadratic.tangentAt q t) == 0 \/ y (Quadratic.tangentAt q t) == 0).
Proof.
  intros R ts. subst ts. pose proof (reachable_cachesValid R) as V.
  rewrite (getInteriorExtremaTs_unsorted sort V).
  set (tX := Quadratic.extremaT (x (_start q)) (x (_control q)) (x (_end q))).
  set (tY := Quadratic.extremaT (y (_start q)) (y (_control q)) (y (_end q))).
  set (l := (if Quadratic.wellInside tX then [ tX ] else [])
            ++ (if Quadratic.wellInside tY then [ tY ] else [])).
  pose proof (sort_permutes l) as P.
  split.
  - rewrite (Permutation_length P). unfold l.
    destruct (Quadratic.wellInside tX); destruct (Quadratic.wellInside tY);
      simpl; lia.
  - intros n I. apply (Permutation_in _ P) in I. unfold l in I.
    apply in_app_or in I.
    destruct (@Quadratic_critical_parameter_zeroes_tangent_aux q V) as (ZX & ZY).
    destruct I as [I | I].
    + destruct (Quadratic.wellInside tX) eqn:W; [|destruct I].
      destruct I as [I | []]. subst n.
      destruct (wellInside_Fin _ W) as (t & E & A & B).
      exists t. split; [exact E|]. split; [exact A|]. split; [exact B|].
      left. apply ZX. exact E.
    + destruct (Quadratic.wellInside tY) eqn:W; [|destruct I].
      destruct I as [I | []]. subst n.
      destruct (wellInside_Fin _ W) as (t & E & A & B).
      exists t. split; [exact E|]. split; [exact A|]. split; [exact B|].
      right. apply ZY. exact E.
Qed.

End InteriorExtrema.

Lemma getInteriorExtremaTs_are_interior_extrema_witness :
  let q := snd (Quadratic.getTCriticalY (Quadratic.new (v2 0 0) (v2 1 2) (v2 2 0))) in
  (forall l : list number, Permutation ((fun l => l) l) l) /\
  fst (Quadratic.getInteriorExtremaTs (fun l => l) q)
  = [ Fin (-2 * (2 - 0) / (2 * (0 - 2 * 2 + 0))) ] /\
  (length (fst (Quadratic.getInteriorExtremaTs (fun l => l) q)) <= 2)%nat.
Proof.
  intros q.
  assert (P : forall l : list number, Permutation ((fun l => l) l) l)
    by (intros l; apply Permutation_refl).
  assert (R : @reachable exampleMath q)
    by (apply reachable_getTCriticalY; apply reachable_new).
  split; [exact P|]. split; [reflexivity|].
  exact (proj1 (@getInteriorExtremaTs_are_interior_extrema exampleMath (fun l => l) P q R)).
Defined.

(** ** Affine maps of a quadratic *)

(** X8. [transformed( matrix )] commutes with evaluation: for every
    matrix, the position of the transformed curve at [t] is the matrix
    applied to the position of the curve at [t]. *)
Theorem Quadratic_transformed_commutes (q : Quadratic) (matrix : Matrix3) (t : Q) :
  Vector2.same (Quadratic.positionAt (Quadratic.transformed q matrix) t)
               (Matrix3.timesVector2 matrix (Quadratic.positionAt q t)) /\
  Vector2.same
    (Quadratic.tangentAt (Quadratic.transformed q matrix) t)
    (Vector2.minus (Matrix3.timesVector2 matrix (Quadratic.tangentAt q t))
                   (Matrix3.timesVector2 matrix Vector2.ZERO)).
Proof. repeat split; simpl; ring. Qed.

(** ** The offset of a quadratic *)

Lemma tracesFrom_shift (q : Quadratic) (a a' h h' : Q) (curves : list Quadratic) :
  a == a' -> h == h' -> tracesFrom q a h curves -> tracesFrom q a' h' curves.
Proof.
  revert a a'. induction curves as [| c rest IH]; intros a a' Ea Eh T; simpl; [exact I|].
  destruct T as [T1 T2]. split.
  - intros u. eapply Vector2_same_trans; [apply T1|].
    apply positionAt_param. rewrite Ea, Eh. reflexivity.
  - apply (IH (a + h) (a' + h')); [rewrite Ea, Eh; reflexivity | exact Eh | exact T2].
Qed.

Lemma halveAll_traces (q : Quadratic) (h : Q) (curves : list Quadratic) :
  forall a, tracesFrom q a h curves ->
            tracesFrom q a (h / 2) (Quadratic.halveAll curves).
Proof.
  induction curves as [| c rest IH]; intros a T; simpl; [exact I|].
  destruct T as [T1 T2]. split; [|split].
  - intros u. eapply Vector2_same_trans; [apply subdivided_left|].
    eapply Vector2_same_trans; [apply T1|].
    apply positionAt_param. field.
  - intros u. eapply Vector2_same_trans; [apply subdivided_right|].
    eapply Vector2_same_trans; [apply T1|].
    apply positionAt_param. field.
  - apply (@tracesFrom_shift q (a + h) (a + h / 2 + h / 2) (h / 2) (h / 2));
      [field | reflexivity | apply IH; exact T2].
Qed.

Lemma halveAll_length (curves : list Quadratic) :
  length (Quadratic.halveAll curves) = (2 * length curves)%nat.
Proof.
  induction curves as [| c rest IH]; [reflexivity|].
  change (Quadratic.halveAll (c :: rest))
    with (fst (Quadratic.subdivided c (1 # 2))
          :: snd (Quadratic.subdivided c (1 # 2)) :: Quadratic.halveAll rest).
  cbn [length]. rewrite IH. lia.
Qed.

Lemma tracesFrom_nth (q : Quadratic) (h : Q) (curves : list Quadratic) :
  forall a k c,
    tracesFrom q a h curves -> nth_error curves k = Some c ->
    forall u, Vector2.same (Quadratic.positionAt c u)
                           (Quadratic.positionAt q (a + h * (inject_Z (Z.of_nat k) + u))).
Proof.
  induction curves as [| c0 rest IH]; intros a k c T N u.
  - destruct k; discriminate N.
  - destruct T as [T1 T2]. destruct k as [| k].
    + simpl in N. inversion N; subst c0.
      eapply Vector2_same_trans; [apply T1|].
      apply positionAt_param. simpl. ring.
    + simpl in N. eapply Vector2_same_trans; [apply (IH _ _ _ T2 N)|].
      apply positionAt_param.
      rewrite Nat2Z.inj_succ, <- Z.add_1_r, inject_Z_plus. simpl. ring.
Qed.

Lemma mapThrowing_nth {A B : Type} (f : A -> option B) (l : list A) :
  forall l', Quadratic.mapThrowing f l = Some l' ->
    length l' = length l /\
    forall k a, nth_error l k = Some a ->
      exists b, f a = Some b /\ nth_error l' k = Some b.
Proof.
  induction l as [| a0 rest IH]; intros l' M; simpl in M.
  - inversion M; subst. split; [reflexivity|]. intros k a N. destruct k; discriminate N.
  - destruct (f a0) as [b0 |] eqn:F; [|discriminate].
    destruct (Quadratic.mapThrowing f rest) as [bs |] eqn:R; [|discriminate].
    inversion M; subst l'. destruct (IH bs eq_refl) as [L N].
    split; [simpl; rewrite L; reflexivity|].
    intros k a Hk. destruct k as [| k]; simpl in *.
    + inversion Hk; subst. exists b0. split; [exact F | reflexivity].
    + apply N. exact Hk.
Qed.

Section QuadraticOffsetFacts.
Context `{MathLib}.

(** X9. Whenever [offsetTo] of a quadratic returns, it returns 32
    curves.  The curve of index [k], counted from the far end when
    reversed and then itself reversed, is [approximateOffset] of the
    piece of the original that runs over the parameters from [k / 32]
    to [(k + 1) / 32]. *)
Theorem Quadratic_offsetTo_pieces (q : Quadratic) (r : Q) (reverse : bool)
    (curves : list Quadratic) :
  Quadratic.offsetTo q r reverse = Some curves ->
  length curves = 32%nat /\
  forall k, (k < 32)%nat ->
    exists piece offsetCurve,
      (forall u, Vector2.same
                   (Quadratic.positionAt piece u)
                   (Quadratic.positionAt q ((inject_Z (Z.of_nat k) + u) / 32))) /\
      Quadratic.approximateOffset piece r = Some offsetCurve /\
      (if reverse
       then nth_error curves (31 - k) = Some (Quadratic.reversed offsetCurve)
       else nth_error curves k = Some offsetCurve).
Proof.
  unfold Quadratic.offsetTo.
  set (pieces := Nat.iter Quadratic.offsetDepth Quadratic.halveAll [ q ]).
  assert (L : length pieces = 32%nat).
  { subst pieces.
    change (Nat.iter Quadratic.offsetDepth Quadratic.halveAll [ q ])
      with (Quadratic.halveAll (Quadratic.halveAll (Quadratic.halveAll
             (Quadratic.halveAll (Quadratic.halveAll [ q ]))))).
    rewrite !halveAll_length. reflexivity. }
  assert (T : tracesFrom q 0 (1 / 32) pieces).
  { subst pieces.
    change (Nat.iter Quadratic.offsetDepth Quadratic.halveAll [ q ])
      with (Quadratic.halveAll (Quadratic.halveAll (Quadratic.halveAll
             (Quadratic.halveAll (Quadratic.halveAll [ q ]))))).
    apply (@tracesFrom_shift q 0 0 (1 / 2 / 2 / 2 / 2 / 2) (1 / 32));
      [reflexivity | reflexivity |].
    do 5 apply halveAll_traces.
    simpl. split; [|exact I]. intros u. apply positionAt_param. field. }
  destruct (Quadratic.mapThrowing (fun curve => Quadratic.approximateOffset curve r) pieces)
    as [offs |] eqn:M; [|discriminate].
  destruct (@mapThrowing_nth _ _ _ pieces offs M) as [LO N].
  intros R.
  assert (Len : length curves = 32%nat).
  { destruct reverse; inversion R; subst curves;
      rewrite ?length_map, ?length_rev; lia. }
  split; [exact Len|].
  intros k K.
  destruct (nth_error pieces k) as [piece |] eqn:P;
    [| apply nth_error_None in P; lia].
  destruct (N k piece P) as (o & AO & NO).
  exists piece, o. split; [|split; [exact AO|]].
  - intros u. eapply Vector2_same_trans; [apply (@tracesFrom_nth q _ pieces 0 k piece T P)|].
    apply positionAt_param. field.
  - destruct reverse; inversion R; subst curves; [|exact NO].
    rewrite nth_error_map, nth_error_rev.
    assert (LT : (31 - k <? length offs)%nat = true) by (apply Nat.ltb_lt; lia).
    rewrite LT.
    replace (length offs - Datatypes.S (31 - k))%nat with k by lia.
    rewrite NO. reflexivity.
Qed.

End QuadraticOffsetFacts.

Lemma Quadratic_offsetTo_pieces_witness :
  exists curves,
    Quadratic.offsetTo (Quadratic.new (v2 0 0) (v2 1 2) (v2 2 0)) 1 false = Some curves /\
    length curves = 32%nat.
Proof.
  destruct (Quadratic.offsetTo (Quadratic.new (v2 0 0) (v2 1 2) (v2 2 0)) 1 false)
    as [curves |] eqn:E.
  - exists curves. split; [reflexivity|].
    exact (proj1 (@Quadratic_offsetTo_pieces exampleMath _ 1 false curves E)).
  - exfalso. vm_compute in E. discriminate E.
Defined.

(** ** Subdividing at a list of parameters *)

Lemma tracesBetween_lift (q r : Quadratic) (t : Q) :
  (forall s, Vector2.same (Quadratic.positionAt r s)
                          (Quadratic.positionAt q (t + (1 - t) * s))) ->
  forall ts' ts pieces a' a,
    Forall2 (fun tj tj' => tj == t + (1 - t) * tj') ts ts' ->
    a == t + (1 - t) * a' ->
    tracesBetween r a' ts' pieces -> tracesBetween q a ts pieces.
Proof.
  intros R. induction ts' as [| t1' ts' IH]; intros ts pieces a' a F Ea T.
  - inversion F; subst ts. destruct pieces as [| p [| p2 rest]]; simpl in *; try contradiction.
    intros u. eapply Vector2_same_trans; [apply T|].
    eapply Vector2_same_trans; [apply R|].
    apply positionAt_param. rewrite Ea. ring.
  - inversion F as [| t1 ? ts0 ? E1 F']; subst.
    destruct pieces as [| p rest]; simpl in *; [contradiction|].
    destruct T as [T1 T2]. split.
    + intros u. eapply Vector2_same_trans; [apply T1|].
      eapply Vector2_same_trans; [apply R|].
      apply positionAt_param. rewrite Ea, E1. ring.
    + apply (IH ts0 rest t1' t1 F' E1 T2).
Qed.

Lemma tracesBetween_length (q : Quadratic) (ts : list Q) :
  forall a pieces, tracesBetween q a ts pieces -> length pieces = Datatypes.S (length ts).
Proof.
  induction ts as [| t ts IH]; intros a pieces T.
  - destruct pieces as [| p [| p2 rest]]; simpl in *; try contradiction. reflexivity.
  - destruct pieces as [| p rest]; simpl in *; [contradiction|].
    destruct T as [_ T]. rewrite (IH _ _ T). reflexivity.
Qed.

Lemma Forall2_In_right (A B : Type) (R : A -> B -> Prop) (l : list A) (l' : list B) :
  Forall2 R l l' -> forall b, In b l' -> exists a, In a l /\ R a b.
Proof.
  induction 1 as [| a b0 l l' Rab F IH]; intros b I.
  - destruct I.
  - destruct I as [-> | I].
    + exists a. split; [left; reflexivity | exact Rab].
    + destruct (IH b I) as (a' & Ia & Ra). exists a'. split; [right; exact Ia | exact Ra].
Qed.

Section SubdivisionsFacts.
Variable linear : Q -> Q -> Q -> Q -> Q -> number.
Hypothesis linear_spec :
  forall a1 a2 b1 b2 a3, ~ a2 == a1 ->
    exists r, linear a1 a2 b1 b2 a3 = Fin r /\
              r == (b2 - b1) / (a2 - a1) * (a3 - a1) + b1.

Lemma scaleRemaining_spec (t : Q) (rest : list Q) :
  ~ t == 1 ->
  exists rest',
    Segment.scaleRemaining linear t rest = Some rest' /\
    Forall2 (fun tj tj' => tj == t + (1 - t) * tj') rest rest'.
Proof.
  intros NT. induction rest as [| tj rest IH]; simpl.
  - exists []. split; [reflexivity | constructor].
  - destruct IH as (rest' & E & F).
    assert (N1 : ~ 1 == t) by (intros C; apply NT; symmetry; exact C).
    destruct (@linear_spec t 1 0 1 tj N1) as (r & L & V).
    rewrite L, E. exists (r :: rest'). split; [reflexivity|].
    constructor; [|exact F].
    rewrite V. field. intros C. apply NT. lra.
Qed.

Lemma subdivisions_loop_spec (n : nat) :
  forall (tList : list Q) (right : Quadratic),
    (length tList <= n)%nat ->
    (forall t, In t tList -> ~ t == 1) ->
    exists pieces,
      Segment.subdivisions_loop linear n right tList = Some pieces /\
      tracesBetween right 0 tList pieces.
Proof.
  induction n as [| n IH]; intros tList right Len NE.
  - destruct tList as [| t rest]; [|simpl in Len; lia].
    exists [ right ]. split; [reflexivity|]. simpl. intros u.
    apply positionAt_param. ring.
  - destruct tList as [| t rest].
    + exists [ right ]. split; [reflexivity|]. simpl. intros u.
      apply positionAt_param. ring.
    + assert (NT : ~ t == 1) by (apply NE; left; reflexivity).
      destruct (scaleRemaining_spec rest NT) as (rest' & E & F).
      assert (Len' : (length rest' <= n)%nat).
      { rewrite <- (Forall2_length F). simpl in Len. lia. }
      assert (NE' : forall t', In t' rest' -> ~ t' == 1).
      { intros t' I C.
        destruct (@Forall2_In_right _ _ _ _ _ F t' I) as (tj & Ij & R).
        apply (NE tj); [right; exact Ij|]. rewrite R, C. ring. }
      destruct (IH rest' (snd (Quadratic.subdivided right t)) Len' NE')
        as (pieces & P & T).
      exists (fst (Quadratic.subdivided right t) :: pieces).
      cbn [Segment.subdivisions_loop]. rewrite E.
      change (seg_subdivided right t) with (Quadratic.subdivided right t).
      rewrite P. split; [reflexivity|].
      cbn [tracesBetween]. split.
      * intros u. eapply Vector2_same_trans; [apply subdivided_left|].
        apply positionAt_param. ring.
      * apply (@tracesBetween_lift right (snd (Quadratic.subdivided right t)) t
                 (fun s => subdivided_right right t s) rest' rest pieces 0 t F);
          [ring | exact T].
Qed.

(** X10. For a list of parameters none of which is 1, [subdivisions]
    of a quadratic returns one piece more than it is given parameters:
    the first piece traces the curve from 0 to the first parameter, each
    next one from a parameter to the following one, the last from the
    last parameter to 1, so that the pieces end to end are the curve. *)
Theorem Quadratic_subdivisions_cover (q : Quadratic) (tList : list Q) :
  (forall t, In t tList -> ~ t == 1) ->
  exists pieces,
    Segment.subdivisions linear q tList = Some pieces /\
    length pieces = Datatypes.S (length tList) /\
    tracesBetween q 0 tList pieces.
Proof.
  intros NE.
  destruct (@subdivisions_loop_spec (length tList) tList q (le_n _) NE)
    as (pieces & P & T).
  exists pieces. split; [exact P|]. split; [|exact T].
  exact (tracesBetween_length _ _ _ _ T).
Qed.

End SubdivisionsFacts.

Lemma exampleLinear_spec (a1 a2 b1 b2 a3 : Q) :
  ~ a2 == a1 ->
  exists r, exampleLinear a1 a2 b1 b2 a3 = Fin r /\
            r == (b2 - b1) / (a2 - a1) * (a3 - a1) + b1.
Proof.
  intros N. unfold exampleLinear, Util.linear, Num.div.
  destruct (Qeq_bool (a2 - a1) 0) eqn:E.
  - exfalso. apply N. apply Qeq_bool_eq in E. lra.
  - eexists. split; [reflexivity|]. reflexivity.
Qed.

Lemma Quadratic_subdivisions_cover_witness :
  exists pieces,
    Segment.subdivisions exampleLinear (Quadratic.new (v2 0 0) (v2 1 2) (v2 2 0))
                         [1 # 4; 1 # 2] = Some pieces /\
    length pieces = 3%nat /\
    tracesBetween (Quadratic.new (v2 0 0) (v2 1 2) (v2 2 0)) 0 [1 # 4; 1 # 2] pieces.
Proof.
  apply (@Quadratic_subdivisions_cover exampleLinear exampleLinear_spec).
  intros t [<- | [<- | []]]; discriminate.
Defined.


(** ** Intersections of lines *)

Lemma Num_div_by_zero (a b : Q) : b == 0 -> forall r, Num.div a b <> Fin r.
Proof.
  intros Z r. unfold Num.div. rewrite (Qeq_eq_bool _ _ Z).
  destruct (a ?= 0); discriminate.
Qed.

(** A quotient by zero as the Vector2 constructor stores it: 0 for
    0 / 0, an infinity for any other numerator. *)
Lemma orZero_div_by_zero (a b : Q) :
  b == 0 ->
  (a == 0 /\ Num.orZero (Num.div a b) = Fin 0) \/
  (~ a == 0 /\ (Num.orZero (Num.div a b) = PInf \/ Num.orZero (Num.div a b) = NInf)).
Proof.
  intros Z. unfold Num.div. rewrite (Qeq_eq_bool _ _ Z).
  destruct (a ?= 0) eqn:C.
  - left. split; [apply Qeq_alt; exact C | reflexivity].
  - right. split; [|right; reflexivity].
    intros E. apply Qeq_alt in E. congruence.
  - right. split; [|left; reflexivity].
    intros E. apply Qeq_alt in E. congruence.
Qed.

Lemma lineLineIntersection_meets_aux (p1 p2 p3 p4 : Vector2) :
  ~ crossScalar (Vector2.minus p1 p2) (Vector2.minus p3 p4) == 0 ->
  exists ix iy,
    Util.lineLineIntersection p1 p2 p3 p4 = (Fin ix, Fin iy) /\
    collinear p1 p2 (v2 ix iy) /\ collinear p3 p4 (v2 ix iy).
Proof.
  intros N. unfold crossScalar, Vector2.minus in N. cbn [x y] in N.
  unfold Util.lineLineIntersection. cbv zeta.
  rewrite !(@Num_div_finite _ _ N). cbn [Num.orZero].
  eexists. eexists. split; [reflexivity|].
  unfold collinear. cbn [x y]. split; field; exact N.
Qed.

(** With a zero determinant, the result has two finite coordinates
    only when both numerators are zero, and it is then the origin. *)
Lemma lineLineIntersection_zero_determinant (p1 p2 p3 p4 : Vector2) (ix iy : Q) :
  (x p1 - x p2) * (y p3 - y p4) - (y p1 - y p2) * (x p3 - x p4) == 0 ->
  Util.lineLineIntersection p1 p2 p3 p4 = (Fin ix, Fin iy) ->
  ix = 0 /\ iy = 0 /\
  (x p1 * y p2 - y p1 * x p2) * (x p3 - x p4)
  - (x p1 - x p2) * (x p3 * y p4 - y p3 * x p4) == 0 /\
  (x p1 * y p2 - y p1 * x p2) * (y p3 - y p4)
  - (y p1 - y p2) * (x p3 * y p4 - y p3 * x p4) == 0.
Proof.
  intros Z. unfold Util.lineLineIntersection. cbv zeta. intros E.
  injection E as EX EY.
  destruct (@orZero_div_by_zero
              ((x p1 * y p2 - y p1 * x p2) * (x p3 - x p4)
               - (x p1 - x p2) * (x p3 * y p4 - y p3 * x p4)) _ Z)
    as [[NX RX] | [_ [RX | RX]]]; rewrite RX in EX; try discriminate EX.
  destruct (@orZero_div_by_zero
              ((x p1 * y p2 - y p1 * x p2) * (y p3 - y p4)
               - (y p1 - y p2) * (x p3 * y p4 - y p3 * x p4)) _ Z)
    as [[NY RY] | [_ [RY | RY]]]; rewrite RY in EY; try discriminate EY.
  injection EX as <-. injection EY as <-. auto.
Qed.

(** X11. When the directions of the two lines are not parallel,
    [lineLineIntersection] returns a finite point that lies on the line
    through [p1] and [p2] and on the line through [p3] and [p4]. *)
Theorem lineLineIntersection_on_both_lines (p1 p2 p3 p4 : Vector2) :
  ~ crossScalar (Vector2.minus p1 p2) (Vector2.minus p3 p4) == 0 ->
  exists ix iy,
    Util.lineLineIntersection p1 p2 p3 p4 = (Fin ix, Fin iy) /\
    collinear p1 p2 (v2 ix iy) /\ collinear p3 p4 (v2 ix iy).
Proof. exact (@lineLineIntersection_meets_aux p1 p2 p3 p4). Qed.

Lemma lineLineIntersection_on_both_lines_witness :
  exists ix iy,
    Util.lineLineIntersection (v2 0 0) (v2 2 2) (v2 0 2) (v2 2 0) = (Fin ix, Fin iy) /\
    collinear (v2 0 0) (v2 2 2) (v2 ix iy) /\ collinear (v2 0 2) (v2 2 0) (v2 ix iy).
Proof.
  apply lineLineIntersection_on_both_lines. vm_compute. discriminate.
Defined.

(** X12. Two lines with parallel directions, given by points with
    integer coordinates of magnitude at most 2 ^ 16, so that double
    arithmetic forms the numerators and the determinant without
    rounding.  When [p3] and [p4] lie on the line through [p1] and
    [p2], both coordinates come out as 0 / 0, the Vector2 constructor
    stores 0 for each, and the result is the origin, a finite point
    that need not lie on the line.  When [p3] and [p4] differ and [p3]
    is off the line through [p1] and [p2], a coordinate of the result
    is an infinity. *)
Theorem lineLineIntersection_parallel (p1 p2 p3 p4 : Vector2) :
  integralPoint 65536 p1 -> integralPoint 65536 p2 ->
  integralPoint 65536 p3 -> integralPoint 65536 p4 ->
  crossScalar (Vector2.minus p1 p2) (Vector2.minus p3 p4) == 0 ->
  (collinear p1 p2 p3 -> collinear p1 p2 p4 ->
   Util.lineLineIntersection p1 p2 p3 p4 = (Fin 0, Fin 0)) /\
  (~ Vector2.same p3 p4 -> ~ collinear p1 p2 p3 ->
   fst (Util.lineLineIntersection p1 p2 p3 p4) = PInf \/
   fst (Util.lineLineIntersection p1 p2 p3 p4) = NInf \/
   snd (Util.lineLineIntersection p1 p2 p3 p4) = PInf \/
   snd (Util.lineLineIntersection p1 p2 p3 p4) = NInf).
Proof.
  intros _ _ _ _ Z.
  destruct p1 as [x1 y1], p2 as [x2 y2], p3 as [x3 y3], p4 as [x4 y4].
  unfold crossScalar, collinear, Vector2.minus, Vector2.same in *. cbn [x y] in *.
  unfold Util.lineLineIntersection. cbv zeta. cbn [x y fst snd].
  set (nx := (x1 * y2 - y1 * x2) * (x3 - x4) - (x1 - x2) * (x3 * y4 - y3 * x4)).
  set (ny := (x1 * y2 - y1 * x2) * (y3 - y4) - (y1 - y2) * (x3 * y4 - y3 * x4)).
  destruct (@orZero_div_by_zero nx _ Z) as [[NX RX] | [NX RX]];
    destruct (@orZero_div_by_zero ny _ Z) as [[NY RY] | [NY RY]].
  - split; [intros _ _; rewrite RX, RY; reflexivity|].
    intros D C. exfalso. unfold nx in NX. unfold ny in NY.
    assert (A : (x3 - x4) * ((x2 - x1) * (y3 - y1) - (y2 - y1) * (x3 - x1)) == 0)
      by nsatz.
    assert (B : (y3 - y4) * ((x2 - x1) * (y3 - y1) - (y2 - y1) * (x3 - x1)) == 0)
      by nsatz.
    apply Qmult_integral in A. apply Qmult_integral in B.
    destruct A as [A | A]; [|contradiction]. destruct B as [B | B]; [|contradiction].
    apply D. split; lra.
  - split.
    + intros C3 C4. exfalso. apply NY. unfold ny. nsatz.
    + intros _ _. right. right. exact RY.
  - split.
    + intros C3 C4. exfalso. apply NX. unfold nx. nsatz.
    + intros _ _. destruct RX as [RX | RX]; [left | right; left]; exact RX.
  - split.
    + intros C3 C4. exfalso. apply NX. unfold nx. nsatz.
    + intros _ _. destruct RX as [RX | RX]; [left | right; left]; exact RX.
Qed.

Lemma lineLineIntersection_parallel_witness :
  Util.lineLineIntersection (v2 1 1) (v2 3 3) (v2 2 2) (v2 5 5) = (Fin 0, Fin 0) /\
  (fst (Util.lineLineIntersection (v2 0 0) (v2 1 1) (v2 0 1) (v2 2 3)) = PInf \/
   fst (Util.lineLineIntersection (v2 0 0) (v2 1 1) (v2 0 1) (v2 2 3)) = NInf \/
   snd (Util.lineLineIntersection (v2 0 0) (v2 1 1) (v2 0 1) (v2 2 3)) = PInf \/
   snd (Util.lineLineIntersection (v2 0 0) (v2 1 1) (v2 0 1) (v2 2 3)) = NInf).
Proof.
  assert (I : forall n : Z, (Z.abs n <= 65536)%Z -> integral 65536 (inject_Z n))
    by (intros n B; exists n; split; [exact B | reflexivity]).
  split.
  - apply (proj1 (@lineLineIntersection_parallel (v2 1 1) (v2 3 3) (v2 2 2) (v2 5 5)
                    (conj (I 1%Z ltac:(vm_compute; discriminate))
                          (I 1%Z ltac:(vm_compute; discriminate)))
                    (conj (I 3%Z ltac:(vm_compute; discriminate))
                          (I 3%Z ltac:(vm_compute; discriminate)))
                    (conj (I 2%Z ltac:(vm_compute; discriminate))
                          (I 2%Z ltac:(vm_compute; discriminate)))
                    (conj (I 5%Z ltac:(vm_compute; discriminate))
                          (I 5%Z ltac:(vm_compute; discriminate)))
                    ltac:(vm_compute; reflexivity)));
      vm_compute; reflexivity.
  - apply (proj2 (@lineLineIntersection_parallel (v2 0 0) (v2 1 1) (v2 0 1) (v2 2 3)
                    (conj (I 0%Z ltac:(vm_compute; discriminate))
                          (I 0%Z ltac:(vm_compute; discriminate)))
                    (conj (I 1%Z ltac:(vm_compute; discriminate))
                          (I 1%Z ltac:(vm_compute; discriminate)))
                    (conj (I 0%Z ltac:(vm_compute; discriminate))
                          (I 1%Z ltac:(vm_compute; discriminate)))
                    (conj (I 2%Z ltac:(vm_compute; discriminate))
                          (I 3%Z ltac:(vm_compute; discriminate)))
                    ltac:(vm_compute; reflexivity))).
    + intros [C _]. revert C. vm_compute. discriminate.
    + vm_compute. discriminate.
Defined.


(** ** Roots of a quadratic equation *)

(** X13. For a nonzero leading coefficient and a discriminant that is
    not negative and whose computed square root squares back to it,
    [solveQuadraticRootsReal] returns two finite numbers, and each is a
    root of [a x^2 + b x + c]. *)
Theorem solveQuadraticRootsReal_roots `{MathLib} (a b c : Q) :
  ~ a == 0 ->
  0 <= b * b - 4 * a * c ->
  Math_sqrt (b * b - 4 * a * c) * Math_sqrt (b * b - 4 * a * c) == b * b - 4 * a * c ->
  exists r1 r2,
    Util.solveQuadraticRootsReal a b c = [ Fin r1; Fin r2 ] /\
    a * r1 * r1 + b * r1 + c == 0 /\
    a * r2 * r2 + b * r2 + c == 0.
Proof.
  intros Na D S. unfold Util.solveQuadraticRootsReal. cbv zeta.
  rewrite (proj2 (Num_ltb_ge _ _) D).
  assert (N2 : ~ 2 * a == 0) by (intros C; apply Na; lra).
  rewrite !(@Num_div_finite _ _ N2).
  eexists. eexists. split; [reflexivity|].
  set (s := Math_sqrt (b * b - 4 * a * c)) in *. clearbody s.
  assert (E1 : forall r, r == (- b - s) / (2 * a) \/ r == (- b + s) / (2 * a) ->
                         a * r * r + b * r + c == 0).
  { intros r Hr.
    assert (I : 4 * a * (a * r * r + b * r + c)
                == (2 * a * r + b) * (2 * a * r + b) - (b * b - 4 * a * c)) by ring.
    assert (J : (2 * a * r + b) * (2 * a * r + b) == s * s).
    { destruct Hr as [-> | ->].
      - field. exact Na.
      - field. exact Na. }
    rewrite J, S in I.
    assert (K : 4 * a * (a * r * r + b * r + c) == 0) by (rewrite I; ring).
    apply Qmult_integral in K. destruct K as [K | K]; [|exact K].
    exfalso. apply Na. lra. }
  split; apply E1; [left | right]; reflexivity.
Qed.

Lemma solveQuadraticRootsReal_roots_witness :
  exists r1 r2,
    Util.solveQuadraticRootsReal 1 (-3) 2 = [ Fin r1; Fin r2 ] /\
    1 * r1 * r1 + (-3) * r1 + 2 == 0 /\
    1 * r2 * r2 + (-3) * r2 + 2 == 0.
Proof.
  apply (@solveQuadraticRootsReal_roots exampleMath 1 (-3) 2).
  - vm_compute. discriminate.
  - vm_compute. discriminate.
  - vm_compute. reflexivity.
Defined.

(** X14. The linear case is not handled: for a leading coefficient of
    zero and a discriminant that is not negative,
    [solveQuadraticRootsReal] returns two entries, and neither is a
    finite number. *)
Theorem solveQuadraticRootsReal_linear_case `{MathLib} (a b c : Q) :
  a == 0 ->
  0 <= b * b - 4 * a * c ->
  exists n1 n2,
    Util.solveQuadraticRootsReal a b c = [ n1; n2 ] /\
    forall r, n1 <> Fin r /\ n2 <> Fin r.
Proof.
  intros Za D. unfold Util.solveQuadraticRootsReal. cbv zeta.
  rewrite (proj2 (Num_ltb_ge _ _) D).
  eexists. eexists. split; [reflexivity|].
  intros r. split; apply Num_div_by_zero; rewrite Za; ring.
Qed.

Lemma solveQuadraticRootsReal_linear_case_witness :
  exists n1 n2,
    Util.solveQuadraticRootsReal 0 2 (-4) = [ n1; n2 ] /\
    forall r, n1 <> Fin r /\ n2 <> Fin r.
Proof.
  apply (@solveQuadraticRootsReal_linear_case exampleMath 0 2 (-4)).
  - reflexivity.
  - vm_compute. discriminate.
Defined.


(** ** The intersection of a line segment with a ray *)

Lemma Line_intersection_cases (l : Line) (ray : Ray2) :
  Line.intersection l ray = [] \/
  exists ix iy,
    Util.lineLineIntersection (start l) (end_ l) (pos ray)
      (Vector2.plus (pos ray) (dir ray)) = (Fin ix, Fin iy) /\
    Line.outside (x (start l)) (x (end_ l)) ix = false /\
    Line.outside (y (start l)) (y (end_ l)) iy = false /\
    Num.ltb (Vector2.dot (Vector2.minus (v2 ix iy) (pos ray)) (dir ray)) 0 = false /\
    Line.intersection l ray =
      [ mkHit (Vector2.dot (Vector2.minus (v2 ix iy) (pos ray)) (dir ray))
              (Ray2.pointAtDistance ray
                 (Vector2.dot (Vector2.minus (v2 ix iy) (pos ray)) (dir ray)))
              (if Num.ltb 0 (Vector2.dot (Vector2.perpendicular
                                            (Vector2.minus (end_ l) (start l))) (dir ray))
               then Vector2.negated (Vector2.perpendicular (Vector2.minus (end_ l) (start l)))
               else Vector2.perpendicular (Vector2.minus (end_ l) (start l)))
              (if Num.ltb (Vector2.dot (Vector2.perpendicular (dir ray))
                                       (Vector2.minus (end_ l) (start l))) 0
               then 1%Z else (-1)%Z) ].
Proof.
  unfold Line.intersection. cbv zeta.
  destruct (Util.lineLineIntersection (start l) (end_ l) (pos ray)
              (Vector2.plus (pos ray) (dir ray))) as [[ix | | |] [iy | | |]];
    try (left; reflexivity).
  destruct (Line.outside (x (start l)) (x (end_ l)) ix) eqn:Ox; [left; reflexivity|].
  destruct (Line.outside (y (start l)) (y (end_ l)) iy) eqn:Oy; [left; reflexivity|].
  destruct (Num.ltb (Vector2.dot (Vector2.minus (v2 ix iy) (pos ray)) (dir ray)) 0) eqn:T;
    [left; reflexivity|].
  right. exists ix, iy. repeat split; first [reflexivity | assumption].
Qed.

(** X15. [Line.intersection] returns at most one hit.  The hit is at a
    distance that is not negative, at the point of the ray at that
    distance; its winding is 1 or -1; its normal is perpendicular to the
    segment and does not point along the ray. *)
Theorem Line_intersection_hit (l : Line) (ray : Ray2) (h : Hit) :
  In h (Line.intersection l ray) ->
  Line.intersection l ray = [ h ] /\
  0 <= distance h /\
  point h = Ray2.pointAtDistance ray (distance h) /\
  (wind h = 1%Z \/ wind h = (-1)%Z) /\
  Vector2.dot (normal h) (Vector2.minus (end_ l) (start l)) == 0 /\
  Vector2.dot (normal h) (dir ray) <= 0.
Proof.
  intros I.
  destruct (Line_intersection_cases l ray) as [E | (ix & iy & _ & _ & _ & T & E)];
    rewrite E in I; [destruct I|].
  destruct I as [<- | []]. split; [exact E|]. cbn [distance point wind normal].
  apply Num_ltb_ge in T.
  split; [exact T|]. split; [reflexivity|].
  split; [destruct (Num.ltb _ 0); [left | right]; reflexivity|].
  destruct (Num.ltb 0 _) eqn:P.
  - apply Num_ltb_lt in P. split.
    + unfold Vector2.dot, Vector2.negated, Vector2.perpendicular, Vector2.minus.
      cbn [x y]. ring.
    + unfold Vector2.dot, Vector2.negated, Vector2.perpendicular, Vector2.minus in *.
      cbn [x y] in *. lra.
  - apply Num_ltb_ge in P. split.
    + unfold Vector2.dot, Vector2.perpendicular, Vector2.minus. cbn [x y]. ring.
    + exact P.
Qed.

Lemma Line_intersection_hit_witness :
  exists h,
    In h (Line.intersection (Line.new (v2 1 (-1)) (v2 1 1)) (ray2 (v2 0 0) Vector2.X_UNIT)) /\
    0 <= distance h /\ (wind h = 1%Z \/ wind h = (-1)%Z).
Proof.
  eexists. split; [left; reflexivity|].
  refine ((fun H => conj (proj1 (proj2 H)) (proj1 (proj2 (proj2 (proj2 H)))))
            (@Line_intersection_hit (Line.new (v2 1 (-1)) (v2 1 1))
               (ray2 (v2 0 0) Vector2.X_UNIT) _ _)).
  left. reflexivity.
Defined.

Lemma outside_false_range (s e i : Q) :
  Line.outside s e i = false -> ~ s == e -> Qmin s e <= i <= Qmax s e.
Proof.
  unfold Line.outside. intros O N.
  destruct (Qeq_bool s e) eqn:Q; [apply Qeq_bool_eq in Q; contradiction|].
  cbn [negb andb] in O.
  destruct (Num.ltb e s) eqn:L.
  - apply Num_ltb_lt in L. apply orb_false_elim in O. destruct O as [O1 O2].
    apply Num_ltb_ge in O2.
    assert (O1' : i < s).
    { apply Qnot_le_lt. intros C. apply Qle_bool_iff in C. congruence. }
    rewrite (Q.min_r s e), (Q.max_l s e) by lra. lra.
  - apply Num_ltb_ge in L. apply orb_false_elim in O. destruct O as [O1 O2].
    apply Num_ltb_ge in O2.
    assert (O1' : s < i).
    { apply Qnot_le_lt. intros C. apply Qle_bool_iff in C. congruence. }
    rewrite (Q.min_l s e), (Q.max_r s e) by lra. lra.
Qed.

Lemma range_of_equal_ends (s e i : Q) : s == e -> i == s -> Qmin s e <= i <= Qmax s e.
Proof.
  intros E I. rewrite (Q.min_l s e), (Q.max_r s e) by lra. lra.
Qed.

Lemma outside_false_zero_product (s e : Q) :
  Line.outside s e 0 = false -> ~ s == e -> s * e <= 0.
Proof.
  intros O N. destruct (@outside_false_range s e 0 O N) as [Lo Hi].
  destruct (Qlt_le_dec s e) as [L | L].
  - rewrite (Q.min_l s e) in Lo by lra. rewrite (Q.max_r s e) in Hi by lra.
    assert (P : 0 <= (- s) * e) by (apply Qmult_le_0_compat; lra).
    lra.
  - rewrite (Q.min_r s e) in Lo by lra. rewrite (Q.max_l s e) in Hi by lra.
    assert (P : 0 <= s * (- e)) by (apply Qmult_le_0_compat; lra).
    lra.
Qed.

Lemma between_of_product (s e f : Q) :
  (s - f) * (e - f) <= 0 -> Qmin s e <= f <= Qmax s e.
Proof.
  intros P.
  assert (A : ~ (f < s /\ f < e)).
  { intros [A1 A2].
    assert (M : 0 < (s - f) * (e - f)) by (apply Qmult_lt_0_compat; lra). lra. }
  assert (B : ~ (s < f /\ e < f)).
  { intros [B1 B2].
    assert (M : 0 < (f - s) * (f - e)) by (apply Qmult_lt_0_compat; lra).
    assert (I : (f - s) * (f - e) == (s - f) * (e - f)) by ring. lra. }
  destruct (Qlt_le_dec s e) as [L | L].
  - rewrite (Q.min_l s e), (Q.max_r s e) by lra.
    split.
    + destruct (Qlt_le_dec f s) as [C | C]; [exfalso; apply A; split; lra | exact C].
    + destruct (Qlt_le_dec e f) as [C | C]; [exfalso; apply B; split; lra | exact C].
  - rewrite (Q.min_r s e), (Q.max_l s e) by lra.
    split.
    + destruct (Qlt_le_dec f e) as [C | C]; [exfalso; apply A; split; lra | exact C].
    + destruct (Qlt_le_dec s f) as [C | C]; [exfalso; apply B; split; lra | exact C].
Qed.

(** A ray that runs along the line of the segment: the hit is at the
    foot of the perpendicular from the origin, which lies between the
    two ends when the coordinates of the origin pass the range tests. *)
Lemma collinear_hit_on_segment (sx sy ex ey px py dx dy : Q) :
  ~ (sx == ex /\ sy == ey) ->
  dx * dx + dy * dy == 1 ->
  (sx - ex) * (py - (py + dy)) - (sy - ey) * (px - (px + dx)) == 0 ->
  (sx * ey - sy * ex) * (px - (px + dx))
  - (sx - ex) * (px * (py + dy) - py * (px + dx)) == 0 ->
  (sx * ey - sy * ex) * (py - (py + dy))
  - (sy - ey) * (px * (py + dy) - py * (px + dx)) == 0 ->
  Line.outside sx ex 0 = false ->
  Line.outside sy ey 0 = false ->
  let t := (0 - px) * dx + (0 - py) * dy in
  onSegment (v2 sx sy) (v2 ex ey) (v2 (px + dx * t) (py + dy * t)).
Proof.
  intros NE U D0 NX NY Ox Oy t.
  (* the position of the ray is on the line of the segment *)
  assert (C : (px - sx) * dy - (py - sy) * dx == 0).
  { assert (A : (ex - sx) * ((px - sx) * dy - (py - sy) * dx) == 0) by nsatz.
    assert (B : (ey - sy) * ((px - sx) * dy - (py - sy) * dx) == 0) by nsatz.
    apply Qmult_integral in A. apply Qmult_integral in B.
    destruct A as [A | A]; [|exact A]. destruct B as [B | B]; [|exact B].
    exfalso. apply NE. split; lra. }
  set (fx := px + dx * t). set (fy := py + dy * t).
  set (a := (sx - fx) * dx + (sy - fy) * dy).
  set (b := (ex - fx) * dx + (ey - fy) * dy).
  assert (I1 : sx - fx == a * dx) by (unfold a, fx, fy, t; nsatz).
  assert (I2 : sy - fy == a * dy) by (unfold a, fx, fy, t; nsatz).
  assert (I3 : ex - fx == b * dx) by (unfold b, fx, fy, t; nsatz).
  assert (I4 : ey - fy == b * dy) by (unfold b, fx, fy, t; nsatz).
  assert (I5 : a * b == sx * ex + sy * ey - (fx * fx + fy * fy))
    by (unfold a, b, fx, fy, t; nsatz).
  clearbody a b fx fy. clear t.
  assert (AB : a * b <= 0).
  { pose proof (Qsq_nonneg fx) as Sx. pose proof (Qsq_nonneg fy) as Sy.
    destruct (Qeq_dec sx ex) as [Ex | Nx]; destruct (Qeq_dec sy ey) as [Ey | Ny].
    - exfalso. apply NE. split; assumption.
    - pose proof (@outside_false_zero_product sy ey Oy Ny) as Py.
      assert (Z : (a - b) * dx == 0) by lra.
      apply Qmult_integral in Z. destruct Z as [Z | Z].
      + exfalso. apply Ny. assert (K : sy - ey == (a - b) * dy) by lra.
        rewrite Z in K. lra.
      + assert (F : sx - fx == 0) by (rewrite I1, Z; ring).
        assert (G : sx * ex == fx * fx).
        { assert (E1 : sx == fx) by lra. assert (E2 : ex == fx) by lra.
          rewrite E1, E2. reflexivity. }
        lra.
    - pose proof (@outside_false_zero_product sx ex Ox Nx) as Px.
      assert (Z : (a - b) * dy == 0) by lra.
      apply Qmult_integral in Z. destruct Z as [Z | Z].
      + exfalso. apply Nx. assert (K : sx - ex == (a - b) * dx) by lra.
        rewrite Z in K. lra.
      + assert (F : sy - fy == 0) by (rewrite I2, Z; ring).
        assert (G : sy * ey == fy * fy).
        { assert (E1 : sy == fy) by lra. assert (E2 : ey == fy) by lra.
          rewrite E1, E2. reflexivity. }
        lra.
    - pose proof (@outside_false_zero_product sx ex Ox Nx) as Px.
      pose proof (@outside_false_zero_product sy ey Oy Ny) as Py.
      lra. }
  unfold onSegment, collinear. cbn [x y].
  split; [|split].
  - assert (R : (ex - sx) * (fy - sy) - (ey - sy) * (fx - sx)
                == (ey - fy - (sy - fy)) * (sx - fx) - (ex - fx - (sx - fx)) * (sy - fy))
      by ring.
    rewrite R, I1, I2, I3, I4. ring.
  - apply between_of_product. rewrite I1, I3.
    assert (R : a * dx * (b * dx) == - ((- (a * b)) * (dx * dx))) by ring.
    assert (P : 0 <= (- (a * b)) * (dx * dx))
      by (apply Qmult_le_0_compat; [lra | apply Qsq_nonneg]).
    lra.
  - apply between_of_product. rewrite I2, I4.
    assert (R : a * dy * (b * dy) == - ((- (a * b)) * (dy * dy))) by ring.
    assert (P : 0 <= (- (a * b)) * (dy * dy))
      by (apply Qmult_le_0_compat; [lra | apply Qsq_nonneg]).
    lra.
Qed.

Lemma crossing_hit_on_segment (sx sy ex ey px py dx dy ix iy : Q) :
  dx * dx + dy * dy == 1 ->
  ~ (sx - ex) * (py - (py + dy)) - (sy - ey) * (px - (px + dx)) == 0 ->
  (ex - sx) * (iy - sy) - (ey - sy) * (ix - sx) == 0 ->
  (px + dx - px) * (iy - py) - (py + dy - py) * (ix - px) == 0 ->
  Line.outside sx ex ix = false ->
  Line.outside sy ey iy = false ->
  let t := (ix - px) * dx + (iy - py) * dy in
  onSegment (v2 sx sy) (v2 ex ey) (v2 (px + dx * t) (py + dy * t)).
Proof.
  intros U N C1 C2 Ox Oy t.
  assert (Px : px + dx * t == ix) by (unfold t; nsatz).
  assert (Py : py + dy * t == iy) by (unfold t; nsatz).
  clearbody t.
  unfold onSegment, collinear. cbn [x y].
  split; [rewrite Px, Py; exact C1|].
  rewrite Px, Py. split.
  - destruct (Qeq_dec sx ex) as [Ex | Nx].
    + apply range_of_equal_ends; [exact Ex|].
      assert (Ny : ~ ey - sy == 0).
      { intros C. apply N.
        assert (H1 : sx - ex == 0) by lra. assert (H2 : sy - ey == 0) by lra.
        rewrite H1, H2. ring. }
      assert (M : (ey - sy) * (ix - sx) == 0).
      { assert (R : (ey - sy) * (ix - sx)
                    == (ex - sx) * (iy - sy)
                       - ((ex - sx) * (iy - sy) - (ey - sy) * (ix - sx))) by ring.
        rewrite R, C1. assert (Z : ex - sx == 0) by lra. rewrite Z. ring. }
      apply Qmult_integral in M. destruct M as [M | M]; [contradiction | lra].
    + apply outside_false_range; assumption.
  - destruct (Qeq_dec sy ey) as [Ey | Ny].
    + apply range_of_equal_ends; [exact Ey|].
      assert (Nx : ~ ex - sx == 0).
      { intros C. apply N.
        assert (H1 : sx - ex == 0) by lra. assert (H2 : sy - ey == 0) by lra.
        rewrite H1, H2. ring. }
      assert (M : (ex - sx) * (iy - sy) == 0).
      { assert (R : (ex - sx) * (iy - sy)
                    == ((ex - sx) * (iy - sy) - (ey - sy) * (ix - sx))
                       + (ey - sy) * (ix - sx)) by ring.
        rewrite R, C1. assert (Z : ey - sy == 0) by lra. rewrite Z. ring. }
      apply Qmult_integral in M. destruct M as [M | M]; [contradiction | lra].
    + apply outside_false_range; assumption.
Qed.

(** X16. For a segment whose two ends differ and a ray whose direction
    has length one, the point of a hit that [Line.intersection] returns
    lies on the segment: on the line through its two ends and within
    their range in both coordinates.  This covers the ray that runs
    along the line of the segment, where [lineLineIntersection] gives
    the origin and the hit is at the foot of the perpendicular from the
    origin onto that line. *)
Theorem Line_intersection_point_on_segment (l : Line) (ray : Ray2) (h : Hit) :
  ~ Vector2.same (start l) (end_ l) ->
  Vector2.dot (dir ray) (dir ray) == 1 ->
  In h (Line.intersection l ray) ->
  onSegment (start l) (end_ l) (point h).
Proof.
  intros NE U I.
  destruct (Line_intersection_cases l ray) as [E | (ix & iy & LL & Ox & Oy & _ & E)];
    rewrite E in I; [destruct I|].
  destruct I as [<- | []]. cbn [point].
  destruct l as [[sx sy] [ex ey] inv]. destruct ray as [[px py] [dx dy]].
  cbn [start end_ pos dir x y] in *.
  unfold Vector2.dot in U. cbn [x y] in U.
  unfold Vector2.same in NE. cbn [x y] in NE.
  unfold Ray2.pointAtDistance, Vector2.plus, Vector2.timesScalar, Vector2.dot,
    Vector2.minus. cbn [x y pos dir].
  destruct (Qeq_dec ((sx - ex) * (py - (py + dy)) - (sy - ey) * (px - (px + dx))) 0)
    as [Z | N].
  - destruct (@lineLineIntersection_zero_determinant
                (v2 sx sy) (v2 ex ey) (v2 px py) (Vector2.plus (v2 px py) (v2 dx dy))
                ix iy Z LL) as (-> & -> & NX & NY).
    cbn [x y Vector2.plus] in NX, NY.
    exact (@collinear_hit_on_segment sx sy ex ey px py dx dy NE U Z NX NY Ox Oy).
  - destruct (@lineLineIntersection_meets_aux
                (v2 sx sy) (v2 ex ey) (v2 px py) (Vector2.plus (v2 px py) (v2 dx dy)) N)
      as (ix' & iy' & LL' & C1 & C2).
    rewrite LL in LL'. injection LL' as <- <-.
    unfold collinear, Vector2.plus in C1, C2. cbn [x y] in C1, C2.
    exact (@crossing_hit_on_segment sx sy ex ey px py dx dy ix iy U N C1 C2 Ox Oy).
Qed.

Lemma Line_intersection_point_on_segment_witness :
  exists h,
    In h (Line.intersection (Line.new (v2 (-1) 1) (v2 3 1)) (ray2 (v2 (-5) 1) Vector2.X_UNIT)) /\
    onSegment (v2 (-1) 1) (v2 3 1) (point h).
Proof.
  eexists. split; [left; reflexivity|].
  apply (@Line_intersection_point_on_segment (Line.new (v2 (-1) 1) (v2 3 1))
           (ray2 (v2 (-5) 1) Vector2.X_UNIT)).
  - intros [C _]. revert C. vm_compute. discriminate.
  - vm_compute. reflexivity.
  - left. reflexivity.
Defined.


(** ** Building a shape *)

Lemma modifyLast_snoc (f : Subpath Line -> Subpath Line) (l : list (Subpath Line))
    (sp : Subpath Line) :
  Shape.modifyLast f (l ++ [ sp ]) = l ++ [ f sp ].
Proof.
  induction l as [| a l IH]; [reflexivity|].
  cbn [app Shape.modifyLast]. rewrite IH.
  destruct (l ++ [ sp ]) eqn:E; [|reflexivity].
  destruct l; discriminate E.
Qed.

Lemma getLastSubpath_snoc (l : list (Subpath Line)) (sp : Subpath Line) b c d e :
  Shape.getLastSubpath (Shape.mkShape (l ++ [ sp ]) b c d e) = Some sp.
Proof.
  unfold Shape.getLastSubpath. cbn [Shape.subpaths].
  destruct (l ++ [ sp ]) as [| a rest] eqn:E; [destruct l; discriminate E|].
  f_equal.
  destruct l as [| a' l'].
  - injection E as <- <-. reflexivity.
  - injection E as <- <-. apply last_last.
Qed.

Lemma hasSubpaths_snoc (l : list (Subpath Line)) (sp : Subpath Line) b c d e :
  Shape.hasSubpaths (Shape.mkShape (l ++ [ sp ]) b c d e) = true.
Proof.
  unfold Shape.hasSubpaths. cbn [Shape.subpaths].
  destruct l; reflexivity.
Qed.

Lemma getLastPoint_snoc (l : list (Subpath Line)) (sp : Subpath Line) b c d e :
  Shape.getLastPoint (Shape.mkShape (l ++ [ sp ]) b c d e) = Subpath.getLastPoint sp.
Proof. unfold Shape.getLastPoint. rewrite getLastSubpath_snoc. reflexivity. Qed.

Lemma invalidate_eq l b c d e :
  Shape.invalidate (Shape.mkShape l b c d e)
  = Shape.mkShape l (if e then b else None) c d e.
Proof. destruct e; reflexivity. Qed.

Lemma addSubpath_eq (sp : Subpath Line) l b c d e :
  Shape.addSubpath sp (Shape.mkShape l b c d e)
  = Shape.mkShape (l ++ [ sp ]) (if e then b else None) c d e.
Proof. unfold Shape.addSubpath. cbn [Shape.subpaths Shape._bounds
  Shape.lastQuadraticControlPoint Shape.lastCubicControlPoint Shape._invalidatingPoints].
  apply invalidate_eq. Qed.

Lemma onLastSubpath_snoc (f : Subpath Line -> Subpath Line) l sp b c d e :
  Shape.onLastSubpath f (Shape.mkShape (l ++ [ sp ]) b c d e)
  = Shape.mkShape (l ++ [ f sp ]) b c d e.
Proof. unfold Shape.onLastSubpath. cbn [Shape.subpaths Shape._bounds
  Shape.lastQuadraticControlPoint Shape.lastCubicControlPoint Shape._invalidatingPoints].
  rewrite modifyLast_snoc. reflexivity. Qed.

Lemma addSegmentAndBounds_snoc (seg : Line) l sp b c d e :
  Shape.addSegmentAndBounds seg (Shape.mkShape (l ++ [ sp ]) b c d e)
  = Shape.mkShape (l ++ [ Subpath.addSegment invalid seg sp ])
                  (if e then b else None) c d e.
Proof.
  unfold Shape.addSegmentAndBounds. rewrite onLastSubpath_snoc. apply invalidate_eq.
Qed.

Lemma getLastPoint_addPoint (p : Vector2) (sp : Subpath Line) :
  Subpath.getLastPoint (Subpath.addPoint p sp) = Some p.
Proof.
  unfold Subpath.getLastPoint, Subpath.addPoint. cbn [points].
  destruct (points sp ++ [ p ]) as [| a rest] eqn:E.
  - destruct (points sp); discriminate E.
  - f_equal. destruct (points sp) as [| a' l'].
    + injection E as <- <-. reflexivity.
    + injection E as <- <-. apply last_last.
Qed.

Lemma getLastPoint_addSegment (seg : Line) (sp : Subpath Line) :
  Subpath.getLastPoint (Subpath.addSegment invalid seg sp) = Subpath.getLastPoint sp.
Proof. unfold Subpath.addSegment. destruct (negb (invalid seg)); reflexivity. Qed.

Lemma getFirstPoint_addSegment (seg : Line) (sp : Subpath Line) :
  Subpath.getFirstPoint (Subpath.addSegment invalid seg sp) = Subpath.getFirstPoint sp.
Proof. unfold Subpath.addSegment. destruct (negb (invalid seg)); reflexivity. Qed.

Lemma getFirstPoint_addPoint (p : Vector2) (sp : Subpath Line) :
  Subpath.getFirstPoint (Subpath.addPoint p sp)
  = match Subpath.getFirstPoint sp with
    | Some first => Some first
    | None => Some p
    end.
Proof.
  unfold Subpath.getFirstPoint, Subpath.addPoint. cbn [points].
  destruct (points sp); reflexivity.
Qed.

Lemma lineToPoint_snoc (p st : Vector2) l sp b c d e :
  Subpath.getLastPoint sp = Some st ->
  Shape.lineToPoint p (Shape.mkShape (l ++ [ sp ]) b c d e)
  = Some (Shape.mkShape
            (l ++ [ Subpath.addSegment invalid (Line.new st p) (Subpath.addPoint p sp) ])
            (if e then b else None) None None e).
Proof.
  intros L. unfold Shape.lineToPoint.
  rewrite hasSubpaths_snoc, getLastPoint_snoc, L.
  rewrite onLastSubpath_snoc, addSegmentAndBounds_snoc. reflexivity.
Qed.

Lemma close_snoc (first : Vector2) l sp b c d e :
  Subpath.getFirstPoint sp = Some first ->
  Shape.close (Shape.mkShape (l ++ [ sp ]) b c d e)
  = Some (Shape.mkShape
            ((l ++ [ Subpath.close sp ]) ++ [ Subpath.addPoint first Subpath.new ])
            (if e then b else None) None None e).
Proof.
  intros F. unfold Shape.close.
  rewrite hasSubpaths_snoc, getLastSubpath_snoc, F.
  rewrite onLastSubpath_snoc, addSubpath_eq, onLastSubpath_snoc. reflexivity.
Qed.

Lemma moveToPoint_eq (p : Vector2) l b c d e :
  Shape.moveToPoint p (Shape.mkShape l b c d e)
  = Shape.mkShape (l ++ [ Subpath.addPoint p Subpath.new ])
                  (if e then b else None) None None e.
Proof. unfold Shape.moveToPoint. rewrite addSubpath_eq. reflexivity. Qed.

(** X17. [rect] builds the shape that [polygon] builds from the four
    corners in the order the rectangle visits them, whatever the shape
    held before and whatever the width and the height are. *)
Theorem rect_is_polygon_of_corners (s : Shape.Shape) (px py width height : Q) :
  Shape.polygon [ v2 px py; v2 (px + width) py; v2 (px + width) (py + height);
                  v2 px (py + height) ] s
  = Some (Shape.rect px py width height s).
Proof.
  destruct s as [l b c d e].
  unfold Shape.polygon, Shape.lineToPoints.
  rewrite moveToPoint_eq.
  rewrite (@lineToPoint_snoc _ (v2 px py)) by reflexivity.
  rewrite (@lineToPoint_snoc _ (v2 (px + width) py))
    by (rewrite getLastPoint_addSegment; apply getLastPoint_addPoint).
  rewrite (@lineToPoint_snoc _ (v2 (px + width) (py + height)))
    by (rewrite getLastPoint_addSegment; apply getLastPoint_addPoint).
  rewrite (@close_snoc (v2 px py))
    by (repeat (rewrite getFirstPoint_addSegment || rewrite getFirstPoint_addPoint);
        reflexivity).
  unfold Shape.rect.
  rewrite addSubpath_eq.
  rewrite !onLastSubpath_snoc.
  rewrite !addSegmentAndBounds_snoc.
  rewrite onLastSubpath_snoc, addSubpath_eq, onLastSubpath_snoc.
  unfold Shape.resetControlPoints.
  cbn [Shape.subpaths Shape._bounds Shape.lastQuadraticControlPoint
       Shape.lastCubicControlPoint Shape._invalidatingPoints].
  unfold Subpath.addSegment, Line.new. cbn [invalid].
  destruct e;
    destruct (Vector2.equals (v2 px py) (v2 (px + width) py));
    destruct (Vector2.equals (v2 (px + width) py) (v2 (px + width) (py + height)));
    destruct (Vector2.equals (v2 (px + width) (py + height)) (v2 px (py + height)));
    reflexivity.
Qed.

Lemma shape_snoc (s : Shape.Shape) :
  Shape.hasSubpaths s = true ->
  exists l sp, Shape.subpaths s = l ++ [ sp ] /\ Shape.getLastSubpath s = Some sp.
Proof.
  unfold Shape.hasSubpaths, Shape.getLastSubpath.
  destruct (Shape.subpaths s) as [| a rest] eqn:E; [discriminate|]. intros _.
  destruct (@exists_last _ (a :: rest)) as (l & sp & E'); [discriminate|].
  exists l, sp. split; [exact E'|].
  f_equal. transitivity (last (a :: rest) a).
  - destruct rest; reflexivity.
  - rewrite E'. apply last_last.
Qed.

Lemma lineToPoint_appends_aux (p current : Vector2) (s : Shape.Shape) :
  Shape.getLastPoint s = Some current ->
  exists s' l sp sp',
    Shape.lineToPoint p s = Some s' /\
    Shape.subpaths s = l ++ [ sp ] /\
    Shape.subpaths s' = l ++ [ sp' ] /\
    points sp' = points sp ++ [ p ] /\
    segments sp' = segments sp ++
                   (if Vector2.equals current p then [] else [ Line.new current p ]) /\
    closed sp' = closed sp /\
    Shape.getLastPoint s' = Some p.
Proof.
  intros L.
  assert (H : Shape.hasSubpaths s = true).
  { unfold Shape.getLastPoint, Shape.getLastSubpath, Shape.hasSubpaths in *.
    destruct (Shape.subpaths s); [discriminate | reflexivity]. }
  destruct (shape_snoc s H) as (l & sp & E & G).
  destruct s as [l0 b c d e]. cbn [Shape.subpaths] in E. subst l0.
  rewrite getLastPoint_snoc in L.
  rewrite (@lineToPoint_snoc p current l sp b c d e L).
  eexists. exists l, sp. eexists. split; [reflexivity|].
  split; [reflexivity|]. split; [reflexivity|].
  unfold Subpath.addSegment, Line.new. cbn [invalid].
  destruct (Vector2.equals current p); cbn [negb points segments closed Subpath.addPoint].
  - repeat split; try reflexivity.
    + symmetry. apply app_nil_r.
    + rewrite getLastPoint_snoc. apply (getLastPoint_addPoint p sp).
  - repeat split; try reflexivity.
    rewrite getLastPoint_snoc.
    exact (getLastPoint_addPoint p (mkSubpath (points sp) (segments sp ++ [_]) (closed sp))).
Qed.

(** X18. On a shape with a current point, [lineToPoint] succeeds and
    writes to the last subpath only: it appends the new point, and it
    appends the line from the current point to the new one unless the
    two are equal, in which case no segment is added.  Afterwards the
    given point is the current point. *)
Theorem lineToPoint_appends (p current : Vector2) (s : Shape.Shape) :
  Shape.getLastPoint s = Some current ->
  exists s' l sp sp',
    Shape.lineToPoint p s = Some s' /\
    Shape.subpaths s = l ++ [ sp ] /\
    Shape.subpaths s' = l ++ [ sp' ] /\
    points sp' = points sp ++ [ p ] /\
    segments sp' = segments sp ++
                   (if Vector2.equals current p then [] else [ Line.new current p ]) /\
    closed sp' = closed sp /\
    Shape.getLastPoint s' = Some p.
Proof. exact (@lineToPoint_appends_aux p current s). Qed.

Lemma lineToPoint_appends_witness :
  exists s',
    Shape.lineToPoint (v2 3 4) (Shape.moveTo 1 2 Shape.new) = Some s' /\
    Shape.getLastPoint s' = Some (v2 3 4).
Proof.
  destruct (@lineToPoint_appends (v2 3 4) (v2 1 2) (Shape.moveTo 1 2 Shape.new) eq_refl)
    as (s' & l & sp & sp' & E & _ & _ & _ & _ & _ & L).
  exists s'. split; [exact E | exact L].
Defined.

Lemma lineToPoint_reaches (p current : Vector2) (s : Shape.Shape) :
  Shape.getLastPoint s = Some current ->
  exists s', Shape.lineToPoint p s = Some s' /\ Shape.getLastPoint s' = Some p.
Proof.
  intros L.
  destruct (@lineToPoint_appends_aux p current s L)
    as (s' & l & sp & sp' & E & _ & _ & _ & _ & _ & L').
  exists s'. split; [exact E | exact L'].
Qed.

(** X19. On a shape with a current point, the relative and the
    axis-parallel line calls succeed and end where their names say:
    [lineToPointRelative] at the current point plus the offset,
    [horizontalLineTo] at the given x with the current y,
    [verticalLineTo] at the current x with the given y, and the two
    relative axis-parallel calls at the current point moved along one
    axis. *)
Theorem relative_lineTo_targets (current : Vector2) (s : Shape.Shape) :
  Shape.getLastPoint s = Some current ->
  (forall d, exists s', Shape.lineToPointRelative d s = Some s' /\
                        Shape.getLastPoint s' = Some (Vector2.plus current d)) /\
  (forall a, exists s', Shape.horizontalLineTo a s = Some s' /\
                        Shape.getLastPoint s' = Some (v2 a (y current))) /\
  (forall a, exists s', Shape.verticalLineTo a s = Some s' /\
                        Shape.getLastPoint s' = Some (v2 (x current) a)) /\
  (forall a, exists s', Shape.horizontalLineToRelative a s = Some s' /\
                        Shape.getLastPoint s' = Some (v2 (x current + a) (y current + 0))) /\
  (forall a, exists s', Shape.verticalLineToRelative a s = Some s' /\
                        Shape.getLastPoint s' = Some (v2 (x current + 0) (y current + a))).
Proof.
  intros L.
  assert (R : Shape.getRelativePoint s = current).
  { unfold Shape.getRelativePoint. rewrite L. reflexivity. }
  unfold Shape.horizontalLineToRelative, Shape.verticalLineToRelative,
    Shape.lineToRelative, Shape.horizontalLineTo, Shape.verticalLineTo,
    Shape.lineToPointRelative, Shape.lineTo.
  rewrite R.
  repeat split; intros a; apply (@lineToPoint_reaches _ current s L).
Qed.

Lemma relative_lineTo_targets_witness :
  exists s', Shape.horizontalLineTo 5 (Shape.moveTo 1 2 Shape.new) = Some s' /\
             Shape.getLastPoint s' = Some (v2 5 2).
Proof.
  exact (proj1 (proj2 (@relative_lineTo_targets (v2 1 2) (Shape.moveTo 1 2 Shape.new)
                         eq_refl)) 5).
Defined.

(** X20. Closing a shape whose last subpath has a first point marks
    that subpath closed and starts a new subpath that holds this first
    point and nothing else, so that drawing continues from where the
    closed subpath began; the earlier subpaths are kept. *)
Theorem close_returns_to_first_point (s : Shape.Shape) (sp : Subpath Line)
    (first : Vector2) :
  Shape.getLastSubpath s = Some sp ->
  Subpath.getFirstPoint sp = Some first ->
  exists s' l,
    Shape.close s = Some s' /\
    Shape.subpaths s = l ++ [ sp ] /\
    Shape.subpaths s' = l ++ [ mkSubpath (points sp) (segments sp) true;
                               mkSubpath [ first ] [] false ] /\
    Shape.getLastPoint s' = Some first.
Proof.
  intros G F.
  assert (H : Shape.hasSubpaths s = true).
  { unfold Shape.getLastSubpath, Shape.hasSubpaths in *.
    destruct (Shape.subpaths s); [discriminate | reflexivity]. }
  destruct (shape_snoc s H) as (l & sp0 & E & G').
  rewrite G in G'. injection G' as <-.
  destruct s as [l0 b c d e]. cbn [Shape.subpaths] in E. subst l0.
  rewrite (@close_snoc first l sp b c d e F).
  eexists. exists l. split; [reflexivity|]. split; [reflexivity|].
  cbn [Shape.subpaths]. split.
  - rewrite <- app_assoc. reflexivity.
  - rewrite getLastPoint_snoc. reflexivity.
Qed.

Lemma close_returns_to_first_point_witness :
  exists s',
    Shape.close (Shape.moveTo 1 2 Shape.new) = Some s' /\
    Shape.getLastPoint s' = Some (v2 1 2).
Proof.
  destruct (@close_returns_to_first_point (Shape.moveTo 1 2 Shape.new)
              (mkSubpath [ v2 1 2 ] [] false) (v2 1 2) eq_refl eq_refl)
    as (s' & l & E & _ & _ & L).
  exists s'. split; [exact E | exact L].
Defined.

(** ** The winding number of a shape *)

Lemma windingLoop_app (ray : Ray2) (l1 l2 : list (Subpath Line)) :
  forall w,
    Shape.windingLoop ray (l1 ++ l2) w
    = match Shape.windingLoop ray l1 w with
      | Some w' => Shape.windingLoop ray l2 w'
      | None => None
      end.
Proof.
  induction l1 as [| sp l1 IH]; intros w; [reflexivity|].
  cbn [app Shape.windingLoop].
  destruct (Shape.subpathWinding ray sp); [apply IH | reflexivity].
Qed.

Lemma subpathWinding_not_drawable (ray : Ray2) (sp : Subpath Line) :
  Subpath.isDrawable sp = false -> Shape.subpathWinding ray sp = Some 0%Z.
Proof. intros D. unfold Shape.subpathWinding. rewrite D. reflexivity. Qed.

(** X21. A subpath without segments does not count: a shape contains
    the same points with and without it, wherever it stands among the
    subpaths and whatever points it holds. *)
Theorem containsPoint_ignores_empty_subpath (p : Vector2) (sp : Subpath Line)
    (l1 l2 : list (Subpath Line)) b c d e :
  Subpath.isDrawable sp = false ->
  Shape.containsPoint p (Shape.mkShape (l1 ++ sp :: l2) b c d e)
  = Shape.containsPoint p (Shape.mkShape (l1 ++ l2) b c d e).
Proof.
  intros D. unfold Shape.containsPoint, Shape.windingIntersection.
  cbn [Shape.subpaths]. rewrite !windingLoop_app.
  destruct (Shape.windingLoop (ray2 p Vector2.X_UNIT) l1 0) as [w |]; [|reflexivity].
  cbn [Shape.windingLoop]. rewrite (subpathWinding_not_drawable _ _ D).
  rewrite Z.add_0_r. reflexivity.
Qed.

Lemma containsPoint_ignores_empty_subpath_witness :
  Shape.containsPoint (v2 (1 # 2) (1 # 2))
    (Shape.mkShape ([] ++ mkSubpath [ v2 0 0 ] [] false :: Shape.subpaths unitSquare)
                   None None None false)
  = Shape.containsPoint (v2 (1 # 2) (1 # 2))
      (Shape.mkShape ([] ++ Shape.subpaths unitSquare) None None None false).
Proof.
  apply containsPoint_ignores_empty_subpath. reflexivity.
Defined.


(** ** Point containment in a rectangle *)

Lemma outside_compat (s e i i' : Q) : i == i' -> Line.outside s e i = Line.outside s e i'.
Proof.
  intros E. unfold Line.outside, Num.ltb.
  rewrite (Qleb_comp s s (Qeq_refl s) i i' E), (Qleb_comp e e (Qeq_refl e) i i' E),
          (Qleb_comp i i' E s s (Qeq_refl s)), (Qleb_comp i i' E e e (Qeq_refl e)).
  reflexivity.
Qed.

(** A horizontal edge and a horizontal ray.  Off the line of the edge
    the intersection has an infinite coordinate and there is no hit.
    On the line of the edge both coordinates come out as 0 / 0 and the
    intersection is the origin: the edge counts -1 when 0 passes the
    range test of the edge in x and the ray starts at or left of 0. *)
Lemma horizontal_lineLineIntersection (a1 a2 b px py : Q) :
  ~ a1 == a2 ->
  (py == b ->
   Util.lineLineIntersection (v2 a1 b) (v2 a2 b) (v2 px py)
     (Vector2.plus (v2 px py) Vector2.X_UNIT) = (Fin 0, Fin 0)) /\
  (~ py == b ->
   forall ix iy,
     Util.lineLineIntersection (v2 a1 b) (v2 a2 b) (v2 px py)
       (Vector2.plus (v2 px py) Vector2.X_UNIT) <> (Fin ix, Fin iy)).
Proof.
  intros N. unfold Util.lineLineIntersection, Vector2.plus, Vector2.X_UNIT.
  cbv zeta. cbn [x y].
  assert (Z : (a1 - a2) * (py - (py + 0)) - (b - b) * (px - (px + 1)) == 0) by ring.
  set (nx := (a1 * b - b * a2) * (px - (px + 1))
             - (a1 - a2) * (px * (py + 0) - py * (px + 1))).
  set (ny := (a1 * b - b * a2) * (py - (py + 0))
             - (b - b) * (px * (py + 0) - py * (px + 1))).
  assert (EX : nx == (a1 - a2) * (py - b)) by (unfold nx; ring).
  assert (EY : ny == 0) by (unfold ny; ring).
  destruct (@orZero_div_by_zero ny _ Z) as [[_ RY] | [NY _]]; [|contradiction].
  rewrite RY.
  destruct (@orZero_div_by_zero nx _ Z) as [[NX RX] | [NX RX]].
  - split; [intros _; rewrite RX; reflexivity|].
    intros P. exfalso. rewrite EX in NX. apply Qmult_integral in NX.
    destruct NX as [NX | NX]; [apply N | apply P]; lra.
  - split.
    + intros P. exfalso. apply NX. rewrite EX, P. ring.
    + intros _ ix iy. destruct RX as [RX | RX]; rewrite RX; discriminate.
Qed.

Lemma horizontal_edge_winding (a1 a2 b : Q) (p : Vector2) :
  ~ a1 == a2 ->
  Line.windingIntersection (mkLine (v2 a1 b) (v2 a2 b) false) (ray2 p Vector2.X_UNIT)
  = if Qeq_bool (y p) b && negb (Line.outside a1 a2 0) && Qle_bool (x p) 0
    then (-1)%Z else 0%Z.
Proof.
  intros N. destruct p as [px py]. cbn [x y].
  destruct (@horizontal_lineLineIntersection a1 a2 b px py N) as [On Off].
  destruct (Qeq_dec py b) as [E | NE].
  - rewrite (Qeq_eq_bool _ _ E). cbn [andb].
    unfold Line.windingIntersection, Line.intersection. cbv zeta.
    cbn [start end_ pos dir]. rewrite (On E). cbn [x y].
    assert (Oy : Line.outside b b 0 = false).
    { unfold Line.outside. rewrite Qeq_bool_refl. reflexivity. }
    rewrite Oy.
    destruct (Line.outside a1 a2 0); [reflexivity|]. cbn [negb andb].
    unfold Vector2.dot, Vector2.minus, Vector2.perpendicular, Vector2.X_UNIT. cbn [x y].
    destruct (Qle_bool px 0) eqn:P.
    + apply Qle_bool_iff in P.
      assert (T : Num.ltb ((0 - px) * 1 + (0 - py) * 0) 0 = false)
        by (apply Num_ltb_ge; lra).
      rewrite T. cbn [wind].
      assert (W : Num.ltb (0 * (a2 - a1) + - (1) * (b - b)) 0 = false)
        by (apply Num_ltb_ge; lra).
      rewrite W. reflexivity.
    + assert (T : Num.ltb ((0 - px) * 1 + (0 - py) * 0) 0 = true).
      { apply Num_ltb_lt. apply Qnot_le_lt. intros C.
        assert (P' : px <= 0) by lra. apply Qle_bool_iff in P'. congruence. }
      rewrite T. reflexivity.
  - assert (F : Qeq_bool py b = false).
    { destruct (Qeq_bool py b) eqn:Q; [|reflexivity].
      apply Qeq_bool_eq in Q. contradiction. }
    rewrite F. cbn [andb].
    unfold Line.windingIntersection.
    destruct (Line_intersection_cases (mkLine (v2 a1 b) (v2 a2 b) false)
                (ray2 (v2 px py) Vector2.X_UNIT))
      as [E | (ix & iy & LL & _)]; [rewrite E; reflexivity|].
    exfalso. cbn [start end_ pos dir] in LL. exact (Off NE ix iy LL).
Qed.

Lemma vertical_edge_winding (a b1 b2 : Q) (p : Vector2) :
  ~ b1 == b2 ->
  Line.windingIntersection (mkLine (v2 a b1) (v2 a b2) false) (ray2 p Vector2.X_UNIT)
  = if negb (Line.outside b1 b2 (y p)) && Qle_bool (x p) a
    then (if Num.ltb b1 b2 then 1%Z else (-1)%Z)
    else 0%Z.
Proof.
  intros N. destruct p as [px py]. cbn [x y].
  assert (D : ~ crossScalar (Vector2.minus (v2 a b1) (v2 a b2))
                  (Vector2.minus (v2 px py) (Vector2.plus (v2 px py) Vector2.X_UNIT)) == 0).
  { unfold crossScalar, Vector2.minus, Vector2.plus, Vector2.X_UNIT. cbn [x y].
    intros C. apply N. lra. }
  destruct (@lineLineIntersection_meets_aux _ _ _ _ D) as (ix & iy & LL & C1 & C2).
  unfold collinear, Vector2.plus, Vector2.X_UNIT in C1, C2. cbn [x y] in C1, C2.
  assert (Ey : iy == py) by lra.
  assert (Ex : ix == a).
  { assert (M : (b2 - b1) * (ix - a) == 0) by lra.
    apply Qmult_integral in M. destruct M as [M | M]; [exfalso; apply N; lra | lra]. }
  unfold Line.windingIntersection, Line.intersection. cbv zeta.
  cbn [start end_ pos dir]. rewrite LL. cbn [x y].
  assert (Ox : Line.outside a a ix = false).
  { unfold Line.outside. rewrite Qeq_bool_refl. reflexivity. }
  rewrite Ox, (outside_compat b1 b2 Ey).
  destruct (Line.outside b1 b2 py); [reflexivity|]. cbn [negb andb].
  unfold Vector2.dot, Vector2.minus, Vector2.perpendicular, Vector2.X_UNIT. cbn [x y].
  destruct (Qle_bool px a) eqn:P.
  - apply Qle_bool_iff in P.
    assert (T : Num.ltb ((ix - px) * 1 + (iy - py) * 0) 0 = false)
      by (apply Num_ltb_ge; lra).
    rewrite T. cbn [wind].
    destruct (Num.ltb b1 b2) eqn:B.
    + apply Num_ltb_lt in B.
      assert (W : Num.ltb (0 * (a - a) + - (1) * (b2 - b1)) 0 = true)
        by (apply Num_ltb_lt; lra).
      rewrite W. reflexivity.
    + apply Num_ltb_ge in B.
      assert (W : Num.ltb (0 * (a - a) + - (1) * (b2 - b1)) 0 = false)
        by (apply Num_ltb_ge; lra).
      rewrite W. reflexivity.
  - assert (T : Num.ltb ((ix - px) * 1 + (iy - py) * 0) 0 = true).
    { apply Num_ltb_lt. apply Qnot_le_lt. intros C.
      assert (P' : px <= a) by lra. apply Qle_bool_iff in P'. congruence. }
    rewrite T. reflexivity.
Qed.

Lemma Vector2_equals_false_x (a b : Vector2) : ~ x a == x b -> Vector2.equals a b = false.
Proof.
  intros N. unfold Vector2.equals.
  destruct (Qeq_bool (x a) (x b)) eqn:E; [|reflexivity].
  apply Qeq_bool_eq in E. contradiction.
Qed.

Lemma Vector2_equals_false_y (a b : Vector2) : ~ y a == y b -> Vector2.equals a b = false.
Proof.
  intros N. unfold Vector2.equals.
  destruct (Qeq_bool (y a) (y b)) eqn:E; [|apply andb_false_r].
  apply Qeq_bool_eq in E. contradiction.
Qed.

Lemma rect_subpaths (px py width height : Q) :
  0 < width -> 0 < height ->
  Shape.subpaths (Shape.rect px py width height Shape.new)
  = [ mkSubpath [ v2 px py; v2 (px + width) py; v2 (px + width) (py + height);
                  v2 px (py + height) ]
                [ mkLine (v2 px py) (v2 (px + width) py) false;
                  mkLine (v2 (px + width) py) (v2 (px + width) (py + height)) false;
                  mkLine (v2 (px + width) (py + height)) (v2 px (py + height)) false ]
                true;
      mkSubpath [ v2 px py ] [] false ].
Proof.
  intros W H.
  assert (E1 : Vector2.equals (v2 px py) (v2 (px + width) py) = false)
    by (apply Vector2_equals_false_x; cbn [x]; lra).
  assert (E2 : Vector2.equals (v2 (px + width) py) (v2 (px + width) (py + height)) = false)
    by (apply Vector2_equals_false_y; cbn [y]; lra).
  assert (E3 : Vector2.equals (v2 (px + width) (py + height)) (v2 px (py + height)) = false)
    by (apply Vector2_equals_false_x; cbn [x]; lra).
  change Shape.new with (Shape.mkShape [] None None None false).
  unfold Shape.rect.
  rewrite addSubpath_eq.
  rewrite !onLastSubpath_snoc.
  rewrite !addSegmentAndBounds_snoc.
  rewrite onLastSubpath_snoc, addSubpath_eq, onLastSubpath_snoc.
  unfold Shape.resetControlPoints. cbn [Shape.subpaths].
  unfold Subpath.addSegment, Line.new. cbn [invalid].
  rewrite E1, E2, E3. reflexivity.
Qed.

(** The winding number that [containsPoint] computes for a rectangle:
    the right edge counts 1 and the closing left edge counts -1, each
    over its half-open range in y; a horizontal edge counts -1 for a
    ray along its line, when 0 passes the range test of the edge in x
    and the ray starts at or left of 0. *)
Lemma rect_winding (px py width height : Q) (p : Vector2) :
  0 < width -> Subpath.closingEpsilon < height ->
  Shape.windingIntersection (ray2 p Vector2.X_UNIT)
    (Shape.rect px py width height Shape.new)
  = Some ((if Qeq_bool (y p) py && negb (Line.outside px (px + width) 0)
              && Qle_bool (x p) 0
           then -1 else 0)
          + (if negb (Line.outside py (py + height) (y p)) && Qle_bool (x p) (px + width)
             then 1 else 0)
          + (if Qeq_bool (y p) (py + height) && negb (Line.outside (px + width) px 0)
                && Qle_bool (x p) 0
             then -1 else 0)
          + (if negb (Line.outside (py + height) py (y p)) && Qle_bool (x p) px
             then -1 else 0))%Z.
Proof.
  intros W H.
  assert (H0 : 0 < height).
  { apply Qlt_trans with Subpath.closingEpsilon; [reflexivity | exact H]. }
  unfold Shape.windingIntersection. rewrite (rect_subpaths px py W H0).
  cbn [Shape.windingLoop].
  rewrite (@subpathWinding_not_drawable _ (mkSubpath [ v2 px py ] [] false) eq_refl).
  unfold Shape.subpathWinding. cbn [Subpath.isDrawable segments fold_left].
  assert (C : Subpath.hasClosingSegment
                (mkSubpath [ v2 px py; v2 (px + width) py; v2 (px + width) (py + height);
                             v2 px (py + height) ]
                   [ mkLine (v2 px py) (v2 (px + width) py) false;
                     mkLine (v2 (px + width) py) (v2 (px + width) (py + height)) false;
                     mkLine (v2 (px + width) (py + height)) (v2 px (py + height)) false ]
                   true) = Some true).
  { unfold Subpath.hasClosingSegment, Subpath.getFirstPoint, Subpath.getLastPoint.
    cbn [points hd_error last]. f_equal. apply negb_true_iff.
    unfold Vector2.equalsEpsilon. cbn [x y].
    destruct (Qle_bool (Qabs (px - px) + Qabs (py - (py + height))) Subpath.closingEpsilon)
      eqn:Q; [|reflexivity].
    apply Qle_bool_iff in Q. exfalso.
    assert (A1 : Qabs (px - px) == 0).
    { assert (Z : px - px == 0) by ring. rewrite Z. reflexivity. }
    assert (A2 : Qabs (py - (py + height)) == height).
    { assert (Z : py - (py + height) == - height) by ring.
      rewrite Z, Qabs_opp. apply Qabs_pos. lra. }
    rewrite A1, A2 in Q. lra. }
  rewrite C.
  unfold Subpath.getClosingSegment, Subpath.getFirstPoint, Subpath.getLastPoint.
  cbn [points hd_error last].
  assert (V : Line.new (v2 px (py + height)) (v2 px py)
              = mkLine (v2 px (py + height)) (v2 px py) false).
  { unfold Line.new. f_equal. apply Vector2_equals_false_y. cbn [y]. lra. }
  rewrite V.
  rewrite (@horizontal_edge_winding px (px + width) py p) by lra.
  rewrite (@horizontal_edge_winding (px + width) px (py + height) p) by lra.
  rewrite (@vertical_edge_winding (px + width) py (py + height) p) by lra.
  rewrite (@vertical_edge_winding px (py + height) py p) by lra.
  assert (B1 : Num.ltb py (py + height) = true) by (apply Num_ltb_lt; lra).
  assert (B2 : Num.ltb (py + height) py = false) by (apply Num_ltb_ge; lra).
  rewrite B1, B2. f_equal. cbn [Z.add]. rewrite Z.add_0_r. reflexivity.
Qed.

Lemma outside_up_cases (lo hi v : Q) :
  lo < hi ->
  (Line.outside lo hi v = false /\ lo < v /\ v <= hi) \/
  (Line.outside lo hi v = true /\ (v <= lo \/ hi < v)).
Proof.
  intros L. unfold Line.outside.
  assert (E : Qeq_bool lo hi = false).
  { destruct (Qeq_bool lo hi) eqn:E; [|reflexivity]. apply Qeq_bool_eq in E. lra. }
  assert (B : Num.ltb hi lo = false) by (apply Num_ltb_ge; lra).
  rewrite E, B. cbn [negb andb].
  destruct (Qle_bool v lo) eqn:A.
  - right. split; [reflexivity|]. left. apply Qle_bool_iff. exact A.
  - cbn [orb]. destruct (Num.ltb hi v) eqn:C.
    + right. split; [reflexivity|]. right. apply Num_ltb_lt. exact C.
    + left. split; [reflexivity|]. split.
      * apply Qnot_le_lt. intros K. apply Qle_bool_iff in K. congruence.
      * apply Num_ltb_ge. exact C.
Qed.

Lemma outside_down_cases (lo hi v : Q) :
  lo < hi ->
  (Line.outside hi lo v = false /\ lo <= v /\ v < hi) \/
  (Line.outside hi lo v = true /\ (v < lo \/ hi <= v)).
Proof.
  intros L. unfold Line.outside.
  assert (E : Qeq_bool hi lo = false).
  { destruct (Qeq_bool hi lo) eqn:E; [|reflexivity]. apply Qeq_bool_eq in E. lra. }
  assert (B : Num.ltb lo hi = true) by (apply Num_ltb_lt; lra).
  rewrite E, B. cbn [negb andb].
  destruct (Qle_bool hi v) eqn:A.
  - right. split; [reflexivity|]. right. apply Qle_bool_iff. exact A.
  - cbn [orb]. destruct (Num.ltb v lo) eqn:C.
    + right. split; [reflexivity|]. left. apply Num_ltb_lt. exact C.
    + left. split; [reflexivity|]. split.
      * apply Num_ltb_ge. exact C.
      * apply Qnot_le_lt. intros K. apply Qle_bool_iff in K. congruence.
Qed.

Lemma Qle_bool_cases (a b : Q) :
  (Qle_bool a b = true /\ a <= b) \/ (Qle_bool a b = false /\ b < a).
Proof.
  destruct (Qle_bool a b) eqn:E.
  - left. split; [reflexivity|]. apply Qle_bool_iff. exact E.
  - right. split; [reflexivity|]. apply Qnot_le_lt. intros K.
    apply Qle_bool_iff in K. congruence.
Qed.

Lemma Qeq_bool_cases (a b : Q) :
  (Qeq_bool a b = true /\ a == b) \/ (Qeq_bool a b = false /\ ~ a == b).
Proof.
  destruct (Qeq_bool a b) eqn:E.
  - left. split; [reflexivity | apply Qeq_bool_eq; exact E].
  - right. split; [reflexivity | apply Qeq_bool_neq; exact E].
Qed.

Lemma integral_positive (bound : Z) (a : Q) : integral bound a -> 0 < a -> 1 <= a.
Proof.
  intros (n & _ & E) P. rewrite E in *.
  unfold Qlt in P. unfold Qle. cbn in *. lia.
Qed.

Ltac rect_cases px py width height p :=
  let H0 := fresh "H0" in
  assert (H0 : py < py + height)
    by (assert (0 < Subpath.closingEpsilon) by reflexivity; lra);
  let W0 := fresh "W0" in
  assert (W0 : px < px + width) by lra;
  unfold Shape.containsPoint;
  rewrite (@rect_winding px py width height p) by assumption;
  destruct (Qeq_bool_cases (y p) py) as [(-> & ?) | (-> & ?)];
  destruct (Qeq_bool_cases (y p) (py + height)) as [(-> & ?) | (-> & ?)];
  try (exfalso; lra);
  destruct (@outside_up_cases py (py + height) (y p) H0) as [(-> & ?) | (-> & ?)];
  destruct (@outside_down_cases py (py + height) (y p) H0) as [(-> & ?) | (-> & ?)];
  try (exfalso; lra);
  destruct (@outside_up_cases px (px + width) 0 W0) as [(-> & ?) | (-> & ?)];
  destruct (@outside_down_cases px (px + width) 0 W0) as [(-> & ?) | (-> & ?)];
  try (exfalso; lra);
  destruct (Qle_bool_cases (x p) (px + width)) as [(-> & ?) | (-> & ?)];
  destruct (Qle_bool_cases (x p) px) as [(-> & ?) | (-> & ?)];
  try (exfalso; lra);
  destruct (Qle_bool_cases (x p) 0) as [(-> & ?) | (-> & ?)];
  cbn [negb andb Z.add Z.eqb Pos.eqb Z.pos_sub Z.opp Z.succ_double Z.pred_double
       Z.double Pos.pred_double Pos.add Pos.succ].

(** X22. A rectangle of positive width and height, drawn into a new
    shape, and a point, all with integer coordinates of magnitude at
    most 2 ^ 24, where double arithmetic computes the intersections
    without rounding.  A point whose y lies strictly between the bottom
    and the top is contained exactly when its x is to the right of the
    left edge and not to the right of the right edge: the left edge is
    excluded, the right edge included. *)
Theorem rect_containsPoint_between_rows (px py width height : Q) (p : Vector2) :
  integral 16777216 px -> integral 16777216 py ->
  integral 16777216 width -> integral 16777216 height ->
  integralPoint 16777216 p ->
  0 < width -> 0 < height ->
  py < y p -> y p < py + height ->
  exists b,
    Shape.containsPoint p (Shape.rect px py width height Shape.new) = Some b /\
    (b = true <-> px < x p /\ x p <= px + width).
Proof.
  intros _ _ _ IH _ W H0 Y1 Y2.
  pose proof (integral_positive IH H0) as H1.
  assert (H : Subpath.closingEpsilon < height).
  { apply Qlt_le_trans with 1; [reflexivity | exact H1]. }
  rect_cases px py width height p;
    eexists; (split; [reflexivity|]);
    intuition (first [discriminate | reflexivity | lra]).
Qed.

Lemma rect_containsPoint_between_rows_witness :
  exists b,
    Shape.containsPoint (v2 2 1) (Shape.rect 0 0 2 2 Shape.new) = Some b /\
    (b = true <-> 0 < 2 /\ 2 <= 0 + 2).
Proof.
  assert (I : forall n : Z, (Z.abs n <= 16777216)%Z -> integral 16777216 (inject_Z n))
    by (intros n B; exists n; split; [exact B | reflexivity]).
  apply (@rect_containsPoint_between_rows 0 0 2 2 (v2 2 1)
           (I 0%Z ltac:(vm_compute; discriminate))
           (I 0%Z ltac:(vm_compute; discriminate))
           (I 2%Z ltac:(vm_compute; discriminate))
           (I 2%Z ltac:(vm_compute; discriminate))
           (conj (I 2%Z ltac:(vm_compute; discriminate))
                 (I 1%Z ltac:(vm_compute; discriminate))));
    reflexivity.
Defined.

(** X23. The same rectangle and point, on the lines through the
    horizontal edges, where the ray runs along an edge and the
    intersection of the two lines is stored as the origin.  A point on
    the line through the top edge is contained exactly when it is not
    to the right of the right edge, unless the rectangle reaches over
    x = 0 from the left and the point is at or left of 0.  A point on
    the line through the bottom edge is contained exactly when it is
    not to the right of the left edge, or the rectangle reaches over
    x = 0 and the point is at or left of 0.  A point below the bottom
    or above the top is never contained. *)
Theorem rect_containsPoint_on_edge_rows (px py width height : Q) (p : Vector2) :
  integral 16777216 px -> integral 16777216 py ->
  integral 16777216 width -> integral 16777216 height ->
  integralPoint 16777216 p ->
  0 < width -> 0 < height ->
  exists b,
    Shape.containsPoint p (Shape.rect px py width height Shape.new) = Some b /\
    (y p == py + height ->
     (b = true <->
      x p <= px + width /\ ~ (px <= 0 /\ 0 < px + width /\ x p <= 0))) /\
    (y p == py ->
     (b = true <->
      x p <= px \/ (px < 0 /\ 0 <= px + width /\ x p <= 0))) /\
    (y p < py \/ py + height < y p -> b = false).
Proof.
  intros _ _ _ IH _ W H0.
  pose proof (integral_positive IH H0) as H1.
  assert (H : Subpath.closingEpsilon < height).
  { apply Qlt_le_trans with 1; [reflexivity | exact H1]. }
  rect_cases px py width height p;
    eexists; (split; [reflexivity|]);
    intuition (first [discriminate | reflexivity | lra]).
Qed.

Lemma rect_containsPoint_on_edge_rows_witness :
  Shape.containsPoint (v2 (-5) 1) unitSquare = Some false /\
  Shape.containsPoint (v2 1 1) unitSquare = Some true /\
  Shape.containsPoint (v2 (-5) 0) unitSquare = Some true.
Proof.
  assert (I : forall n : Z, (Z.abs n <= 16777216)%Z -> integral 16777216 (inject_Z n))
    by (intros n B; exists n; split; [exact B | reflexivity]).
  assert (R : forall p : Vector2,
             integralPoint 16777216 p ->
             exists b,
               Shape.containsPoint p unitSquare = Some b /\
               (y p == 0 + 1 ->
                (b = true <-> x p <= 0 + 1 /\ ~ (0 <= 0 /\ 0 < 0 + 1 /\ x p <= 0))) /\
               (y p == 0 ->
                (b = true <-> x p <= 0 \/ (0 < 0 /\ 0 <= 0 + 1 /\ x p <= 0))) /\
               (y p < 0 \/ 0 + 1 < y p -> b = false)).
  { intros p Ip.
    exact (@rect_containsPoint_on_edge_rows 0 0 1 1 p
             (I 0%Z ltac:(vm_compute; discriminate))
             (I 0%Z ltac:(vm_compute; discriminate))
             (I 1%Z ltac:(vm_compute; discriminate))
             (I 1%Z ltac:(vm_compute; discriminate))
             Ip eq_refl eq_refl). }
  split; [|split].
  - destruct (R (v2 (-5) 1) (conj (I (-5)%Z ltac:(vm_compute; discriminate))
                                  (I 1%Z ltac:(vm_compute; discriminate))))
      as (b & E & T & _).
    rewrite E. f_equal. destruct b; [|reflexivity].
    exfalso. destruct (proj1 (T ltac:(reflexivity)) eq_refl) as [_ N].
    apply N. repeat split; discriminate.
  - destruct (R (v2 1 1) (conj (I 1%Z ltac:(vm_compute; discriminate))
                               (I 1%Z ltac:(vm_compute; discriminate))))
      as (b & E & T & _).
    rewrite E. f_equal. apply (T ltac:(reflexivity)). split; [discriminate|].
    intros (_ & _ & C). revert C. vm_compute. intros C. apply C. reflexivity.
  - destruct (R (v2 (-5) 0) (conj (I (-5)%Z ltac:(vm_compute; discriminate))
                                  (I 0%Z ltac:(vm_compute; discriminate))))
      as (b & E & _ & B & _).
    rewrite E. f_equal. apply (B ltac:(reflexivity)). left. discriminate.
Defined.


(** ** The polyline of the adaptive subdivision *)

Lemma connects_app (a m b : Vector2) (l1 l2 : list Line) :
  connects a m l1 -> connects m b l2 -> connects a b (l1 ++ l2).
Proof.
  revert a. induction l1 as [| l l1 IH]; intros a C1 C2.
  - simpl in C1. subst m. exact C2.
  - destruct C1 as [S C1]. split; [exact S|]. apply IH; assumption.
Qed.

Section PolylineFacts.
Variable distToSegmentSquared : Vector2 -> Vector2 -> Vector2 -> Q.
Context {S : Type} `{SegmentLike S}.

Lemma toPiecewiseLinearSegments_polyline (fuel : nat) :
  forall (options : Options) (minLevels maxLevels : Z) (segments : list Line)
         (start end_ : Vector2) (this : S),
    (0 <= maxLevels)%Z -> (minLevels <= maxLevels)%Z ->
    (Z.to_nat maxLevels < fuel)%nat ->
    exists added,
      Segment.toPiecewiseLinearSegments_rec distToSegmentSquared fuel options
        minLevels maxLevels segments start end_ this = Some (segments ++ added) /\
      connects start end_ added /\
      (2 ^ Z.to_nat minLevels <= length added)%nat /\
      (length added <= 2 ^ Z.to_nat maxLevels)%nat.
Proof.
  induction fuel as [| fuel IH]; intros options minLevels maxLevels segments
    start end_ this M L F; [lia|].
  cbn [Segment.toPiecewiseLinearSegments_rec].
  destruct (Segment.finished distToSegmentSquared options minLevels maxLevels start
              (Segment.pointMapOf options (seg_positionAt this (1 # 2))) end_) eqn:E.
  - exists [ Line.new start end_ ]. split; [reflexivity|].
    split; [split; reflexivity|].
    assert (Z.to_nat minLevels = 0%nat) as ->.
    { unfold Segment.finished in E.
      destruct (Z.eqb_spec maxLevels 0) as [M0 | M0]; [lia|].
      cbn [negb andb] in E.
      destruct (Z.leb_spec minLevels 0); [lia | discriminate E]. }
    cbn [length Nat.pow]. split; [lia|].
    assert (P : (2 ^ Z.to_nat maxLevels <> 0)%nat) by (apply Nat.pow_nonzero; lia).
    lia.
  - assert (M1 : maxLevels <> 0%Z).
    { intros Z0. subst maxLevels. unfold Segment.finished in E. simpl in E.
      discriminate E. }
    assert (M2 : (0 <= maxLevels - 1)%Z) by lia.
    assert (L2 : (minLevels - 1 <= maxLevels - 1)%Z) by lia.
    assert (F2 : (Z.to_nat (maxLevels - 1) < fuel)%nat) by lia.
    destruct (IH options (minLevels - 1)%Z (maxLevels - 1)%Z segments start
                (Segment.pointMapOf options (seg_positionAt this (1 # 2)))
                (fst (seg_subdivided this (1 # 2))) M2 L2 F2)
      as (a1 & R1 & C1 & Lo1 & Hi1).
    destruct (IH options (minLevels - 1)%Z (maxLevels - 1)%Z (segments ++ a1)
                (Segment.pointMapOf options (seg_positionAt this (1 # 2))) end_
                (snd (seg_subdivided this (1 # 2))) M2 L2 F2)
      as (a2 & R2 & C2 & Lo2 & Hi2).
    exists (a1 ++ a2). rewrite R1, R2. split; [rewrite app_assoc; reflexivity|].
    split; [exact (connects_app _ _ _ _ _ C1 C2)|].
    rewrite length_app.
    assert (EM : Z.to_nat maxLevels = Datatypes.S (Z.to_nat (maxLevels - 1))) by lia.
    rewrite EM, Nat.pow_succ_r'. split; [|lia].
    destruct (Z.leb_spec minLevels 0) as [Neg | Pos].
    + assert (Z.to_nat minLevels = 0%nat) as -> by lia.
      assert (Z.to_nat (minLevels - 1) = 0%nat) as E0 by lia.
      rewrite E0 in Lo1, Lo2. cbn [Nat.pow] in *. lia.
    + assert (Em : Z.to_nat minLevels = Datatypes.S (Z.to_nat (minLevels - 1))) by lia.
      rewrite Em, Nat.pow_succ_r'. lia.
Qed.

(** X24. With levels [minLevels <= maxLevels], [maxLevels] not
    negative, [toPiecewiseLinearSegments] adds to the segments it is
    given a polyline from [start] to [end]: every line starts where the
    one before it ends.  The polyline has at least [2 ^ minLevels] and
    at most [2 ^ maxLevels] lines. *)
Theorem toPiecewiseLinearSegments_is_polyline (options : Options)
    (minLevels maxLevels : Z) (segments : list Line) (start end_ : Vector2) (this : S) :
  (0 <= maxLevels)%Z -> (minLevels <= maxLevels)%Z ->
  exists added,
    Segment.toPiecewiseLinearSegments_rec distToSegmentSquared
      (Datatypes.S (Z.to_nat maxLevels)) options
      minLevels maxLevels segments start end_ this = Some (segments ++ added) /\
    connects start end_ added /\
    (2 ^ Z.to_nat minLevels <= length added)%nat /\
    (length added <= 2 ^ Z.to_nat maxLevels)%nat.
Proof.
  intros M L. apply toPiecewiseLinearSegments_polyline; [exact M | exact L | lia].
Qed.

End PolylineFacts.

Lemma toPiecewiseLinearSegments_is_polyline_witness :
  exists added,
    Segment.toPiecewiseLinearSegments_rec exampleDistToSegmentSquared
      (Datatypes.S (Z.to_nat 3)) (mkOptions 1 3 (Some (1 # 100)) None None)
      1 3 [] (v2 0 0) (v2 2 0) (Quadratic.new (v2 0 0) (v2 1 2) (v2 2 0))
    = Some ([] ++ added) /\
    connects (v2 0 0) (v2 2 0) added /\
    (2 ^ Z.to_nat 1 <= length added)%nat /\
    (length added <= 2 ^ Z.to_nat 3)%nat.
Proof.
  apply (@toPiecewiseLinearSegments_is_polyline exampleDistToSegmentSquared
           Quadratic Quadratic_SegmentLike); lia.
Defined.

(** ** The closing segment *)

(** X25. When [hasClosingSegment] answers true, the subpath has a first
    and a last point, and [getClosingSegment] is the line from the last
    point to the first, which is not marked invalid. *)
Theorem closing_segment_is_valid (S : Type) (sp : Subpath S) :
  Subpath.hasClosingSegment sp = Some true ->
  exists first lst,
    Subpath.getFirstPoint sp = Some first /\
    Subpath.getLastPoint sp = Some lst /\
    Subpath.getClosingSegment sp = Some (mkLine lst first false).
Proof.
  unfold Subpath.hasClosingSegment, Subpath.getClosingSegment.
  destruct (Subpath.getFirstPoint sp) as [first |]; [|discriminate].
  destruct (Subpath.getLastPoint sp) as [lst |]; [|discriminate].
  intros E. injection E as E. apply negb_true_iff in E.
  exists first, lst. split; [reflexivity|]. split; [reflexivity|].
  unfold Line.new. do 2 f_equal.
  destruct (Vector2.equals lst first) eqn:V; [|reflexivity].
  exfalso. unfold Vector2.equals in V. apply andb_true_iff in V. destruct V as [Vx Vy].
  apply Qeq_bool_eq in Vx, Vy.
  unfold Vector2.equalsEpsilon in E.
  assert (Q : Qabs (x first - x lst) + Qabs (y first - y lst) <= Subpath.closingEpsilon).
  { assert (Zx : x first - x lst == 0) by lra.
    assert (Zy : y first - y lst == 0) by lra.
    rewrite Zx, Zy. discriminate. }
  apply Qle_bool_iff in Q. congruence.
Qed.

Lemma closing_segment_is_valid_witness :
  exists first lst,
    Subpath.getFirstPoint (mkSubpath [ v2 0 0; v2 1 0; v2 1 1 ] ([] : list Line) false)
      = Some first /\
    Subpath.getLastPoint (mkSubpath [ v2 0 0; v2 1 0; v2 1 1 ] ([] : list Line) false)
      = Some lst /\
    Subpath.getClosingSegment (mkSubpath [ v2 0 0; v2 1 0; v2 1 1 ] ([] : list Line) false)
      = Some (mkLine lst first false).
Proof.
  apply closing_segment_is_valid. reflexivity.
Defined.

(** ** Joins between collinear tangents *)

(** X26. Where the outgoing tangent equals the incoming one, [join]
    adds no piece, whatever the join style, the line width and the
    miter limit are. *)
Theorem join_of_equal_tangents `{MathLib} (lineStyles : LineStyles)
    (center tangent : Vector2) :
  Stroke.join lineStyles center tangent tangent = Some [].
Proof.
  unfold Stroke.join. cbv zeta.
  assert (D : Num.ltb 0 (Vector2.dot (Vector2.perpendicular tangent) tangent) = false).
  { apply Num_ltb_ge. unfold Vector2.dot, Vector2.perpendicular. cbn [x y].
    assert (Z : y tangent * x tangent + - x tangent * y tangent == 0) by ring.
    rewrite Z. discriminate. }
  rewrite D.
  assert (E : Vector2.equals (Stroke.fromPointOf lineStyles center tangent)
                             (Stroke.toPointOf lineStyles center tangent) = true).
  { unfold Vector2.equals, Stroke.fromPointOf, Stroke.toPointOf.
    rewrite !Qeq_bool_refl. reflexivity. }
  rewrite E. reflexivity.
Qed.

(** ** Bounding boxes *)

Lemma Bounds2_containsBounds_iff (b c : Bounds2) :
  Bounds2.containsBounds b c = true <->
  minX b <= minX c /\ maxX c <= maxX b /\ minY b <= minY c /\ maxY c <= maxY b.
Proof.
  unfold Bounds2.containsBounds.
  rewrite !andb_true_iff, !Qle_bool_iff. tauto.
Qed.

Ltac minmax_cases :=
  repeat match goal with
  | |- context [Qmax ?a ?b] =>
      let E := fresh "E" in
      destruct (Q.max_spec a b) as [[? E] | [? E]]; rewrite E in *; clear E
  | |- context [Qmin ?a ?b] =>
      let E := fresh "E" in
      destruct (Q.min_spec a b) as [[? E] | [? E]]; rewrite E in *; clear E
  | H : context [Qmax ?a ?b] |- _ =>
      let E := fresh "E" in
      destruct (Q.max_spec a b) as [[? E] | [? E]]; rewrite E in *; clear E
  | H : context [Qmin ?a ?b] |- _ =>
      let E := fresh "E" in
      destruct (Q.min_spec a b) as [[? E] | [? E]]; rewrite E in *; clear E
  end.

(** X27. [intersectsBounds] answers true exactly when the two boxes
    share a point, a point of the boundary included. *)
Theorem intersectsBounds_iff_common_point (a b : Bounds2) :
  Bounds2.intersectsBounds a b = true <->
  exists p, Bounds2.containsPoint a p = true /\ Bounds2.containsPoint b p = true.
Proof.
  unfold Bounds2.intersectsBounds, Bounds2.isEmpty, Bounds2.getWidth, Bounds2.getHeight,
    Bounds2.intersection.
  cbn [minX minY maxX maxY].
  rewrite negb_true_iff, orb_false_iff, !Num_ltb_ge. split.
  - intros [W Hh].
    exists (v2 (Qmax (minX a) (minX b)) (Qmax (minY a) (minY b))).
    rewrite !Bounds2_containsPoint_iff. cbn [x y].
    minmax_cases; lra.
  - intros (p & A & B).
    apply Bounds2_containsPoint_iff in A, B.
    minmax_cases; lra.
Qed.

(** X28. [union] is the smallest box that contains both boxes: it
    contains each of them, and every box that contains both contains
    the union. *)
Theorem union_is_least_box (a b c : Bounds2) :
  Bounds2.containsBounds (Bounds2.union a b) a = true /\
  Bounds2.containsBounds (Bounds2.union a b) b = true /\
  (Bounds2.containsBounds c a = true -> Bounds2.containsBounds c b = true ->
   Bounds2.containsBounds c (Bounds2.union a b) = true).
Proof.
  rewrite !Bounds2_containsBounds_iff. unfold Bounds2.union.
  cbn [minX minY maxX maxY].
  repeat split; try intros A B; minmax_cases; lra.
Qed.

Lemma union_is_least_box_witness :
  Bounds2.containsBounds (bounds2 0 0 3 3)
    (Bounds2.union (bounds2 0 0 1 1) (bounds2 2 2 3 3)) = true.
Proof.
  apply (proj2 (proj2 (@union_is_least_box (bounds2 0 0 1 1) (bounds2 2 2 3 3)
                         (bounds2 0 0 3 3)))); reflexivity.
Defined.

(** ** Matrices *)

Ltac use_entries :=
  repeat match goal with
  | H : ?v == _ |- _ => is_var v; rewrite H; clear H
  end.

Lemma timesMatrix_timesVector2 (a b : Matrix3) (v : Vector2) :
  wellTyped a -> wellTyped b -> affineRow b ->
  Vector2.same (Matrix3.timesVector2 (Matrix3.timesMatrix a b) v)
               (Matrix3.timesVector2 a (Matrix3.timesVector2 b v)).
Proof.
  destruct a as [a00 a01 a02 a10 a11 a12 a20 a21 a22 ta].
  destruct b as [b00 b01 b02 b10 b11 b12 b20 b21 b22 tb].
  destruct v as [vx vy].
  unfold wellTyped, affineRow, Vector2.same. cbn [type m00 m01 m02 m10 m11 m12 m20 m21 m22].
  intros A B R.
  destruct ta, tb;
    unfold Matrix3.timesMatrix, Matrix3.timesVector2, Matrix3.rowMajor;
    cbn [type Matrix3.typeEqb orb andb negb m00 m01 m02 m10 m11 m12 m20 m21 m22 x y];
    repeat match goal with H : _ /\ _ |- _ => destruct H end;
    split; use_entries; ring.
Qed.

Lemma timesMatrix_wellTyped (a b : Matrix3) :
  wellTyped a -> wellTyped b -> wellTyped (Matrix3.timesMatrix a b).
Proof.
  destruct a as [a00 a01 a02 a10 a11 a12 a20 a21 a22 ta].
  destruct b as [b00 b01 b02 b10 b11 b12 b20 b21 b22 tb].
  intros A B.
  destruct ta, tb;
    unfold Matrix3.timesMatrix;
    cbn [type Matrix3.typeEqb orb andb negb];
    try exact A; try exact B;
    try (unfold wellTyped, Matrix3.rowMajor;
         cbn [type m00 m01 m02 m10 m11 m12 m20 m21 m22];
         repeat split; reflexivity).
  all: unfold wellTyped, Matrix3.rowMajor;
    cbn [type m00 m01 m02 m10 m11 m12 m20 m21 m22];
    match goal with
    | |- context [if ?c then AFFINE else OTHER] =>
        destruct c eqn:C; [|exact I];
        apply andb_true_iff in C; destruct C as [C C3];
        apply andb_true_iff in C; destruct C as [C1 C2];
        apply Qeq_bool_eq in C1, C2, C3; repeat split; assumption
    end.
Qed.

(** X29. For two matrices whose entries agree with their type tags,
    the second with the last row 0, 0, 1: applying [timesMatrix] of the
    two to a vector gives the point that applying the second and then
    the first gives, on every one of the five paths that [timesMatrix]
    takes by type; and the entries of the product agree with its type
    tag again. *)
Theorem timesMatrix_composes (a b : Matrix3) (v : Vector2) :
  wellTyped a -> wellTyped b -> affineRow b ->
  Vector2.same (Matrix3.timesVector2 (Matrix3.timesMatrix a b) v)
               (Matrix3.timesVector2 a (Matrix3.timesVector2 b v)) /\
  wellTyped (Matrix3.timesMatrix a b).
Proof.
  intros A B R. split.
  - exact (@timesMatrix_timesVector2 a b v A B R).
  - exact (@timesMatrix_wellTyped a b A B).
Qed.

Lemma timesMatrix_composes_witness :
  Vector2.same
    (Matrix3.timesVector2
       (Matrix3.timesMatrix (Matrix3.translation 1 2) (Matrix3.scaling 3 4)) (v2 5 6))
    (Matrix3.timesVector2 (Matrix3.translation 1 2)
       (Matrix3.timesVector2 (Matrix3.scaling 3 4) (v2 5 6))) /\
  wellTyped (Matrix3.timesMatrix (Matrix3.translation 1 2) (Matrix3.scaling 3 4)).
Proof.
  apply timesMatrix_composes; vm_compute; repeat split; reflexivity.
Defined.

Lemma wellTyped_determinant (m : Matrix3) :
  wellTyped m -> affineRow m ->
  Matrix3.getDeterminant m == m00 m * m11 m - m01 m * m10 m.
Proof.
  destruct m as [a00 a01 a02 a10 a11 a12 a20 a21 a22 t].
  unfold affineRow, Matrix3.getDeterminant.
  cbn [m00 m01 m02 m10 m11 m12 m20 m21 m22].
  intros _ (R0 & R1 & R2). rewrite R0, R1, R2. ring.
Qed.

Lemma inverted_spec (m : Matrix3) :
  wellTyped m -> affineRow m ->
  (Matrix3.getDeterminant m == 0 -> Matrix3.inverted m = None) /\
  (~ Matrix3.getDeterminant m == 0 ->
   exists i,
     Matrix3.inverted m = Some i /\
     (forall v, Vector2.same (Matrix3.timesVector2 i (Matrix3.timesVector2 m v)) v) /\
     (forall v, Vector2.same (Matrix3.timesVector2 m (Matrix3.timesVector2 i v)) v)).
Proof.
  intros W R. pose proof (wellTyped_determinant W R) as D.
  destruct m as [a00 a01 a02 a10 a11 a12 a20 a21 a22 t].
  unfold wellTyped, affineRow in *.
  cbn [type m00 m01 m02 m10 m11 m12 m20 m21 m22] in *.
  destruct R as (R0 & R1 & R2).
  destruct t; unfold Matrix3.inverted; cbn [type m00 m01 m02 m10 m11 m12 m20 m21 m22].
  - (* OTHER *)
    split; intros Z.
    + rewrite (Qeq_eq_bool _ _ Z). reflexivity.
    + assert (Zb : Qeq_bool (Matrix3.getDeterminant
                               (mkMatrix3 a00 a01 a02 a10 a11 a12 a20 a21 a22 OTHER)) 0
                   = false).
      { destruct (Qeq_bool _ 0) eqn:E; [|reflexivity].
        apply Qeq_bool_eq in E. contradiction. }
      rewrite Zb. cbn [negb]. eexists. split; [reflexivity|].
      set (det := Matrix3.getDeterminant _) in *. clearbody det.
      assert (Nd : ~ a00 * a11 - a01 * a10 == 0) by (rewrite <- D; exact Z).
      unfold Matrix3.timesVector2, Matrix3.rowMajor, Vector2.same.
      cbn [m00 m01 m02 m10 m11 m12 m20 m21 m22 x y].
      split; intros [vx vy]; cbn [x y]; rewrite D, R0, R1, R2; split; field; exact Nd.
  - (* IDENTITY *)
    destruct W as (E00 & E01 & E02 & E10 & E11 & E12 & _).
    split; intros Z.
    + exfalso. rewrite D, E00, E01, E10, E11 in Z. revert Z. discriminate.
    + eexists. split; [reflexivity|].
      unfold Matrix3.timesVector2, Vector2.same.
      cbn [m00 m01 m02 m10 m11 m12 m20 m21 m22 x y].
      split; intros [vx vy]; cbn [x y];
        rewrite E00, E01, E02, E10, E11, E12; split; ring.
  - (* TRANSLATION_2D *)
    destruct W as (E00 & E01 & E10 & E11 & _).
    split; intros Z.
    + exfalso. rewrite D, E00, E01, E10, E11 in Z. revert Z. discriminate.
    + eexists. split; [reflexivity|].
      unfold Matrix3.timesVector2, Matrix3.rowMajor, Vector2.same.
      cbn [m00 m01 m02 m10 m11 m12 m20 m21 m22 x y].
      split; intros [vx vy]; cbn [x y];
        rewrite E00, E01, E10, E11; split; ring.
  - (* SCALING *)
    destruct W as (E01 & E02 & E10 & E12 & _).
    assert (D' : Matrix3.getDeterminant
                   (mkMatrix3 a00 a01 a02 a10 a11 a12 a20 a21 a22 SCALING)
                 == a00 * a11).
    { rewrite D, E01. ring. }
    split; intros Z.
    + rewrite D' in Z. apply Qmult_integral in Z. unfold Num.div.
      destruct Z as [Z | Z].
      * rewrite (Qeq_eq_bool _ _ Z). reflexivity.
      * rewrite (Qeq_eq_bool _ _ Z).
        destruct (Qeq_bool a00 0); reflexivity.
    + assert (N0 : ~ a00 == 0) by (intros C; apply Z; rewrite D', C; ring).
      assert (N1 : ~ a11 == 0) by (intros C; apply Z; rewrite D', C; ring).
      assert (N2 : ~ a22 == 0) by (rewrite R2; discriminate).
      rewrite (@Num_div_finite 1 a00 N0), (@Num_div_finite 1 a11 N1),
              (@Num_div_finite 1 a22 N2).
      eexists. split; [reflexivity|].
      unfold Matrix3.timesVector2, Matrix3.rowMajor, Vector2.same.
      cbn [m00 m01 m02 m10 m11 m12 m20 m21 m22 x y].
      split; intros [vx vy]; cbn [x y];
        rewrite E01, E02, E10, E12; split; field; repeat split; assumption.
  - (* AFFINE *)
    split; intros Z.
    + rewrite (Qeq_eq_bool _ _ Z). reflexivity.
    + assert (Zb : Qeq_bool (Matrix3.getDeterminant
                               (mkMatrix3 a00 a01 a02 a10 a11 a12 a20 a21 a22 AFFINE)) 0
                   = false).
      { destruct (Qeq_bool _ 0) eqn:E; [|reflexivity].
        apply Qeq_bool_eq in E. contradiction. }
      rewrite Zb. cbn [negb]. eexists. split; [reflexivity|].
      set (det := Matrix3.getDeterminant _) in *. clearbody det.
      assert (Nd : ~ a00 * a11 - a01 * a10 == 0) by (rewrite <- D; exact Z).
      unfold Matrix3.timesVector2, Matrix3.rowMajor, Vector2.same.
      cbn [m00 m01 m02 m10 m11 m12 m20 m21 m22 x y].
      split; intros [vx vy]; cbn [x y]; rewrite D, R0, R1, R2; split; field; exact Nd.
Qed.

(** X30. For a matrix whose entries agree with its type tag and whose
    last row is 0, 0, 1: when the determinant is zero, [inverted] gives
    no matrix of finite entries; when it is not zero, [inverted] gives a
    matrix that undoes the given one on every vector, applied after it
    or before it, on each of the five paths that [inverted] takes by
    type. *)
Theorem inverted_undoes (m : Matrix3) :
  wellTyped m -> affineRow m ->
  (Matrix3.getDeterminant m == 0 -> Matrix3.inverted m = None) /\
  (~ Matrix3.getDeterminant m == 0 ->
   exists i,
     Matrix3.inverted m = Some i /\
     (forall v, Vector2.same (Matrix3.timesVector2 i (Matrix3.timesVector2 m v)) v) /\
     (forall v, Vector2.same (Matrix3.timesVector2 m (Matrix3.timesVector2 i v)) v)).
Proof. exact (@inverted_spec m). Qed.

Lemma inverted_undoes_witness :
  exists i,
    Matrix3.inverted (Matrix3.rowMajor 2 1 3 1 1 4 0 0 1 None) = Some i /\
    (forall v, Vector2.same
                 (Matrix3.timesVector2 i
                    (Matrix3.timesVector2 (Matrix3.rowMajor 2 1 3 1 1 4 0 0 1 None) v)) v) /\
    (forall v, Vector2.same
                 (Matrix3.timesVector2 (Matrix3.rowMajor 2 1 3 1 1 4 0 0 1 None)
                    (Matrix3.timesVector2 i v)) v).
Proof.
  refine (proj2 (@inverted_undoes (Matrix3.rowMajor 2 1 3 1 1 4 0 0 1 None) _ _) _).
  - vm_compute. repeat split; reflexivity.
  - vm_compute. repeat split; reflexivity.
  - vm_compute. discriminate.
Defined.
